(** * The odds cache of odds-notifyer-server, embedded in Rocq

    The repository ships two editions of [services/oddsCache.js]:

    - the edition for a provider with an hourly quota ([Bounded] below):
      every upstream call goes through [checkRateLimit] and
      [fetchWithRateLimit];
    - the edition for a quota-free provider ([Optic] below): calls go
      through [fetchApi], which only counts them.

    Both are classes with mutable fields whose methods are [async]
    functions.  A method is embedded as a function of the monad [M]: it
    takes the object's state and gives back a completion (a value, or a
    thrown error) together with the new state.  Awaiting a promise is
    sequencing: one method runs at a time, and what two refreshes that
    overlap in time do to each other is not described here.  The system
    clock and the provider are an oracle ([World]) the model reads but
    does not control.  Console output is left out.  The two editions
    come first, as the classes are written; the server that wraps the
    methods of the quota-free edition and serves its cache comes after
    them ([Server]). *)

From Stdlib Require Import ZArith String List Lia Sorted Permutation.
From stdpp Require Import gmap strings list fin_maps pretty.

Set Warnings "-register-all".
Open Scope string_scope.
Open Scope list_scope.
Open Scope Z_scope.

(** ** JavaScript values, as far as the cache looks at them *)

Module Js.

(** What [JSON.parse] can give, and [undefined] for an absent property.
    Numbers are the integer-valued ones: the cache only tests them
    against zero and reads them as times in milliseconds. *)
Inductive Value : Type :=
| VUndefined
| VNull
| VBool (b : bool)
| VNum (n : Z)
| VStr (s : string)
| VArr (items : list Value)
| VObj (fields : list (string * Value)).

(** [ToBoolean]. *)
Definition truthy (v : Value) : bool :=
  match v with
  | VUndefined | VNull => false
  | VBool b => b
  | VNum n => negb (n =? 0)
  | VStr s => negb (String.eqb s "")
  | VArr _ | VObj _ => true
  end.

Definition nullish (v : Value) : bool :=
  match v with
  | VUndefined | VNull => true
  | _ => false
  end.

Definition isArray (v : Value) : bool :=
  match v with
  | VArr _ => true
  | _ => false
  end.

(** [ToString], used for template strings and for property keys.  It is
    written for the values [printable] describes below: JavaScript
    throws where an object brings a [toString] of its own, and prints a
    number beyond the safe integers from the digits of a double. *)
Fixpoint toString (v : Value) : string :=
  match v with
  | VUndefined => "undefined"
  | VNull => "null"
  | VBool true => "true"
  | VBool false => "false"
  | VNum n => pretty n
  | VStr s => s
  | VArr l =>
      (fix join (l : list Value) : string :=
         match l with
         | [] => ""
         | x :: rest =>
             let sx := match x with
                       | VNull | VUndefined => ""
                       | _ => toString x
                       end in
             match rest with
             | [] => sx
             | _ => sx +:+ "," +:+ join rest
             end
         end) l
  | VObj _ => "[object Object]"
  end.

(** Errors that can be thrown, with their [message]. *)
Inductive JsError : Type :=
| Error (message : string)
| TypeError (message : string).

Definition message (e : JsError) : string :=
  match e with
  | Error m | TypeError m => m
  end.

(** A completion: the value of an evaluation, or the error it threw. *)
Inductive Completion (A : Type) : Type :=
| Normal (a : A)
| Thrown (e : JsError).
Arguments Normal {A} a.
Arguments Thrown {A} e.

(** The first binding of a name in a field list is the property. *)
Fixpoint assoc (k : string) (fields : list (string * Value)) : option Value :=
  match fields with
  | [] => None
  | (k', v) :: rest => if String.eqb k' k then Some v else assoc k rest
  end.

(** The index an array-index property key denotes, below [n]. *)
Definition indexKey (k : string) (n : nat) : option nat :=
  List.find (fun i => String.eqb (pretty i) k) (seq 0 n).

Definition chars (s : string) : list Value :=
  List.map (fun c => VStr (String c EmptyString)) (list_ascii_of_string s).

(** Reading own property [k] of a value that is neither [null] nor
    [undefined]: fields of objects, [length] and elements of arrays and
    strings; anything else is [undefined]. *)
Definition prop (v : Value) (k : string) : Value :=
  match v with
  | VObj fields => default VUndefined (assoc k fields)
  | VArr l =>
      if String.eqb k "length" then VNum (Z.of_nat (List.length l))
      else match indexKey k (List.length l) with
           | Some i => nth i l VUndefined
           | None => VUndefined
           end
  | VStr s =>
      if String.eqb k "length" then VNum (Z.of_nat (String.length s))
      else match indexKey k (String.length s) with
           | Some i => nth i (chars s) VUndefined
           | None => VUndefined
           end
  | _ => VUndefined
  end.

(** [v.k] and [v[k]]: a [TypeError] on [null] and [undefined]. *)
Definition getProp (v : Value) (k : string) : Completion Value :=
  if nullish v
  then Thrown (TypeError ("Cannot read properties of " +:+ toString v
                          +:+ " (reading '" +:+ k +:+ "')"))
  else Normal (prop v k).

(** The names every object inherits from [Object.prototype].  The cache
    reads properties of the bodies it is sent under names that are not
    among them (nor among those of arrays and strings), so that [prop]
    is what such a read gives.  Where it reads its own objects under a
    name taken from a body, an inherited name that is no own key gives
    the inherited member, not [undefined]. *)
Definition inheritedNames : list string :=
  ["constructor"; "__defineGetter__"; "__defineSetter__"; "hasOwnProperty";
   "__lookupGetter__"; "__lookupSetter__"; "isPrototypeOf";
   "propertyIsEnumerable"; "toString"; "valueOf"; "__proto__";
   "toLocaleString"].

Definition inherited (k : string) : bool :=
  existsb (String.eqb k) inheritedNames.

(** What [for (const x of v)] runs over. *)
Definition iterate (what : string) (v : Value) : Completion (list Value) :=
  match v with
  | VArr l => Normal l
  | VStr s => Normal (chars s)
  | _ => Thrown (TypeError (what +:+ " is not iterable"))
  end.

(** The own enumerable properties an object spread [{...v}] copies. *)
Definition spread (v : Value) : gmap string Value :=
  match v with
  | VObj fields => list_to_map fields
  | VArr l => list_to_map (imap (fun i x => (pretty i, x)) l)
  | VStr s => list_to_map (imap (fun i x => (pretty i, x)) (chars s))
  | _ => ∅
  end.

(** Parts of the runtime the cache calls and this development leaves
    open: the parser and the ISO printer of [Date], and the numeric
    reading of a string in a comparison with zero. *)
Record Runtime : Type := {
  Date_parse : string -> option Z;
  Date_toISOString : Z -> string;
  stringExceedsZero : string -> bool
}.

(** The time value of [new Date(v)]; [None] is an Invalid Date.  For an
    array or an object the string it converts to is parsed, which
    supposes a [printable] one. *)
Definition dateValue (R : Runtime) (v : Value) : option Z :=
  match v with
  | VUndefined => None
  | VNull => Some 0
  | VBool b => Some (if b then 1 else 0)
  | VNum n => if Z.abs n <=? 8640000000000000 then Some n else None
  | VStr s => Date_parse R s
  | VArr _ | VObj _ => Date_parse R (toString v)
  end.

(** [v > 0], for a [printable] [v]. *)
Definition exceedsZero (R : Runtime) (v : Value) : bool :=
  match v with
  | VUndefined | VNull => false
  | VBool b => b
  | VNum n => 0 <? n
  | VStr s => stringExceedsZero R s
  | VArr _ | VObj _ => stringExceedsZero R (toString v)
  end.

(** [new Date(a) - new Date(b)] as the comparator of [sort] sees it:
    [sort] reads a [NaN] result as [+0]. *)
Definition compareDates (a b : option Z) : Z :=
  match a, b with
  | Some x, Some y => x - y
  | _, _ => 0
  end.

(** Two valid dates, the first not later than the second. *)
Definition notLater (a b : option Z) : Prop :=
  match a, b with
  | Some x, Some y => x <= y
  | _, _ => False
  end.

(** [new Date(a) <= limit]; an Invalid Date compares false. *)
Definition dateAtMost (a : option Z) (limit : Z) : bool :=
  match a with
  | Some x => x <=? limit
  | None => false
  end.

(** [Array.prototype.sort]: with a consistent comparator the result is
    the stable ascending arrangement, which insertion computes.  When a
    date is invalid the comparator is not consistent and ECMAScript
    leaves the order to the engine: what is said of the outcome of a
    sort is that it is a permutation, ascending when the dates are
    valid. *)
Fixpoint insertBy {A : Type} (cmp : A -> A -> Z) (x : A) (l : list A) : list A :=
  match l with
  | [] => [x]
  | y :: rest => if cmp x y <=? 0 then x :: y :: rest else y :: insertBy cmp x rest
  end.

Fixpoint sortBy {A : Type} (cmp : A -> A -> Z) (l : list A) : list A :=
  match l with
  | [] => []
  | x :: rest => insertBy cmp x (sortBy cmp rest)
  end.

(** *** The values the conversions are written for

    [toString], [dateValue] and [exceedsZero] always give a result.
    JavaScript converts an object through its [toString] and [valueOf]:
    an object that has a property [toString] of its own, which in a
    parsed body is no function, cannot be converted, neither can an
    array that holds one, and the conversion throws a [TypeError].  A
    number is a double: beyond the safe integers (from [2^53] on) it is
    printed from the shortest digits that denote the double, and from
    [10^21] on with an exponent ([1e+21]).  [printable v] excludes
    both: for such a [v], [toString v] is the string JavaScript makes of
    [v] in a template string and as a property key, and [dateValue] and
    [exceedsZero] are what [new Date(v)] and [v > 0] give.  Where a
    statement depends on the conversion of a value that the provider or
    a client sent, it asks for a printable one. *)
Fixpoint printable (v : Value) : bool :=
  match v with
  | VNum n => Z.abs n <? 2 ^ 53
  | VArr l =>
      (fix all (l : list Value) : bool :=
         match l with
         | [] => true
         | x :: rest => printable x && all rest
         end) l
  | VObj fields => negb (existsb (fun f => String.eqb (fst f) "toString") fields)
  | _ => true
  end.

(** An assignment [o[k] = x] makes or replaces the own property of [o]
    that [k] names, for every name but one: under [__proto__] it
    replaces the prototype of [o] (when [x] is an object), and [o] gets
    no property.  The maps below record own properties, and their
    [insert] is the assignment for the values that [ownKey] admits. *)
Definition ownKey (v : Value) : bool :=
  printable v && negb (String.eqb (toString v) "__proto__").

End Js.
Export Js.

(** ** The monad of methods: state, and errors that keep the state *)

Definition M (S A : Type) : Type := S -> Completion A * S.

#[export] Instance M_ret {S : Type} : MRet (M S) :=
  fun A a s => (Normal a, s).

#[export] Instance M_bind {S : Type} : MBind (M S) :=
  fun A B f m s =>
    match m s with
    | (Normal a, s') => f a s'
    | (Thrown e, s') => (Thrown e, s')
    end.

Section Monad.
Context {S : Type}.

Definition throw {A : Type} (e : JsError) : M S A :=
  fun s => (Thrown e, s).

Definition get : M S S := fun s => (Normal s, s).

Definition modify (f : S -> S) : M S unit := fun s => (Normal tt, f s).

(** A pure evaluation that may throw. *)
Definition liftC {A : Type} (c : Completion A) : M S A := fun s => (c, s).

(** [try { m } catch (e) { h e }]. *)
Definition tryCatch {A : Type} (m : M S A) (h : JsError -> M S A) : M S A :=
  fun s =>
    match m s with
    | (Normal a, s') => (Normal a, s')
    | (Thrown e, s') => h e s'
    end.

(** [try { m } finally { fin }], for a [fin] that completes normally
    the completion of [m] is kept. *)
Definition tryFinally {A : Type} (m : M S A) (fin : M S unit) : M S A :=
  fun s =>
    let '(r, s') := m s in
    match fin s' with
    | (Normal _, s'') => (r, s'')
    | (Thrown e, s'') => (Thrown e, s'')
    end.

(** [for (const x of l) { body }] over a local variable [acc] the body
    updates.  The body answers [(acc', true)] to go on and
    [(acc', false)] for [break]. *)
Fixpoint forOf {A B : Type} (l : list A) (acc : B)
    (body : A -> B -> M S (B * bool)) : M S B :=
  match l with
  | [] => mret acc
  | x :: rest =>
      body x acc ≫= fun r : B * bool =>
      if snd r then forOf rest (fst r) body else mret (fst r)
  end.

(** [await this.sleep(ms)]: nothing of the object changes. *)
Definition sleep (ms : Z) : M S unit := mret tt.

End Monad.

(** ** The world outside the process *)

(** What [fetch(url)] followed by [response.json()] can come to: the
    promise of [fetch] is rejected (no connection, no answer), the
    response is there but not [ok] (a status outside 2xx), its body is
    not JSON and [response.json()] is rejected, or the body is parsed. *)
Inductive Response : Type :=
| Rejected (reason : string)
| NotOk (status : Z) (statusText : string)
| BadJson (reason : string)
| Json (data : Value).

(** The message of the error a request that did not give a body ends in. *)
Definition failureMessage (r : Response) : option string :=
  match r with
  | Rejected reason => Some reason
  | NotOk status statusText =>
      Some ("HTTP " +:+ pretty status +:+ ": " +:+ statusText)
  | BadJson reason => Some reason
  | Json _ => None
  end.

(** [clock n] is the [n]-th reading of the system clock by the object
    (in milliseconds, a time a [Date] can hold), [upstream n url] the
    outcome of its [n]-th request. *)
Record World : Type := {
  runtime : Runtime;
  clock : nat -> Z;
  upstream : nat -> string -> Response
}.

(** A world in which no request gives a body. *)
Definition noData (W : World) : Prop :=
  forall n url, failureMessage (upstream W n url) <> None.

(** [lastError]: [{ time, message, url }], the url only from a fetch. *)
Record ErrorInfo : Type := {
  time : Z;
  errMessage : string;
  url : option string
}.

(** Pure evaluations that may throw compose like the methods do. *)
#[export] Instance Completion_ret : MRet Completion := fun A a => Normal a.

#[export] Instance Completion_bind : MBind Completion :=
  fun A B f c =>
    match c with
    | Normal a => f a
    | Thrown e => Thrown e
    end.

(** [process.env.NAME || fallback] for a string setting. *)
Definition envOr (setting : option string) (fallback : string) : string :=
  match setting with
  | Some s => if String.eqb s "" then fallback else s
  | None => fallback
  end.

Definition items (v : Value) : list Value :=
  match v with
  | VArr l => l
  | _ => []
  end.

Definition hourMs : Z := 60 * 60 * 1000.
Definition dayMs : Z := 24 * 60 * 60 * 1000.

(** ** Reading an object that is used as a map *)

(** What [o[k]] finds in an object the cache fills by assignment: an own
    entry, a member every object inherits from [Object.prototype] (a
    function, or the prototype itself), or nothing ([undefined]).  This
    is the object with the prototype it was created with: an assignment
    under the name [__proto__] replaces the prototype, and what is read
    under other names changes with it.  A statement about what is read
    from a map asks that the map holds nothing under that name. *)
Inductive Member (A : Type) : Type :=
| Own (a : A)
| Inherited (name : string)
| Absent.
Arguments Own {A} a.
Arguments Inherited {A} name.
Arguments Absent {A}.

Definition member {A : Type} (o : gmap string A) (k : string) : Member A :=
  match o !! k with
  | Some a => Own a
  | None => if inherited k then Inherited k else Absent
  end.

(** [o[k] || fallback] where the own entries are objects or arrays, which
    are truthy, as the inherited members are. *)
Definition found {A : Type} (m : Member A) : bool :=
  match m with
  | Own _ | Inherited _ => true
  | Absent => false
  end.

(** ** The edition with an hourly quota *)

Module Bounded.

(** The process environment: the two strings as set, and what [parseInt]
    makes of [MAX_CALLS_PER_HOUR] ([None] for [NaN]). *)
Record Env : Type := {
  env_ODDS_API_KEY : option string;
  env_ODDS_API_BASE : option string;
  env_MAX_CALLS_PER_HOUR : option Z
}.

Definition ODDS_API_KEY (E : Env) : string :=
  envOr (env_ODDS_API_KEY E)
    "811e5fb0efa75d2b92e800cb55b60b30f62af8c21da06c4b2952eb516bee0a2e".

Definition ODDS_API_BASE (E : Env) : string :=
  envOr (env_ODDS_API_BASE E) "https://api2.odds-api.io/v3".

(** [parseInt(process.env.MAX_CALLS_PER_HOUR) || 5000]. *)
Definition MAX_CALLS_PER_HOUR (E : Env) : Z :=
  match env_MAX_CALLS_PER_HOUR E with
  | Some n => if n =? 0 then 5000 else n
  | None => 5000
  end.

Definition NBA_BOOKMAKERS : list string :=
  ["Kambi"; "Bet365"; "DraftKings"; "Pinnacle"; "BetMGM"; "Caesars";
   "PrizePicks"; "FanDuel"; "BetOnline.ag"; "BetPARX"; "BetRivers"; "Bovada";
   "Fanatics"; "Fliff"; "Superbet"; "Underdog"; "Bally Bet"].

Definition FOOTBALL_BOOKMAKERS : list string :=
  ["Pinnacle"; "Bet365"; "Kambi"; "DraftKings"; "FanDuel"; "BetMGM";
   "Caesars"; "BetOnline.ag"; "BetRivers"; "Bovada"; "Fanatics"; "Superbet";
   "Bally Bet"].

Definition FOOTBALL_LEAGUES : list string :=
  ["england-premier-league"; "england-championship"; "england-fa-cup";
   "spain-laliga"; "spain-laliga-2"; "germany-bundesliga";
   "germany-2-bundesliga"; "italy-serie-a"; "italy-serie-b";
   "france-ligue-1"; "france-ligue-2"; "netherlands-eredivisie";
   "portugal-liga-portugal"; "belgium-pro-league"; "scotland-premiership";
   "denmark-superliga"; "austria-bundesliga"; "greece-super-league";
   "international-clubs-uefa-champions-league";
   "international-clubs-uefa-europa-league";
   "international-clubs-uefa-conference-league";
   "saudi-arabia-saudi-pro-league"; "brazil-brasileiro-serie-a";
   "argentina-liga-profesional"].

(** The odds of one event: [{ bookmakers, cachedAt, home, away, date }],
    and [urls] in football.  [bookmakers] maps a bookmaker's name to what
    the provider sent for it. *)
Record Snapshot : Type := {
  bookmakers : gmap string Value;
  cachedAt : Z;
  home : Value;
  away : Value;
  date : Value;
  urls : option (gmap string Value)
}.

(** The fields of the object.  The objects used as maps ([nbaOdds],
    [footballEvents], ...) are finite maps on their own keys.  The last
    three fields are not in the source: they record how often the clock
    was read, every request sent (its url and the value of
    [apiCallsThisHour] when it left), and every call of
    [fetchNbaOddsForEvent] and [fetchFootballOddsForEvent] (its argument
    and the value of [apiCallsThisHour] when it was made), oldest
    first. *)
Record State : Type := {
  nbaEvents : list Value;
  nbaOdds : gmap string Snapshot;
  footballEvents : gmap string (list Value);
  footballOdds : gmap string Snapshot;
  apiCallsThisHour : Z;
  hourStartTime : Z;
  lastNbaEventsUpdate : option Z;
  lastNbaOddsUpdate : option Z;
  lastFootballEventsUpdate : gmap string Z;
  lastFootballOddsUpdate : option Z;
  isRefreshing : bool;
  lastError : option ErrorInfo;
  ticks : nat;
  requests : list (string * Z);
  oddsFetches : list (Value * Z)
}.

Definition set_nbaEvents (x : list Value) (st : State) : State :=
  {| nbaEvents := x; nbaOdds := nbaOdds st;
     footballEvents := footballEvents st; footballOdds := footballOdds st;
     apiCallsThisHour := apiCallsThisHour st;
     hourStartTime := hourStartTime st;
     lastNbaEventsUpdate := lastNbaEventsUpdate st;
     lastNbaOddsUpdate := lastNbaOddsUpdate st;
     lastFootballEventsUpdate := lastFootballEventsUpdate st;
     lastFootballOddsUpdate := lastFootballOddsUpdate st;
     isRefreshing := isRefreshing st; lastError := lastError st;
     ticks := ticks st; requests := requests st;
     oddsFetches := oddsFetches st |}.

Definition set_nbaOdds (x : gmap string Snapshot) (st : State) : State :=
  {| nbaEvents := nbaEvents st; nbaOdds := x;
     footballEvents := footballEvents st; footballOdds := footballOdds st;
     apiCallsThisHour := apiCallsThisHour st;
     hourStartTime := hourStartTime st;
     lastNbaEventsUpdate := lastNbaEventsUpdate st;
     lastNbaOddsUpdate := lastNbaOddsUpdate st;
     lastFootballEventsUpdate := lastFootballEventsUpdate st;
     lastFootballOddsUpdate := lastFootballOddsUpdate st;
     isRefreshing := isRefreshing st; lastError := lastError st;
     ticks := ticks st; requests := requests st;
     oddsFetches := oddsFetches st |}.

Definition set_footballEvents (x : gmap string (list Value)) (st : State) : State :=
  {| nbaEvents := nbaEvents st; nbaOdds := nbaOdds st; footballEvents := x;
     footballOdds := footballOdds st;
     apiCallsThisHour := apiCallsThisHour st;
     hourStartTime := hourStartTime st;
     lastNbaEventsUpdate := lastNbaEventsUpdate st;
     lastNbaOddsUpdate := lastNbaOddsUpdate st;
     lastFootballEventsUpdate := lastFootballEventsUpdate st;
     lastFootballOddsUpdate := lastFootballOddsUpdate st;
     isRefreshing := isRefreshing st; lastError := lastError st;
     ticks := ticks st; requests := requests st;
     oddsFetches := oddsFetches st |}.

Definition set_footballOdds (x : gmap string Snapshot) (st : State) : State :=
  {| nbaEvents := nbaEvents st; nbaOdds := nbaOdds st;
     footballEvents := footballEvents st; footballOdds := x;
     apiCallsThisHour := apiCallsThisHour st;
     hourStartTime := hourStartTime st;
     lastNbaEventsUpdate := lastNbaEventsUpdate st;
     lastNbaOddsUpdate := lastNbaOddsUpdate st;
     lastFootballEventsUpdate := lastFootballEventsUpdate st;
     lastFootballOddsUpdate := lastFootballOddsUpdate st;
     isRefreshing := isRefreshing st; lastError := lastError st;
     ticks := ticks st; requests := requests st;
     oddsFetches := oddsFetches st |}.

Definition set_apiCallsThisHour (x : Z) (st : State) : State :=
  {| nbaEvents := nbaEvents st; nbaOdds := nbaOdds st;
     footballEvents := footballEvents st; footballOdds := footballOdds st;
     apiCallsThisHour := x; hourStartTime := hourStartTime st;
     lastNbaEventsUpdate := lastNbaEventsUpdate st;
     lastNbaOddsUpdate := lastNbaOddsUpdate st;
     lastFootballEventsUpdate := lastFootballEventsUpdate st;
     lastFootballOddsUpdate := lastFootballOddsUpdate st;
     isRefreshing := isRefreshing st; lastError := lastError st;
     ticks := ticks st; requests := requests st;
     oddsFetches := oddsFetches st |}.

Definition set_hourStartTime (x : Z) (st : State) : State :=
  {| nbaEvents := nbaEvents st; nbaOdds := nbaOdds st;
     footballEvents := footballEvents st; footballOdds := footballOdds st;
     apiCallsThisHour := apiCallsThisHour st; hourStartTime := x;
     lastNbaEventsUpdate := lastNbaEventsUpdate st;
     lastNbaOddsUpdate := lastNbaOddsUpdate st;
     lastFootballEventsUpdate := lastFootballEventsUpdate st;
     lastFootballOddsUpdate := lastFootballOddsUpdate st;
     isRefreshing := isRefreshing st; lastError := lastError st;
     ticks := ticks st; requests := requests st;
     oddsFetches := oddsFetches st |}.

Definition set_lastNbaEventsUpdate (x : option Z) (st : State) : State :=
  {| nbaEvents := nbaEvents st; nbaOdds := nbaOdds st;
     footballEvents := footballEvents st; footballOdds := footballOdds st;
     apiCallsThisHour := apiCallsThisHour st;
     hourStartTime := hourStartTime st; lastNbaEventsUpdate := x;
     lastNbaOddsUpdate := lastNbaOddsUpdate st;
     lastFootballEventsUpdate := lastFootballEventsUpdate st;
     lastFootballOddsUpdate := lastFootballOddsUpdate st;
     isRefreshing := isRefreshing st; lastError := lastError st;
     ticks := ticks st; requests := requests st;
     oddsFetches := oddsFetches st |}.

Definition set_lastNbaOddsUpdate (x : option Z) (st : State) : State :=
  {| nbaEvents := nbaEvents st; nbaOdds := nbaOdds st;
     footballEvents := footballEvents st; footballOdds := footballOdds st;
     apiCallsThisHour := apiCallsThisHour st;
     hourStartTime := hourStartTime st;
     lastNbaEventsUpdate := lastNbaEventsUpdate st; lastNbaOddsUpdate := x;
     lastFootballEventsUpdate := lastFootballEventsUpdate st;
     lastFootballOddsUpdate := lastFootballOddsUpdate st;
     isRefreshing := isRefreshing st; lastError := lastError st;
     ticks := ticks st; requests := requests st;
     oddsFetches := oddsFetches st |}.

Definition set_lastFootballEventsUpdate (x : gmap string Z) (st : State) : State :=
  {| nbaEvents := nbaEvents st; nbaOdds := nbaOdds st;
     footballEvents := footballEvents st; footballOdds := footballOdds st;
     apiCallsThisHour := apiCallsThisHour st;
     hourStartTime := hourStartTime st;
     lastNbaEventsUpdate := lastNbaEventsUpdate st;
     lastNbaOddsUpdate := lastNbaOddsUpdate st;
     lastFootballEventsUpdate := x;
     lastFootballOddsUpdate := lastFootballOddsUpdate st;
     isRefreshing := isRefreshing st; lastError := lastError st;
     ticks := ticks st; requests := requests st;
     oddsFetches := oddsFetches st |}.

Definition set_lastFootballOddsUpdate (x : option Z) (st : State) : State :=
  {| nbaEvents := nbaEvents st; nbaOdds := nbaOdds st;
     footballEvents := footballEvents st; footballOdds := footballOdds st;
     apiCallsThisHour := apiCallsThisHour st;
     hourStartTime := hourStartTime st;
     lastNbaEventsUpdate := lastNbaEventsUpdate st;
     lastNbaOddsUpdate := lastNbaOddsUpdate st;
     lastFootballEventsUpdate := lastFootballEventsUpdate st;
     lastFootballOddsUpdate := x; isRefreshing := isRefreshing st;
     lastError := lastError st; ticks := ticks st; requests := requests st;
     oddsFetches := oddsFetches st |}.

Definition set_isRefreshing (x : bool) (st : State) : State :=
  {| nbaEvents := nbaEvents st; nbaOdds := nbaOdds st;
     footballEvents := footballEvents st; footballOdds := footballOdds st;
     apiCallsThisHour := apiCallsThisHour st;
     hourStartTime := hourStartTime st;
     lastNbaEventsUpdate := lastNbaEventsUpdate st;
     lastNbaOddsUpdate := lastNbaOddsUpdate st;
     lastFootballEventsUpdate := lastFootballEventsUpdate st;
     lastFootballOddsUpdate := lastFootballOddsUpdate st; isRefreshing := x;
     lastError := lastError st; ticks := ticks st; requests := requests st;
     oddsFetches := oddsFetches st |}.

Definition set_lastError (x : option ErrorInfo) (st : State) : State :=
  {| nbaEvents := nbaEvents st; nbaOdds := nbaOdds st;
     footballEvents := footballEvents st; footballOdds := footballOdds st;
     apiCallsThisHour := apiCallsThisHour st;
     hourStartTime := hourStartTime st;
     lastNbaEventsUpdate := lastNbaEventsUpdate st;
     lastNbaOddsUpdate := lastNbaOddsUpdate st;
     lastFootballEventsUpdate := lastFootballEventsUpdate st;
     lastFootballOddsUpdate := lastFootballOddsUpdate st;
     isRefreshing := isRefreshing st; lastError := x; ticks := ticks st;
     requests := requests st; oddsFetches := oddsFetches st |}.

Definition set_ticks (x : nat) (st : State) : State :=
  {| nbaEvents := nbaEvents st; nbaOdds := nbaOdds st;
     footballEvents := footballEvents st; footballOdds := footballOdds st;
     apiCallsThisHour := apiCallsThisHour st;
     hourStartTime := hourStartTime st;
     lastNbaEventsUpdate := lastNbaEventsUpdate st;
     lastNbaOddsUpdate := lastNbaOddsUpdate st;
     lastFootballEventsUpdate := lastFootballEventsUpdate st;
     lastFootballOddsUpdate := lastFootballOddsUpdate st;
     isRefreshing := isRefreshing st; lastError := lastError st; ticks := x;
     requests := requests st; oddsFetches := oddsFetches st |}.

Definition set_requests (x : list (string * Z)) (st : State) : State :=
  {| nbaEvents := nbaEvents st; nbaOdds := nbaOdds st;
     footballEvents := footballEvents st; footballOdds := footballOdds st;
     apiCallsThisHour := apiCallsThisHour st;
     hourStartTime := hourStartTime st;
     lastNbaEventsUpdate := lastNbaEventsUpdate st;
     lastNbaOddsUpdate := lastNbaOddsUpdate st;
     lastFootballEventsUpdate := lastFootballEventsUpdate st;
     lastFootballOddsUpdate := lastFootballOddsUpdate st;
     isRefreshing := isRefreshing st; lastError := lastError st;
     ticks := ticks st; requests := x; oddsFetches := oddsFetches st |}.

Definition set_oddsFetches (x : list (Value * Z)) (st : State) : State :=
  {| nbaEvents := nbaEvents st; nbaOdds := nbaOdds st;
     footballEvents := footballEvents st; footballOdds := footballOdds st;
     apiCallsThisHour := apiCallsThisHour st;
     hourStartTime := hourStartTime st;
     lastNbaEventsUpdate := lastNbaEventsUpdate st;
     lastNbaOddsUpdate := lastNbaOddsUpdate st;
     lastFootballEventsUpdate := lastFootballEventsUpdate st;
     lastFootballOddsUpdate := lastFootballOddsUpdate st;
     isRefreshing := isRefreshing st; lastError := lastError st;
     ticks := ticks st; requests := requests st; oddsFetches := x |}.

Section Methods.
Context (W : World) (E : Env).

(** [constructor()]: the clock is read once, for [hourStartTime]. *)
Definition constructor : State :=
  {| nbaEvents := []; nbaOdds := ∅; footballEvents := ∅; footballOdds := ∅;
     apiCallsThisHour := 0; hourStartTime := clock W 0%nat;
     lastNbaEventsUpdate := None; lastNbaOddsUpdate := None;
     lastFootballEventsUpdate := ∅; lastFootballOddsUpdate := None;
     isRefreshing := false; lastError := None;
     ticks := 1; requests := []; oddsFetches := [] |}.

(** [Date.now()], and the time of [new Date()]. *)
Definition Date_now : M State Z :=
  fun st => (Normal (clock W (ticks st)), set_ticks (S (ticks st)) st).

(** [await fetch(url)] with [response.ok] and [await response.json()]
    folded into the outcome. *)
Definition fetch (url : string) : M State Response :=
  fun st =>
    (Normal (upstream W (length (requests st)) url),
     set_requests (requests st ++ [(url, apiCallsThisHour st)]) st).

Definition checkRateLimit : M State bool :=
  now ← Date_now;
  st ← get;
  (if hourMs <=? now - hourStartTime st
   then modify (fun st => set_hourStartTime now (set_apiCallsThisHour 0 st))
   else mret tt);;
  st ← get;
  mret (apiCallsThisHour st <? MAX_CALLS_PER_HOUR E).

Definition getRemainingCalls : M State Z :=
  checkRateLimit;;
  st ← get;
  mret (MAX_CALLS_PER_HOUR E - apiCallsThisHour st).

(** [fetchWithRateLimit(url, description)]; the description only goes
    to the console.  The result is the parsed body, or [null]. *)
Definition fetchWithRateLimit (url : string) : M State Value :=
  ok ← checkRateLimit;
  if negb ok then mret VNull
  else
    tryCatch
      (modify (fun st => set_apiCallsThisHour (apiCallsThisHour st + 1) st);;
       response ← fetch url;
       match response with
       | Rejected reason => throw (Error reason)
       | NotOk status statusText =>
           throw (Error ("HTTP " +:+ pretty status +:+ ": " +:+ statusText))
       | BadJson reason => throw (Error reason)
       | Json data => mret data
       end)
      (fun error =>
         now ← Date_now;
         modify (set_lastError
                   (Some {| time := now; errMessage := message error;
                            url := Some url |}));;
         mret VNull).

Definition eventsUrl (sport league : string) (now : Z) : string :=
  ODDS_API_BASE E +:+ "/events?apiKey=" +:+ ODDS_API_KEY E
    +:+ "&sport=" +:+ sport +:+ "&league=" +:+ league
    +:+ "&status=pending&to="
    +:+ Date_toISOString (runtime W) (now + 7 * dayMs).

(** The url of an odds request holds the event id as the template
    string prints it; the id is taken to be [printable]. *)
Definition oddsUrl (eventId : Value) (bookmaker : string) : string :=
  ODDS_API_BASE E +:+ "/odds?apiKey=" +:+ ODDS_API_KEY E
    +:+ "&eventId=" +:+ toString eventId +:+ "&bookmakers=" +:+ bookmaker.

Definition fetchNbaEvents : M State (list Value) :=
  now ← Date_now;
  data ← fetchWithRateLimit (eventsUrl "basketball" "usa-nba" now);
  (if truthy data && isArray data
   then modify (set_nbaEvents (items data));;
        stamp ← Date_now;
        modify (set_lastNbaEventsUpdate (Some stamp))
   else mret tt);;
  st ← get;
  mret (nbaEvents st).

(** What [fetchNbaEvents] called in [st] asks for, the state in which it
    meets the gate, and the provider's answer to the request it sends
    when the gate lets it. *)
Definition nbaEventsUrl (st : State) : string :=
  eventsUrl "basketball" "usa-nba" (clock W (ticks st)).

Definition afterClock (st : State) : State := set_ticks (S (ticks st)) st.

Definition nbaEventsAnswer (st : State) : Response :=
  upstream W (length (requests st)) (nbaEventsUrl st).

Definition emptySnapshot (stamp : Z) : Snapshot :=
  {| bookmakers := ∅; cachedAt := stamp; home := VUndefined;
     away := VUndefined; date := VUndefined; urls := None |}.

(** [if (data && data.bookmakers && data.bookmakers[bookmaker]) {...}]
    on the snapshot being built. *)
Definition mergeNbaOdds (data : Value) (bookmaker : string)
    (eventOdds : Snapshot) : Completion Snapshot :=
  if truthy data then
    books ← getProp data "bookmakers";
    if truthy books then
      entry ← getProp books bookmaker;
      if truthy entry then
        dhome ← getProp data "home";
        daway ← getProp data "away";
        ddate ← getProp data "date";
        mret {| bookmakers := <[bookmaker := entry]> (bookmakers eventOdds);
                cachedAt := cachedAt eventOdds;
                home := dhome; away := daway; date := ddate;
                urls := urls eventOdds |}
      else mret eventOdds
    else mret eventOdds
  else mret eventOdds.

(** One round of the loop over [NBA_BOOKMAKERS].  ([bookmaker] is one
    of the names of the list, none of which objects inherit, so that
    [data.bookmakers[bookmaker]] is an own property or [undefined].) *)
Definition nbaOddsStep (eventId : Value) (bookmaker : string)
    (eventOdds : Snapshot) : M State (Snapshot * bool) :=
  ok ← checkRateLimit;
  if negb ok then mret (eventOdds, false)
  else
    data ← fetchWithRateLimit (oddsUrl eventId bookmaker);
    eventOdds' ← liftC (mergeNbaOdds data bookmaker eventOdds);
    sleep 50;;
    mret (eventOdds', true).

(** [this.nbaOdds[eventId] = eventOdds] is the [insert] under the key
    the id converts to: the assignment for an id that [ownKey] admits. *)
Definition fetchNbaOddsForEvent (eventId : Value) : M State Snapshot :=
  modify (fun st => set_oddsFetches
                    (oddsFetches st ++ [(eventId, apiCallsThisHour st)]) st);;
  stamp ← Date_now;
  eventOdds ← forOf NBA_BOOKMAKERS (emptySnapshot stamp) (nbaOddsStep eventId);
  modify (fun st => set_nbaOdds (<[toString eventId := eventOdds]> (nbaOdds st)) st);;
  mret eventOdds.

(** The comparator of [refreshNbaOdds] reads [a.date] and [b.date]: on
    an array of two or more it is called on every element and throws at
    one that is [null].  (The events are an array from [JSON.parse],
    which holds no [undefined].) *)
Definition eventDate (e : Value) : option Z :=
  dateValue (runtime W) (prop e "date").

Definition sortEvents (l : list Value) : Completion (list Value) :=
  match List.find nullish l with
  | Some v =>
      if (2 <=? length l)%nat then _ ← getProp v "date"; mret l else mret l
  | None => mret (sortBy (fun a b => compareDates (eventDate a) (eventDate b)) l)
  end.

(** [sortedEvents.filter(e => new Date(e.date) <= threeDaysFromNow)]. *)
Fixpoint filterUpcoming (limit : Z) (l : list Value) : Completion (list Value) :=
  match l with
  | [] => mret []
  | e :: rest =>
      d ← getProp e "date";
      kept ← filterUpcoming limit rest;
      mret (if dateAtMost (dateValue (runtime W) d) limit then e :: kept else kept)
  end.

(** One round of the loop of [refreshNbaOdds] over the upcoming events. *)
Definition nbaRefreshRound (event : Value) (_ : unit) : M State (unit * bool) :=
  ok ← checkRateLimit;
  if negb ok then mret (tt, false)
  else
    id ← liftC (getProp event "id");
    fetchNbaOddsForEvent id;;
    sleep 100;;
    mret (tt, true).

Definition refreshNbaOdds : M State unit :=
  st ← get;
  (if (length (nbaEvents st) =? 0)%nat then fetchNbaEvents;; mret tt else mret tt);;
  st ← get;
  sortedEvents ← liftC (sortEvents (nbaEvents st));
  now ← Date_now;
  upcomingEvents ← liftC (filterUpcoming (now + 3 * dayMs) sortedEvents);
  forOf upcomingEvents tt nbaRefreshRound;;
  stamp ← Date_now;
  modify (set_lastNbaOddsUpdate (Some stamp)).

(** The state in which [refreshNbaOdds] sorts the events: it first
    fetches them when none is stored. *)
Definition nbaOddsEntry (st : State) : State :=
  if (length (nbaEvents st) =? 0)%nat then snd (fetchNbaEvents st) else st.

(** An event of the provider as the refresh can handle it: it is not
    [null], its date is a value [new Date] converts, and its id names an
    own property of the odds map. *)
Definition plainEvent (e : Value) : bool :=
  negb (nullish e) && printable (prop e "date") && ownKey (prop e "id").

(** What sorting and filtering leave of events none of which is [null],
    at a reading [now] of the clock: those dated within three days, by
    date. *)
Definition upcomingNba (now : Z) (events : list Value) : list Value :=
  List.filter (fun e => dateAtMost (eventDate e) (now + 3 * dayMs))
    (sortBy (fun a b => compareDates (eventDate a) (eventDate b)) events).

Definition fetchFootballEvents (leagueSlug : string) : M State (list Value) :=
  now ← Date_now;
  data ← fetchWithRateLimit (eventsUrl "football" leagueSlug now);
  (if truthy data && isArray data
   then modify (fun st => set_footballEvents
                            (<[leagueSlug := items data]> (footballEvents st)) st);;
        stamp ← Date_now;
        modify (fun st => set_lastFootballEventsUpdate
                            (<[leagueSlug := stamp]> (lastFootballEventsUpdate st)) st)
   else mret tt);;
  st ← get;
  mret (default [] (footballEvents st !! leagueSlug)).

(** The same for [fetchFootballEvents], gate and clock being met alike. *)
Definition footballEventsUrl (leagueSlug : string) (st : State) : string :=
  eventsUrl "football" leagueSlug (clock W (ticks st)).

Definition footballEventsAnswer (leagueSlug : string) (st : State) : Response :=
  upstream W (length (requests st)) (footballEventsUrl leagueSlug st).

(** The same test and merge for a football event; there the [urls] of
    the body are spread over those already in the snapshot. *)
Definition mergeFootballOdds (data : Value) (bookmaker : string)
    (eventOdds : Snapshot) : Completion Snapshot :=
  if truthy data then
    books ← getProp data "bookmakers";
    if truthy books then
      entry ← getProp books bookmaker;
      if truthy entry then
        durls ← getProp data "urls";
        dhome ← getProp data "home";
        daway ← getProp data "away";
        ddate ← getProp data "date";
        mret {| bookmakers := <[bookmaker := entry]> (bookmakers eventOdds);
                cachedAt := cachedAt eventOdds;
                home := dhome; away := daway; date := ddate;
                urls := Some (spread durls ∪ default ∅ (urls eventOdds)) |}
      else mret eventOdds
    else mret eventOdds
  else mret eventOdds.

(** One round of the loop over the bookmakers of a football event, which
    are names that no object inherits (those of [FOOTBALL_BOOKMAKERS],
    in this repository). *)
Definition footballOddsStep (eventId : Value) (bookmaker : string)
    (eventOdds : Snapshot) : M State (Snapshot * bool) :=
  ok ← checkRateLimit;
  if negb ok then mret (eventOdds, false)
  else
    data ← fetchWithRateLimit (oddsUrl eventId bookmaker);
    eventOdds' ← liftC (mergeFootballOdds data bookmaker eventOdds);
    sleep 50;;
    mret (eventOdds', true).

Definition fetchFootballOddsForEvent (eventId : Value)
    (bookmakers : list string) : M State Snapshot :=
  modify (fun st => set_oddsFetches
                    (oddsFetches st ++ [(eventId, apiCallsThisHour st)]) st);;
  stamp ← Date_now;
  eventOdds ← forOf bookmakers (emptySnapshot stamp) (footballOddsStep eventId);
  modify (fun st => set_footballOdds
                      (<[toString eventId := eventOdds]> (footballOdds st)) st);;
  mret eventOdds.

(** [{ ...e, league }]. *)
Definition withLeague (league : string) (e : Value) : gmap string Value :=
  <["league" := VStr league]> (spread e).

Definition field (o : gmap string Value) (k : string) : Value :=
  default VUndefined (o !! k).

Definition collectEvents (st : State) : list (gmap string Value) :=
  flat_map (fun league =>
              List.map (withLeague league) (default [] (footballEvents st !! league)))
           FOOTBALL_LEAGUES.

Definition fieldDate (o : gmap string Value) : option Z :=
  dateValue (runtime W) (field o "date").

(** The same for an event with its league, [{ ...e, league }]. *)
Definition plainFields (o : gmap string Value) : bool :=
  printable (field o "date") && ownKey (field o "id").

(** One round of the first loop of [refreshFootballOdds], over the
    leagues, and one of its second loop, over the upcoming events. *)
Definition leagueRound (league : string) (_ : unit) : M State (unit * bool) :=
  ok ← checkRateLimit;
  if negb ok then mret (tt, false)
  else
    fetchFootballEvents league;;
    sleep 100;;
    mret (tt, true).

Definition footballRefreshRound (event : gmap string Value) (_ : unit)
    : M State (unit * bool) :=
  ok ← checkRateLimit;
  if negb ok then mret (tt, false)
  else
    fetchFootballOddsForEvent (field event "id") FOOTBALL_BOOKMAKERS;;
    sleep 100;;
    mret (tt, true).

(** The events of all leagues, sorted by date, those dated within three
    days of [now]. *)
Definition upcomingFootball (now : Z) (st : State) : list (gmap string Value) :=
  List.filter (fun e => dateAtMost (fieldDate e) (now + 3 * dayMs))
    (sortBy (fun a b => compareDates (fieldDate a) (fieldDate b)) (collectEvents st)).

Definition refreshFootballOdds : M State unit :=
  forOf FOOTBALL_LEAGUES tt leagueRound;;
  st ← get;
  let allEvents := collectEvents st in
  let sortedEvents :=
    sortBy (fun a b => compareDates (fieldDate a) (fieldDate b)) allEvents in
  now ← Date_now;
  let upcomingEvents :=
    List.filter (fun e => dateAtMost (fieldDate e) (now + 3 * dayMs)) sortedEvents in
  forOf upcomingEvents tt footballRefreshRound;;
  stamp ← Date_now;
  modify (set_lastFootballOddsUpdate (Some stamp)).

(** The state in which [refreshFootballOdds] collects the events: after
    its loop over the leagues. *)
Definition footballOddsEntry (st : State) : State :=
  snd (forOf FOOTBALL_LEAGUES tt leagueRound st).

(** The body of the [try] in [refreshAll]. *)
Definition refreshCycle : M State unit :=
  fetchNbaEvents;;
  refreshNbaOdds;;
  refreshFootballOdds.

Definition refreshAll : M State unit :=
  st ← get;
  if isRefreshing st then mret tt
  else
    modify (set_isRefreshing true);;
    getRemainingCalls;;
    tryFinally
      (tryCatch refreshCycle
         (fun error =>
            now ← Date_now;
            modify (set_lastError
                      (Some {| time := now; errMessage := message error;
                               url := None |}))))
      (modify (set_isRefreshing false)).

(** The calls a client of the object can make, for statements about
    arbitrary sequences of them; [perform] keeps the state a call
    leaves and drops its result. *)
Inductive Call : Type :=
| CallCheckRateLimit
| CallGetRemainingCalls
| CallFetchWithRateLimit (url : string)
| CallFetchNbaEvents
| CallFetchNbaOddsForEvent (eventId : Value)
| CallRefreshNbaOdds
| CallFetchFootballEvents (leagueSlug : string)
| CallFetchFootballOddsForEvent (eventId : Value) (bookmakers : list string)
| CallRefreshFootballOdds
| CallRefreshAll.

Definition perform (c : Call) (st : State) : State :=
  match c with
  | CallCheckRateLimit => snd (checkRateLimit st)
  | CallGetRemainingCalls => snd (getRemainingCalls st)
  | CallFetchWithRateLimit url => snd (fetchWithRateLimit url st)
  | CallFetchNbaEvents => snd (fetchNbaEvents st)
  | CallFetchNbaOddsForEvent eventId => snd (fetchNbaOddsForEvent eventId st)
  | CallRefreshNbaOdds => snd (refreshNbaOdds st)
  | CallFetchFootballEvents leagueSlug => snd (fetchFootballEvents leagueSlug st)
  | CallFetchFootballOddsForEvent eventId bookmakers =>
      snd (fetchFootballOddsForEvent eventId bookmakers st)
  | CallRefreshFootballOdds => snd (refreshFootballOdds st)
  | CallRefreshAll => snd (refreshAll st)
  end.

(** The states after each call of a sequence. *)
Fixpoint statesAlong (calls : list Call) (st : State) : list State :=
  match calls with
  | [] => []
  | c :: rest => perform c st :: statesAlong rest (perform c st)
  end.

(** The calls that fetch odds, themselves or through the refreshes. *)
Definition fetchesOdds (c : Call) : bool :=
  match c with
  | CallFetchNbaOddsForEvent _ | CallRefreshNbaOdds
  | CallFetchFootballOddsForEvent _ _ | CallRefreshFootballOdds
  | CallRefreshAll => true
  | _ => false
  end.

(** What the gate answers in a state, and the state it leaves. *)
Definition gateOpen (st : State) : bool :=
  match checkRateLimit st with
  | (Normal ok, _) => ok
  | (Thrown _, _) => false
  end.

Definition afterGate (st : State) : State := snd (checkRateLimit st).

(** The budget is respected: the counter is within the limit, and so it
    was whenever a request left. *)
Definition withinBudget (st : State) : Prop :=
  apiCallsThisHour st <= MAX_CALLS_PER_HOUR E /\
  Forall (fun r => snd r <= MAX_CALLS_PER_HOUR E) (requests st).

(** *** The getters *)

(** [{ events, lastUpdate, count }]. *)
Record NbaEventsView : Type := {
  events : list Value;
  lastUpdate : option Z;
  count : nat
}.

(** What [getNbaOdds(eventId)] and [getFootballOdds(eventId)] return:
    the entry of the event, a member inherited under its name, [null],
    or, for an id that is falsy, the whole map. *)
Inductive OddsAnswer : Type :=
| OneOdds (eventOdds : Snapshot)
| InheritedOdds (name : string)
| NoOdds
| EveryOdds (odds : gmap string Snapshot).

(** [{ odds, lastUpdate, eventCount }]. *)
Record OddsView : Type := {
  odds : gmap string Snapshot;
  oddsLastUpdate : option Z;
  eventCount : nat
}.

(** What [getFootballEvents(leagueSlug)] returns: for a league,
    [{ events, lastUpdate, count }], the first two as found under its
    name ([events] an empty array when nothing is, and [count] the
    length of [events]); otherwise [{ events, lastUpdate, leagues }] with
    both maps whole and the keys of the first (as a set: their order,
    that of insertion, is not kept by the maps of this development). *)
Inductive FootballEventsAnswer : Type :=
| LeagueEvents (leagueEvents : Member (list Value)) (leagueLastUpdate : Member Z)
| EveryLeague (allEvents : gmap string (list Value))
    (allLastUpdate : gmap string Z) (leagues : gset string).

(** The two inner objects of [getStatus()], and the status. *)
Record NbaStatus : Type := {
  nbaEventsCount : nat;
  nbaOddsCount : nat;
  nbaLastEventsUpdate : option Z;
  nbaLastOddsUpdate : option Z
}.

Record FootballStatus : Type := {
  footballLeagues : gset string;
  footballEventsCount : nat;
  footballOddsCount : nat;
  footballLastOddsUpdate : option Z
}.

Record Status : Type := {
  statusApiCallsThisHour : Z;
  maxCallsPerHour : Z;
  remainingCalls : Z;
  statusIsRefreshing : bool;
  statusLastError : option ErrorInfo;
  nba : NbaStatus;
  football : FootballStatus
}.

Definition getNbaEvents : M State NbaEventsView :=
  st ← get;
  mret {| events := nbaEvents st; lastUpdate := lastNbaEventsUpdate st;
          count := length (nbaEvents st) |}.

Definition oddsAnswer (o : gmap string Snapshot) (eventId : Value) : OddsAnswer :=
  if truthy eventId then
    match member o (toString eventId) with
    | Own eventOdds => OneOdds eventOdds
    | Inherited name => InheritedOdds name
    | Absent => NoOdds
    end
  else EveryOdds o.

Definition getNbaOdds (eventId : Value) : M State OddsAnswer :=
  st ← get;
  mret (oddsAnswer (nbaOdds st) eventId).

Definition getAllNbaOdds : M State OddsView :=
  st ← get;
  mret {| odds := nbaOdds st; oddsLastUpdate := lastNbaOddsUpdate st;
          eventCount := size (nbaOdds st) |}.

Definition getFootballEvents (leagueSlug : Value) : M State FootballEventsAnswer :=
  st ← get;
  if truthy leagueSlug then
    mret (LeagueEvents (member (footballEvents st) (toString leagueSlug))
            (member (lastFootballEventsUpdate st) (toString leagueSlug)))
  else
    mret (EveryLeague (footballEvents st) (lastFootballEventsUpdate st)
            (dom (footballEvents st))).

Definition getFootballOdds (eventId : Value) : M State OddsAnswer :=
  st ← get;
  mret (oddsAnswer (footballOdds st) eventId).

Definition getAllFootballOdds : M State OddsView :=
  st ← get;
  mret {| odds := footballOdds st; oddsLastUpdate := lastFootballOddsUpdate st;
          eventCount := size (footballOdds st) |}.

(** [Object.values(this.footballEvents).flat().length]: the stored lists
    are arrays, [flat()] sets them end to end. *)
Definition countEvents (o : gmap string (list Value)) : nat :=
  map_fold (fun _ l n => (length l + n)%nat) 0%nat o.

(** [getStatus()].  The properties of the literal are evaluated in the
    order written: [apiCallsThisHour] is read before [getRemainingCalls]
    runs the check of the window, everything else after it. *)
Definition getStatus : M State Status :=
  before ← get;
  remaining ← getRemainingCalls;
  st ← get;
  mret {| statusApiCallsThisHour := apiCallsThisHour before;
          maxCallsPerHour := MAX_CALLS_PER_HOUR E;
          remainingCalls := remaining;
          statusIsRefreshing := isRefreshing st;
          statusLastError := lastError st;
          nba := {| nbaEventsCount := length (nbaEvents st);
                    nbaOddsCount := size (nbaOdds st);
                    nbaLastEventsUpdate := lastNbaEventsUpdate st;
                    nbaLastOddsUpdate := lastNbaOddsUpdate st |};
          football := {| footballLeagues := dom (footballEvents st);
                         footballEventsCount := countEvents (footballEvents st);
                         footballOddsCount := size (footballOdds st);
                         footballLastOddsUpdate := lastFootballOddsUpdate st |} |}.

(** The two calls that store odds themselves. *)
Definition isOddsFetch (c : Call) : bool :=
  match c with
  | CallFetchNbaOddsForEvent _ | CallFetchFootballOddsForEvent _ _ => true
  | _ => false
  end.

(** The counter is neither negative nor above the limit. *)
Definition inRange (st : State) : Prop :=
  0 <= apiCallsThisHour st <= MAX_CALLS_PER_HOUR E.

(** Where the object stands with respect to a state [st] whose budget
    is used up, as long as the hour of [st] goes on: clock apart, the
    rate window, the requests sent and the events are those of [st]. *)
Definition frozen (st s : State) : Prop :=
  apiCallsThisHour s = apiCallsThisHour st
  /\ hourStartTime s = hourStartTime st
  /\ (ticks st <= ticks s)%nat
  /\ requests s = requests st
  /\ nbaEvents s = nbaEvents st
  /\ footballEvents s = footballEvents st
  /\ lastNbaEventsUpdate s = lastNbaEventsUpdate st
  /\ lastFootballEventsUpdate s = lastFootballEventsUpdate st.

End Methods.

End Bounded.

(** ** The edition for the quota-free provider *)

Module Optic.

Record Env : Type := {
  env_OPTIC_ODDS_API_KEY : option string
}.

(** [process.env.OPTIC_ODDS_API_KEY || '']. *)
Definition OPTIC_API_KEY (E : Env) : string :=
  envOr (env_OPTIC_ODDS_API_KEY E) "".

Definition OPTIC_API_BASE : string := "https://api.opticodds.com/api/v3".

Definition NBA_BOOKMAKERS : list string :=
  ["draftkings"; "fanduel"; "betmgm"; "caesars"; "pointsbet"; "bet365";
   "pinnacle"; "bovada"; "betonline"; "betrivers"; "unibet"; "wynnbet";
   "superbook"; "barstool"; "hard_rock"].

Definition FOOTBALL_BOOKMAKERS : list string :=
  ["pinnacle"; "bet365"; "draftkings"; "fanduel"; "betmgm"; "caesars";
   "betonline"; "betrivers"; "bovada"; "unibet"; "pointsbet"].

Definition FOOTBALL_LEAGUES : list string :=
  ["epl"; "efl_championship"; "fa_cup"; "la_liga"; "la_liga_2"; "bundesliga";
   "2_bundesliga"; "serie_a"; "serie_b"; "ligue_1"; "ligue_2"; "eredivisie";
   "primeira_liga"; "jupiler_pro_league"; "scottish_premiership";
   "superliga"; "austrian_bundesliga"; "super_league_greece";
   "champions_league"; "europa_league"; "europa_conference_league";
   "saudi_pro_league"; "brasileirao"; "liga_profesional"].

(** [{ id, home, away, date, league, status }], as the cache rebuilds
    every fixture it is sent. *)
Record Event : Type := {
  id : Value;
  ehome : Value;
  eaway : Value;
  edate : Value;
  league : Value;
  status : Value
}.

(** [{ name, price, points, is_main }]. *)
Record Outcome : Type := {
  name : Value;
  price : Value;
  points : Value;
  is_main : Value
}.

(** [{ markets: { marketName: [outcome...] } }]. *)
Record Book : Type := {
  markets : gmap string (list Outcome)
}.

Record Snapshot : Type := {
  bookmakers : gmap string Book;
  cachedAt : Z;
  home : Value;
  away : Value;
  date : Value
}.

(** The fields of the object; the last three are the same records of
    clock readings, requests and odds fetches as in the other edition,
    the requests with the value of [apiCallCount] when they left. *)
Record State : Type := {
  nbaEvents : list Event;
  nbaOdds : gmap string Snapshot;
  footballEvents : gmap string (list Event);
  footballOdds : gmap string Snapshot;
  apiCallCount : Z;
  lastNbaEventsUpdate : option Z;
  lastNbaOddsUpdate : option Z;
  lastFootballEventsUpdate : gmap string Z;
  lastFootballOddsUpdate : option Z;
  isRefreshing : bool;
  lastError : option ErrorInfo;
  ticks : nat;
  requests : list (string * Z);
  oddsFetches : list (Value * Z)
}.

Definition set_nbaEvents (x : list Event) (st : State) : State :=
  {| nbaEvents := x; nbaOdds := nbaOdds st;
     footballEvents := footballEvents st; footballOdds := footballOdds st;
     apiCallCount := apiCallCount st;
     lastNbaEventsUpdate := lastNbaEventsUpdate st;
     lastNbaOddsUpdate := lastNbaOddsUpdate st;
     lastFootballEventsUpdate := lastFootballEventsUpdate st;
     lastFootballOddsUpdate := lastFootballOddsUpdate st;
     isRefreshing := isRefreshing st; lastError := lastError st;
     ticks := ticks st; requests := requests st;
     oddsFetches := oddsFetches st |}.

Definition set_nbaOdds (x : gmap string Snapshot) (st : State) : State :=
  {| nbaEvents := nbaEvents st; nbaOdds := x;
     footballEvents := footballEvents st; footballOdds := footballOdds st;
     apiCallCount := apiCallCount st;
     lastNbaEventsUpdate := lastNbaEventsUpdate st;
     lastNbaOddsUpdate := lastNbaOddsUpdate st;
     lastFootballEventsUpdate := lastFootballEventsUpdate st;
     lastFootballOddsUpdate := lastFootballOddsUpdate st;
     isRefreshing := isRefreshing st; lastError := lastError st;
     ticks := ticks st; requests := requests st;
     oddsFetches := oddsFetches st |}.

Definition set_footballEvents (x : gmap string (list Event)) (st : State) : State :=
  {| nbaEvents := nbaEvents st; nbaOdds := nbaOdds st; footballEvents := x;
     footballOdds := footballOdds st; apiCallCount := apiCallCount st;
     lastNbaEventsUpdate := lastNbaEventsUpdate st;
     lastNbaOddsUpdate := lastNbaOddsUpdate st;
     lastFootballEventsUpdate := lastFootballEventsUpdate st;
     lastFootballOddsUpdate := lastFootballOddsUpdate st;
     isRefreshing := isRefreshing st; lastError := lastError st;
     ticks := ticks st; requests := requests st;
     oddsFetches := oddsFetches st |}.

Definition set_footballOdds (x : gmap string Snapshot) (st : State) : State :=
  {| nbaEvents := nbaEvents st; nbaOdds := nbaOdds st;
     footballEvents := footballEvents st; footballOdds := x;
     apiCallCount := apiCallCount st;
     lastNbaEventsUpdate := lastNbaEventsUpdate st;
     lastNbaOddsUpdate := lastNbaOddsUpdate st;
     lastFootballEventsUpdate := lastFootballEventsUpdate st;
     lastFootballOddsUpdate := lastFootballOddsUpdate st;
     isRefreshing := isRefreshing st; lastError := lastError st;
     ticks := ticks st; requests := requests st;
     oddsFetches := oddsFetches st |}.

Definition set_apiCallCount (x : Z) (st : State) : State :=
  {| nbaEvents := nbaEvents st; nbaOdds := nbaOdds st;
     footballEvents := footballEvents st; footballOdds := footballOdds st;
     apiCallCount := x; lastNbaEventsUpdate := lastNbaEventsUpdate st;
     lastNbaOddsUpdate := lastNbaOddsUpdate st;
     lastFootballEventsUpdate := lastFootballEventsUpdate st;
     lastFootballOddsUpdate := lastFootballOddsUpdate st;
     isRefreshing := isRefreshing st; lastError := lastError st;
     ticks := ticks st; requests := requests st;
     oddsFetches := oddsFetches st |}.

Definition set_lastNbaEventsUpdate (x : option Z) (st : State) : State :=
  {| nbaEvents := nbaEvents st; nbaOdds := nbaOdds st;
     footballEvents := footballEvents st; footballOdds := footballOdds st;
     apiCallCount := apiCallCount st; lastNbaEventsUpdate := x;
     lastNbaOddsUpdate := lastNbaOddsUpdate st;
     lastFootballEventsUpdate := lastFootballEventsUpdate st;
     lastFootballOddsUpdate := lastFootballOddsUpdate st;
     isRefreshing := isRefreshing st; lastError := lastError st;
     ticks := ticks st; requests := requests st;
     oddsFetches := oddsFetches st |}.

Definition set_lastNbaOddsUpdate (x : option Z) (st : State) : State :=
  {| nbaEvents := nbaEvents st; nbaOdds := nbaOdds st;
     footballEvents := footballEvents st; footballOdds := footballOdds st;
     apiCallCount := apiCallCount st;
     lastNbaEventsUpdate := lastNbaEventsUpdate st; lastNbaOddsUpdate := x;
     lastFootballEventsUpdate := lastFootballEventsUpdate st;
     lastFootballOddsUpdate := lastFootballOddsUpdate st;
     isRefreshing := isRefreshing st; lastError := lastError st;
     ticks := ticks st; requests := requests st;
     oddsFetches := oddsFetches st |}.

Definition set_lastFootballEventsUpdate (x : gmap string Z) (st : State) : State :=
  {| nbaEvents := nbaEvents st; nbaOdds := nbaOdds st;
     footballEvents := footballEvents st; footballOdds := footballOdds st;
     apiCallCount := apiCallCount st;
     lastNbaEventsUpdate := lastNbaEventsUpdate st;
     lastNbaOddsUpdate := lastNbaOddsUpdate st;
     lastFootballEventsUpdate := x;
     lastFootballOddsUpdate := lastFootballOddsUpdate st;
     isRefreshing := isRefreshing st; lastError := lastError st;
     ticks := ticks st; requests := requests st;
     oddsFetches := oddsFetches st |}.

Definition set_lastFootballOddsUpdate (x : option Z) (st : State) : State :=
  {| nbaEvents := nbaEvents st; nbaOdds := nbaOdds st;
     footballEvents := footballEvents st; footballOdds := footballOdds st;
     apiCallCount := apiCallCount st;
     lastNbaEventsUpdate := lastNbaEventsUpdate st;
     lastNbaOddsUpdate := lastNbaOddsUpdate st;
     lastFootballEventsUpdate := lastFootballEventsUpdate st;
     lastFootballOddsUpdate := x; isRefreshing := isRefreshing st;
     lastError := lastError st; ticks := ticks st; requests := requests st;
     oddsFetches := oddsFetches st |}.

Definition set_isRefreshing (x : bool) (st : State) : State :=
  {| nbaEvents := nbaEvents st; nbaOdds := nbaOdds st;
     footballEvents := footballEvents st; footballOdds := footballOdds st;
     apiCallCount := apiCallCount st;
     lastNbaEventsUpdate := lastNbaEventsUpdate st;
     lastNbaOddsUpdate := lastNbaOddsUpdate st;
     lastFootballEventsUpdate := lastFootballEventsUpdate st;
     lastFootballOddsUpdate := lastFootballOddsUpdate st; isRefreshing := x;
     lastError := lastError st; ticks := ticks st; requests := requests st;
     oddsFetches := oddsFetches st |}.

Definition set_lastError (x : option ErrorInfo) (st : State) : State :=
  {| nbaEvents := nbaEvents st; nbaOdds := nbaOdds st;
     footballEvents := footballEvents st; footballOdds := footballOdds st;
     apiCallCount := apiCallCount st;
     lastNbaEventsUpdate := lastNbaEventsUpdate st;
     lastNbaOddsUpdate := lastNbaOddsUpdate st;
     lastFootballEventsUpdate := lastFootballEventsUpdate st;
     lastFootballOddsUpdate := lastFootballOddsUpdate st;
     isRefreshing := isRefreshing st; lastError := x; ticks := ticks st;
     requests := requests st; oddsFetches := oddsFetches st |}.

Definition set_ticks (x : nat) (st : State) : State :=
  {| nbaEvents := nbaEvents st; nbaOdds := nbaOdds st;
     footballEvents := footballEvents st; footballOdds := footballOdds st;
     apiCallCount := apiCallCount st;
     lastNbaEventsUpdate := lastNbaEventsUpdate st;
     lastNbaOddsUpdate := lastNbaOddsUpdate st;
     lastFootballEventsUpdate := lastFootballEventsUpdate st;
     lastFootballOddsUpdate := lastFootballOddsUpdate st;
     isRefreshing := isRefreshing st; lastError := lastError st; ticks := x;
     requests := requests st; oddsFetches := oddsFetches st |}.

Definition set_requests (x : list (string * Z)) (st : State) : State :=
  {| nbaEvents := nbaEvents st; nbaOdds := nbaOdds st;
     footballEvents := footballEvents st; footballOdds := footballOdds st;
     apiCallCount := apiCallCount st;
     lastNbaEventsUpdate := lastNbaEventsUpdate st;
     lastNbaOddsUpdate := lastNbaOddsUpdate st;
     lastFootballEventsUpdate := lastFootballEventsUpdate st;
     lastFootballOddsUpdate := lastFootballOddsUpdate st;
     isRefreshing := isRefreshing st; lastError := lastError st;
     ticks := ticks st; requests := x; oddsFetches := oddsFetches st |}.

Definition set_oddsFetches (x : list (Value * Z)) (st : State) : State :=
  {| nbaEvents := nbaEvents st; nbaOdds := nbaOdds st;
     footballEvents := footballEvents st; footballOdds := footballOdds st;
     apiCallCount := apiCallCount st;
     lastNbaEventsUpdate := lastNbaEventsUpdate st;
     lastNbaOddsUpdate := lastNbaOddsUpdate st;
     lastFootballEventsUpdate := lastFootballEventsUpdate st;
     lastFootballOddsUpdate := lastFootballOddsUpdate st;
     isRefreshing := isRefreshing st; lastError := lastError st;
     ticks := ticks st; requests := requests st; oddsFetches := x |}.

Section Methods.
Context (W : World) (E : Env).

Definition constructor : State :=
  {| nbaEvents := []; nbaOdds := ∅; footballEvents := ∅; footballOdds := ∅;
     apiCallCount := 0;
     lastNbaEventsUpdate := None; lastNbaOddsUpdate := None;
     lastFootballEventsUpdate := ∅; lastFootballOddsUpdate := None;
     isRefreshing := false; lastError := None;
     ticks := 0; requests := []; oddsFetches := [] |}.

Definition Date_now : M State Z :=
  fun st => (Normal (clock W (ticks st)), set_ticks (S (ticks st)) st).

Definition fetch (url : string) : M State Response :=
  fun st =>
    (Normal (upstream W (length (requests st)) url),
     set_requests (requests st ++ [(url, apiCallCount st)]) st).

(** [fetchApi(url, description)]. *)
Definition fetchApi (url : string) : M State Value :=
  if String.eqb (OPTIC_API_KEY E) "" then
    now ← Date_now;
    modify (set_lastError
              (Some {| time := now; errMessage := "API key not configured";
                       url := None |}));;
    mret VNull
  else
    tryCatch
      (modify (fun st => set_apiCallCount (apiCallCount st + 1) st);;
       response ← fetch url;
       match response with
       | Rejected reason => throw (Error reason)
       | NotOk status statusText =>
           throw (Error ("HTTP " +:+ pretty status +:+ ": " +:+ statusText))
       | BadJson reason => throw (Error reason)
       | Json data => mret data
       end)
      (fun error =>
         now ← Date_now;
         modify (set_lastError
                   (Some {| time := now; errMessage := message error;
                            url := Some url |}));;
         mret VNull).

(** The callback of [data.data.map(...)]. *)
Definition toEvent (leagueName : string) (event : Value) : Completion Event :=
  eid ← getProp event "id";
  h ← getProp event "home_team";
  a ← getProp event "away_team";
  d ← getProp event "start_date";
  s ← getProp event "status";
  mret {| id := eid; ehome := h; eaway := a; edate := d;
          league := VStr leagueName; status := s |}.

Fixpoint mapEvents (leagueName : string) (l : list Value) : Completion (list Event) :=
  match l with
  | [] => mret []
  | x :: rest =>
      e ← toEvent leagueName x;
      es ← mapEvents leagueName rest;
      mret (e :: es)
  end.

Definition fetchNbaEvents : M State (list Event) :=
  data ← fetchApi (OPTIC_API_BASE +:+ "/fixtures/active?league=nba");
  (if truthy data then
     fixtures ← liftC (getProp data "data");
     if truthy fixtures && isArray fixtures then
       events ← liftC (mapEvents "nba" (items fixtures));
       modify (set_nbaEvents events);;
       stamp ← Date_now;
       modify (set_lastNbaEventsUpdate (Some stamp))
     else mret tt
   else mret tt);;
  st ← get;
  mret (nbaEvents st).

(** What [fetchNbaEvents] asks for, and the provider's answer to the
    request it sends from [st]. *)
Definition nbaEventsUrl : string := OPTIC_API_BASE +:+ "/fixtures/active?league=nba".

Definition nbaEventsAnswer (st : State) : Response :=
  upstream W (length (requests st)) nbaEventsUrl.

Definition emptySnapshot (stamp : Z) : Snapshot :=
  {| bookmakers := ∅; cachedAt := stamp; home := VUndefined;
     away := VUndefined; date := VUndefined |}.

Definition set_bookmakers (b : gmap string Book) (eventOdds : Snapshot) : Snapshot :=
  {| bookmakers := b; cachedAt := cachedAt eventOdds; home := home eventOdds;
     away := away eventOdds; date := date eventOdds |}.

(** One round of [for (const odd of oddsData.odds)]: the bookmaker's
    entry and the market's list are created when absent, then the
    outcome is pushed.  Under an inherited name nothing is absent: the
    inherited member is found in place of the entry, it has no
    [markets], and reading the market throws; in place of the list it is
    found as well, and has no [push].  The sportsbook and the market are
    converted to keys by [toString], that is, as [printable] values
    are. *)
Definition oddStep (odd : Value) (eventOdds : Snapshot) : Completion Snapshot :=
  book ← getProp odd "sportsbook";
  let bk := toString book in
  market ← getProp odd "market";
  let mk := toString market in
  if inherited bk then _ ← getProp VUndefined mk; mret eventOdds
  else
    let entry := default {| markets := ∅ |} (bookmakers eventOdds !! bk) in
    n ← getProp odd "name";
    p ← getProp odd "price";
    pts ← getProp odd "points";
    main ← getProp odd "is_main";
    if inherited mk
    then Thrown (TypeError
                   "eventOdds.bookmakers[book].markets[market].push is not a function")
    else
      let outcomes := default [] (markets entry !! mk) in
      let outcome := {| name := n; price := p; points := pts; is_main := main |} in
      mret (set_bookmakers
              (<[bk := {| markets := <[mk := outcomes ++ [outcome]]> (markets entry) |}]>
                 (bookmakers eventOdds))
              eventOdds).

Fixpoint mergeOdds (odds : list Value) (eventOdds : Snapshot) : Completion Snapshot :=
  match odds with
  | [] => mret eventOdds
  | odd :: rest =>
      eventOdds' ← oddStep odd eventOdds;
      mergeOdds rest eventOdds'
  end.

(** What both [fetch...OddsForEvent] do with the body they were sent. *)
Definition buildSnapshot (stamp : Z) (data : Value) : Completion Snapshot :=
  let eventOdds := emptySnapshot stamp in
  if truthy data then
    fixtures ← getProp data "data";
    if truthy fixtures then
      len ← getProp fixtures "length";
      if exceedsZero (runtime W) len then
        oddsData ← getProp fixtures "0";
        odds ← getProp oddsData "odds";
        merged ← (if truthy odds
                  then l ← iterate "oddsData.odds" odds; mergeOdds l eventOdds
                  else mret eventOdds);
        h ← getProp oddsData "home_team";
        a ← getProp oddsData "away_team";
        d ← getProp oddsData "start_date";
        mret {| bookmakers := bookmakers merged; cachedAt := cachedAt merged;
                home := h; away := a; date := d |}
      else mret eventOdds
    else mret eventOdds
  else mret eventOdds.

Definition join (sep : string) (l : list string) : string :=
  String.concat sep l.

(** The url holds the event id as the template string prints a
    [printable] id; the store at the end of the fetch is the [insert]
    under the key the id converts to, which is the assignment for an id
    that [ownKey] admits. *)
Definition oddsUrl (eventId : Value) (bookmakers : list string) : string :=
  OPTIC_API_BASE +:+ "/fixtures/odds?fixture_id=" +:+ toString eventId
    +:+ "&sportsbook=" +:+ join "," bookmakers.

Definition fetchNbaOddsForEvent (eventId : Value) : M State Snapshot :=
  modify (fun st => set_oddsFetches
                    (oddsFetches st ++ [(eventId, apiCallCount st)]) st);;
  stamp ← Date_now;
  data ← fetchApi (oddsUrl eventId NBA_BOOKMAKERS);
  eventOdds ← liftC (buildSnapshot stamp data);
  modify (fun st => set_nbaOdds (<[toString eventId := eventOdds]> (nbaOdds st)) st);;
  mret eventOdds.

Definition eventDate (e : Event) : option Z :=
  dateValue (runtime W) (edate e).

Definition sortEvents (l : list Event) : list Event :=
  sortBy (fun a b => compareDates (eventDate a) (eventDate b)) l.

(** An event whose date is a value [new Date] converts and whose id
    names an own property of the odds map. *)
Definition plainEvent (e : Event) : bool :=
  printable (edate e) && ownKey (id e).

(** One round of the loop of [refreshNbaOdds] over all the events. *)
Definition nbaRefreshRound (event : Event) (_ : unit) : M State (unit * bool) :=
  fetchNbaOddsForEvent (id event);;
  sleep 50;;
  mret (tt, true).

Definition refreshNbaOdds : M State unit :=
  st ← get;
  (if (length (nbaEvents st) =? 0)%nat then fetchNbaEvents;; mret tt else mret tt);;
  st ← get;
  let sortedEvents := sortEvents (nbaEvents st) in
  forOf sortedEvents tt nbaRefreshRound;;
  stamp ← Date_now;
  modify (set_lastNbaOddsUpdate (Some stamp)).

(** The state in which [refreshNbaOdds] sorts the events: it first
    fetches them when none is stored. *)
Definition nbaOddsEntry (st : State) : State :=
  if (length (nbaEvents st) =? 0)%nat then snd (fetchNbaEvents st) else st.

Definition fetchFootballEvents (leagueSlug : string) : M State (list Event) :=
  data ← fetchApi (OPTIC_API_BASE +:+ "/fixtures?sport=soccer&league="
                     +:+ leagueSlug +:+ "&status=unplayed");
  (if truthy data then
     fixtures ← liftC (getProp data "data");
     if truthy fixtures && isArray fixtures then
       events ← liftC (mapEvents leagueSlug (items fixtures));
       modify (fun st => set_footballEvents
                           (<[leagueSlug := events]> (footballEvents st)) st);;
       stamp ← Date_now;
       modify (fun st => set_lastFootballEventsUpdate
                           (<[leagueSlug := stamp]> (lastFootballEventsUpdate st)) st)
     else mret tt
   else mret tt);;
  st ← get;
  mret (default [] (footballEvents st !! leagueSlug)).

Definition footballEventsUrl (leagueSlug : string) : string :=
  OPTIC_API_BASE +:+ "/fixtures?sport=soccer&league=" +:+ leagueSlug
    +:+ "&status=unplayed".

Definition footballEventsAnswer (leagueSlug : string) (st : State) : Response :=
  upstream W (length (requests st)) (footballEventsUrl leagueSlug).

Definition fetchFootballOddsForEvent (eventId : Value)
    (bookmakers : list string) : M State Snapshot :=
  modify (fun st => set_oddsFetches
                    (oddsFetches st ++ [(eventId, apiCallCount st)]) st);;
  stamp ← Date_now;
  data ← fetchApi (oddsUrl eventId bookmakers);
  eventOdds ← liftC (buildSnapshot stamp data);
  modify (fun st => set_footballOdds
                      (<[toString eventId := eventOdds]> (footballOdds st)) st);;
  mret eventOdds.

(** [{ ...e, league }]. *)
Definition withLeague (leagueName : string) (e : Event) : Event :=
  {| id := id e; ehome := ehome e; eaway := eaway e; edate := edate e;
     league := VStr leagueName; status := status e |}.

Definition collectEvents (st : State) : list Event :=
  flat_map (fun l => List.map (withLeague l) (default [] (footballEvents st !! l)))
           FOOTBALL_LEAGUES.

(** One round of each of the two loops of [refreshFootballOdds]. *)
Definition leagueRound (l : string) (_ : unit) : M State (unit * bool) :=
  fetchFootballEvents l;;
  sleep 50;;
  mret (tt, true).

Definition footballRefreshRound (event : Event) (_ : unit) : M State (unit * bool) :=
  fetchFootballOddsForEvent (id event) FOOTBALL_BOOKMAKERS;;
  sleep 50;;
  mret (tt, true).

Definition refreshFootballOdds : M State unit :=
  forOf FOOTBALL_LEAGUES tt leagueRound;;
  st ← get;
  let sortedEvents := sortEvents (collectEvents st) in
  forOf sortedEvents tt footballRefreshRound;;
  stamp ← Date_now;
  modify (set_lastFootballOddsUpdate (Some stamp)).

(** A round of an odds loop that records the fetch for its event,
    however the fetch ends, and goes on when it returns. *)
Definition logsFetch (round : Event -> unit -> M State (unit * bool)) : Prop :=
  forall event s,
    match round event tt s with
    | (Normal r, s1) =>
        r = (tt, true)
        /\ oddsFetches s1 = oddsFetches s ++ [(id event, apiCallCount s)]
    | (Thrown _, s1) =>
        oddsFetches s1 = oddsFetches s ++ [(id event, apiCallCount s)]
    end.

(** The state in which [refreshFootballOdds] collects the events: after
    its loop over the leagues, or where that loop threw. *)
Definition footballOddsEntry (st : State) : State :=
  snd (forOf FOOTBALL_LEAGUES tt leagueRound st).

Definition refreshCycle : M State unit :=
  fetchNbaEvents;;
  refreshNbaOdds;;
  refreshFootballOdds.

Definition refreshAll : M State unit :=
  st ← get;
  if isRefreshing st then mret tt
  else
    modify (set_isRefreshing true);;
    tryFinally
      (tryCatch refreshCycle
         (fun error =>
            now ← Date_now;
            modify (set_lastError
                      (Some {| time := now; errMessage := message error;
                               url := None |}))))
      (modify (set_isRefreshing false)).

(** *** The getters, and the list of leagues *)

(** [{ events, lastUpdate, count }]. *)
Record NbaEventsView : Type := {
  events : list Event;
  lastUpdate : option Z;
  count : nat
}.

(** What [getNbaOdds(eventId)] and [getFootballOdds(eventId)] return:
    the entry of the event, a member inherited under its name, [null],
    or, for an id that is falsy, the whole map. *)
Inductive OddsAnswer : Type :=
| OneOdds (eventOdds : Snapshot)
| InheritedOdds (name : string)
| NoOdds
| EveryOdds (odds : gmap string Snapshot).

(** [{ odds, lastUpdate, eventCount }]. *)
Record OddsView : Type := {
  odds : gmap string Snapshot;
  oddsLastUpdate : option Z;
  eventCount : nat
}.

(** What [getFootballEvents(leagueSlug)] returns: for a league,
    [{ events, lastUpdate, count }], the first two as found under its
    name ([events] an empty array when nothing is, and [count] the
    length of [events]); otherwise [{ events, lastUpdate, leagues }] with
    both maps whole and the keys of the first (as a set: their order,
    that of insertion, is not kept by the maps of this development). *)
Inductive FootballEventsAnswer : Type :=
| LeagueEvents (leagueEvents : Member (list Event)) (leagueLastUpdate : Member Z)
| EveryLeague (allEvents : gmap string (list Event))
    (allLastUpdate : gmap string Z) (leagues : gset string).

(** The two inner objects of [getStatus()], and the status. *)
Record NbaStatus : Type := {
  nbaEventsCount : nat;
  nbaOddsCount : nat;
  nbaLastEventsUpdate : option Z;
  nbaLastOddsUpdate : option Z
}.

Record FootballStatus : Type := {
  footballLeagues : gset string;
  footballEventsCount : nat;
  footballOddsCount : nat;
  footballLastOddsUpdate : option Z
}.

Record Status : Type := {
  statusApiCallCount : Z;
  statusIsRefreshing : bool;
  statusLastError : option ErrorInfo;
  nba : NbaStatus;
  football : FootballStatus
}.

Definition getNbaEvents : M State NbaEventsView :=
  st ← get;
  mret {| events := nbaEvents st; lastUpdate := lastNbaEventsUpdate st;
          count := length (nbaEvents st) |}.

Definition oddsAnswer (o : gmap string Snapshot) (eventId : Value) : OddsAnswer :=
  if truthy eventId then
    match member o (toString eventId) with
    | Own eventOdds => OneOdds eventOdds
    | Inherited inheritedName => InheritedOdds inheritedName
    | Absent => NoOdds
    end
  else EveryOdds o.

Definition getNbaOdds (eventId : Value) : M State OddsAnswer :=
  st ← get;
  mret (oddsAnswer (nbaOdds st) eventId).

Definition getAllNbaOdds : M State OddsView :=
  st ← get;
  mret {| odds := nbaOdds st; oddsLastUpdate := lastNbaOddsUpdate st;
          eventCount := size (nbaOdds st) |}.

Definition getFootballEvents (leagueSlug : Value) : M State FootballEventsAnswer :=
  st ← get;
  if truthy leagueSlug then
    mret (LeagueEvents (member (footballEvents st) (toString leagueSlug))
            (member (lastFootballEventsUpdate st) (toString leagueSlug)))
  else
    mret (EveryLeague (footballEvents st) (lastFootballEventsUpdate st)
            (dom (footballEvents st))).

Definition getFootballOdds (eventId : Value) : M State OddsAnswer :=
  st ← get;
  mret (oddsAnswer (footballOdds st) eventId).

Definition getAllFootballOdds : M State OddsView :=
  st ← get;
  mret {| odds := footballOdds st; oddsLastUpdate := lastFootballOddsUpdate st;
          eventCount := size (footballOdds st) |}.

(** [Object.values(this.footballEvents).flat().length]: the stored lists
    are arrays, [flat()] sets them end to end. *)
Definition countEvents (o : gmap string (list Event)) : nat :=
  map_fold (fun _ l n => (length l + n)%nat) 0%nat o.

Definition getStatus : M State Status :=
  st ← get;
  mret {| statusApiCallCount := apiCallCount st;
          statusIsRefreshing := isRefreshing st;
          statusLastError := lastError st;
          nba := {| nbaEventsCount := length (nbaEvents st);
                    nbaOddsCount := size (nbaOdds st);
                    nbaLastEventsUpdate := lastNbaEventsUpdate st;
                    nbaLastOddsUpdate := lastNbaOddsUpdate st |};
          football := {| footballLeagues := dom (footballEvents st);
                         footballEventsCount := countEvents (footballEvents st);
                         footballOddsCount := size (footballOdds st);
                         footballLastOddsUpdate := lastFootballOddsUpdate st |} |}.

(** [fetchAvailableLeagues(sport = 'soccer')]: the default stands in for
    an argument that is [undefined]. *)
Definition leaguesUrl (sport : Value) : string :=
  OPTIC_API_BASE +:+ "/leagues/active?sport="
    +:+ toString (match sport with VUndefined => VStr "soccer" | _ => sport end).

Definition fetchAvailableLeagues (sport : Value) : M State Value :=
  data ← fetchApi (leaguesUrl sport);
  if truthy data then
    listed ← liftC (getProp data "data");
    if truthy listed then mret listed else mret (VArr [])
  else mret (VArr []).

(** The outcome an odd is stored as, and the outcomes a snapshot holds
    for a sportsbook and a market. *)
Definition outcomeOf (odd : Value) : Outcome :=
  {| name := prop odd "name"; price := prop odd "price";
     points := prop odd "points"; is_main := prop odd "is_main" |}.

Definition outcomesAt (eventOdds : Snapshot) (book market : string) : list Outcome :=
  default [] (bookmakers eventOdds !! book ≫= fun b => markets b !! market).

(** Whether an odd names the sportsbook and the market. *)
Definition quotedAt (book market : string) (odd : Value) : bool :=
  String.eqb (toString (prop odd "sportsbook")) book
  && String.eqb (toString (prop odd "market")) market.

(** An odd the loop files without throwing: it is not [null], and the
    sportsbook and the market it names convert to keys that no object
    inherits. *)
Definition plainOdd (odd : Value) : bool :=
  negb (nullish odd)
  && printable (prop odd "sportsbook")
  && negb (inherited (toString (prop odd "sportsbook")))
  && printable (prop odd "market")
  && negb (inherited (toString (prop odd "market"))).

(** The calls a client of the object can make, as for the other edition. *)
Inductive Call : Type :=
| CallFetchApi (url : string)
| CallFetchNbaEvents
| CallFetchNbaOddsForEvent (eventId : Value)
| CallRefreshNbaOdds
| CallFetchFootballEvents (leagueSlug : string)
| CallFetchFootballOddsForEvent (eventId : Value) (bookmakers : list string)
| CallRefreshFootballOdds
| CallRefreshAll
| CallFetchAvailableLeagues (sport : Value).

Definition perform (c : Call) (st : State) : State :=
  match c with
  | CallFetchApi url => snd (fetchApi url st)
  | CallFetchNbaEvents => snd (fetchNbaEvents st)
  | CallFetchNbaOddsForEvent eventId => snd (fetchNbaOddsForEvent eventId st)
  | CallRefreshNbaOdds => snd (refreshNbaOdds st)
  | CallFetchFootballEvents leagueSlug => snd (fetchFootballEvents leagueSlug st)
  | CallFetchFootballOddsForEvent eventId bookmakers =>
      snd (fetchFootballOddsForEvent eventId bookmakers st)
  | CallRefreshFootballOdds => snd (refreshFootballOdds st)
  | CallRefreshAll => snd (refreshAll st)
  | CallFetchAvailableLeagues sport => snd (fetchAvailableLeagues sport st)
  end.

(** The states after each call of a sequence. *)
Fixpoint statesAlong (calls : list Call) (st : State) : list State :=
  match calls with
  | [] => []
  | c :: rest => perform c st :: statesAlong rest (perform c st)
  end.

(** The counter and the requests agree: as many requests were sent as
    the counter says, and the [n]-th left with the counter at [n]. *)
Definition counted (st : State) : Prop :=
  apiCallCount st = Z.of_nat (length (requests st))
  /\ forall i r, requests st !! i = Some r -> snd r = Z.of_nat (S i).

(** Every cached event carries the league it is cached under. *)
Definition labelled (st : State) : Prop :=
  Forall (fun e => league e = VStr "nba") (nbaEvents st)
  /\ forall l evs, footballEvents st !! l = Some evs ->
       Forall (fun e => league e = VStr l) evs.

End Methods.

End Optic.

(** ** The server around the quota-free cache *)

(** [server.js] requires the cache, wraps five of its methods so that
    they publish what they do over the web socket, and serves the cache
    over HTTP.  The wrappers are assigned to the object itself: from then
    on a method of the class that calls [this.fetchNbaOddsForEvent], say,
    calls the wrapper. *)
Module Server.

(** Whom a message goes to: every client ([io.emit]), the clients in the
    room of a sport ([io.to(sport).emit]), one client ([socket.emit]). *)
Inductive Target : Type :=
| Everyone
| Room (sport : string)
| Socket (socket : nat).

(** What the messages carry. *)
Inductive Payload : Type :=
| StatusData (status : Optic.Status)
| SnapshotData (nbaEvents : Optic.NbaEventsView) (nbaOdds : Optic.OddsView)
    (footballEvents : Optic.FootballEventsAnswer) (footballOdds : Optic.OddsView)
| RefreshStartData (type : string) (timestamp : Z)
| RefreshCompleteData (type : string) (timestamp : Z) (status : Optic.Status)
| NbaUpdateData (events : Optic.NbaEventsView) (odds : Optic.OddsView)
| FootballUpdateData (events : Optic.FootballEventsAnswer) (odds : Optic.OddsView)
| OddsUpdateData (sport : string) (eventId : Value) (odds : Optic.Snapshot)
    (timestamp : Z)
| ScheduledRefreshData (timestamp : Z).

Record Emission : Type := {
  target : Target;
  event : string;
  data : Payload
}.

(** The process: the cache object, the counter of connected clients, and
    two records that are not in the source, the messages emitted so far,
    oldest first, and how often [server.js] itself has read the clock. *)
Record State : Type := {
  cache : Optic.State;
  connectedClients : Z;
  emitted : list Emission;
  readings : nat
}.

Definition set_cache (x : Optic.State) (s : State) : State :=
  {| cache := x; connectedClients := connectedClients s;
     emitted := emitted s; readings := readings s |}.

Definition set_connectedClients (x : Z) (s : State) : State :=
  {| cache := cache s; connectedClients := x;
     emitted := emitted s; readings := readings s |}.

Definition set_emitted (x : list Emission) (s : State) : State :=
  {| cache := cache s; connectedClients := connectedClients s;
     emitted := x; readings := readings s |}.

Definition set_readings (x : nat) (s : State) : State :=
  {| cache := cache s; connectedClients := connectedClients s;
     emitted := emitted s; readings := x |}.

(** An event of a reply, with the odds found for it:
    [{ ...event, odds: odds.odds[event.id] || null }], [Absent] for
    [null]. *)
Record EventWithOdds : Type := {
  listed : Optic.Event;
  oddsFound : Member Optic.Snapshot
}.

(** The bodies of the replies. *)
Inductive Body : Type :=
| OddsBody (answer : Optic.OddsAnswer)
| ErrorBody (error : string)
| NbaAllBody (events : list EventWithOdds)
    (lastEventsUpdate lastOddsUpdate : option Z)
    (totalEvents eventsWithOdds : nat)
| FootballAllBody (leagues : gmap string (list EventWithOdds))
    (lastOddsUpdate : option Z) (totalEvents eventsWithOdds : nat)
| LeaguesBody (sport : string) (count : Value) (leagues : Value).

Record Reply : Type := {
  code : Z;
  body : Body
}.

Section Methods.
Context (W : World) (E : Optic.Env).

(** The readings of the clock by [server.js]: [serverClock n] is the
    [n]-th of them.  They are counted apart from those of the cache
    object, which [clock W] lists: a wrapper that reads the clock does
    not shift the readings of the method it wraps. *)
Context (serverClock : nat -> Z).

(** A method of the cache that no wrapper stands for, run on the cache
    of the process. *)
Definition onCache {A : Type} (m : M Optic.State A) : M State A :=
  fun s => let '(r, c) := m (cache s) in (r, set_cache c s).

(** [new Date()] in [server.js]. *)
Definition newDate : M State Z :=
  fun s => (Normal (serverClock (readings s)), set_readings (S (readings s)) s).

Definition emit (to : Target) (name : string) (payload : Payload) : M State unit :=
  modify (fun s => set_emitted
                     (emitted s ++ [{| target := to; event := name;
                                       data := payload |}]) s).

Definition broadcast (name : string) (payload : Payload) : M State unit :=
  emit Everyone name payload.

Definition broadcastToSport (sport name : string) (payload : Payload)
    : M State unit :=
  emit (Room sport) name payload.

Definition emitStatus : M State unit :=
  status ← onCache Optic.getStatus;
  broadcast "status" (StatusData status).

(** *** The wrapped methods *)

Definition fetchNbaOddsForEvent (eventId : Value) : M State Optic.Snapshot :=
  result ← onCache (Optic.fetchNbaOddsForEvent W E eventId);
  timestamp ← newDate;
  broadcastToSport "nba" "oddsUpdate"
    (OddsUpdateData "nba" eventId result timestamp);;
  mret result.

Definition fetchFootballOddsForEvent (eventId : Value)
    (bookmakers : list string) : M State Optic.Snapshot :=
  result ← onCache (Optic.fetchFootballOddsForEvent W E eventId bookmakers);
  timestamp ← newDate;
  broadcastToSport "football" "oddsUpdate"
    (OddsUpdateData "football" eventId result timestamp);;
  mret result.

(** [refreshNbaOdds] of the class, bound to the object once its methods
    are wrapped: [this.fetchNbaOddsForEvent] is the wrapper above. *)
Definition nbaRefreshRound (event : Optic.Event) (_ : unit)
    : M State (unit * bool) :=
  fetchNbaOddsForEvent (Optic.id event);;
  sleep 50;;
  mret (tt, true).

Definition originalRefreshNbaOdds : M State unit :=
  st ← onCache get;
  (if (length (Optic.nbaEvents st) =? 0)%nat
   then onCache (Optic.fetchNbaEvents W E);; mret tt else mret tt);;
  st ← onCache get;
  let sortedEvents := Optic.sortEvents W (Optic.nbaEvents st) in
  forOf sortedEvents tt nbaRefreshRound;;
  stamp ← onCache (Optic.Date_now W);
  onCache (modify (Optic.set_lastNbaOddsUpdate (Some stamp))).

Definition refreshNbaOdds : M State unit :=
  timestamp ← newDate;
  broadcastToSport "nba" "refreshStart" (RefreshStartData "nba" timestamp);;
  originalRefreshNbaOdds;;
  events ← onCache Optic.getNbaEvents;
  odds ← onCache Optic.getAllNbaOdds;
  broadcastToSport "nba" "nbaUpdate" (NbaUpdateData events odds);;
  emitStatus.

(** The same for [refreshFootballOdds]. *)
Definition leagueRound (l : string) (_ : unit) : M State (unit * bool) :=
  onCache (Optic.fetchFootballEvents W E l);;
  sleep 50;;
  mret (tt, true).

Definition footballRefreshRound (event : Optic.Event) (_ : unit)
    : M State (unit * bool) :=
  fetchFootballOddsForEvent (Optic.id event) Optic.FOOTBALL_BOOKMAKERS;;
  sleep 50;;
  mret (tt, true).

Definition originalRefreshFootballOdds : M State unit :=
  forOf Optic.FOOTBALL_LEAGUES tt leagueRound;;
  st ← onCache get;
  let sortedEvents := Optic.sortEvents W (Optic.collectEvents st) in
  forOf sortedEvents tt footballRefreshRound;;
  stamp ← onCache (Optic.Date_now W);
  onCache (modify (Optic.set_lastFootballOddsUpdate (Some stamp))).

Definition refreshFootballOdds : M State unit :=
  timestamp ← newDate;
  broadcastToSport "football" "refreshStart"
    (RefreshStartData "football" timestamp);;
  originalRefreshFootballOdds;;
  events ← onCache (Optic.getFootballEvents VUndefined);
  odds ← onCache Optic.getAllFootballOdds;
  broadcastToSport "football" "footballUpdate" (FootballUpdateData events odds);;
  emitStatus.

(** And for [refreshAll], whose two refreshes are the wrappers. *)
Definition refreshCycle : M State unit :=
  onCache (Optic.fetchNbaEvents W E);;
  refreshNbaOdds;;
  refreshFootballOdds.

Definition originalRefreshAll : M State unit :=
  st ← onCache get;
  if Optic.isRefreshing st then mret tt
  else
    onCache (modify (Optic.set_isRefreshing true));;
    tryFinally
      (tryCatch refreshCycle
         (fun error =>
            now ← onCache (Optic.Date_now W);
            onCache (modify (Optic.set_lastError
                               (Some {| time := now; errMessage := message error;
                                        url := None |})))))
      (onCache (modify (Optic.set_isRefreshing false))).

Definition refreshAll : M State unit :=
  started ← newDate;
  broadcast "refreshStart" (RefreshStartData "all" started);;
  originalRefreshAll;;
  timestamp ← newDate;
  status ← onCache Optic.getStatus;
  broadcast "refreshComplete" (RefreshCompleteData "all" timestamp status);;
  nbaEvents ← onCache Optic.getNbaEvents;
  nbaOdds ← onCache Optic.getAllNbaOdds;
  broadcast "nbaUpdate" (NbaUpdateData nbaEvents nbaOdds);;
  footballEvents ← onCache (Optic.getFootballEvents VUndefined);
  footballOdds ← onCache Optic.getAllFootballOdds;
  broadcast "footballUpdate" (FootballUpdateData footballEvents footballOdds).

(** *** The socket *)

(** [io.on('connection', ...)], up to the handlers it installs. *)
Definition onConnection (socket : nat) : M State unit :=
  modify (fun s => set_connectedClients (connectedClients s + 1) s);;
  status ← onCache Optic.getStatus;
  emit (Socket socket) "status" (StatusData status);;
  nbaEvents ← onCache Optic.getNbaEvents;
  nbaOdds ← onCache Optic.getAllNbaOdds;
  footballEvents ← onCache (Optic.getFootballEvents VUndefined);
  footballOdds ← onCache Optic.getAllFootballOdds;
  emit (Socket socket) "snapshot"
    (SnapshotData nbaEvents nbaOdds footballEvents footballOdds).

Definition onDisconnect : M State unit :=
  modify (fun s => set_connectedClients (connectedClients s - 1) s).

(** [data?.type === name]. *)
Definition typeIs (payload : Value) (name : string) : bool :=
  match (if nullish payload then VUndefined else prop payload "type") with
  | VStr s => String.eqb s name
  | _ => false
  end.

(** [data?.type || 'all'], which the handler of [requestRefresh] prints
    in the line it logs before anything else. *)
Definition refreshLabel (payload : Value) : Value :=
  let type := if nullish payload then VUndefined else prop payload "type" in
  if truthy type then type else VStr "all".

(** The handler of [requestRefresh], past the line it logs: what it does
    for a payload whose label is printable. *)
Definition requestRefresh (payload : Value) : M State unit :=
  if typeIs payload "nba" then
    onCache (Optic.fetchNbaEvents W E);;
    refreshNbaOdds
  else if typeIs payload "football" then refreshFootballOdds
  else refreshAll.

(** The job of the scheduler.  It reads the clock once for the line it
    logs; the refresh it starts is not awaited, and is run here to its
    end, as every call is. *)
Definition scheduledRefresh : M State unit :=
  _ ← newDate;
  timestamp ← newDate;
  broadcast "scheduledRefresh" (ScheduledRefreshData timestamp);;
  refreshAll.

(** *** The routes *)

(** [res.json(x)] and [res.status(c).json(x)]. *)
Definition json (b : Body) : Reply := {| code := 200; body := b |}.

(** [GET /api/nba/odds/:eventId] and [GET /api/football/odds/:eventId]. *)
Definition oddsReply (answer : Optic.OddsAnswer) : Reply :=
  match answer with
  | Optic.NoOdds =>
      {| code := 404; body := ErrorBody "Odds not found for this event" |}
  | _ => json (OddsBody answer)
  end.

Definition getNbaOddsRoute (eventId : string) : M State Reply :=
  answer ← onCache (Optic.getNbaOdds (VStr eventId));
  mret (oddsReply answer).

Definition getFootballOddsRoute (eventId : string) : M State Reply :=
  answer ← onCache (Optic.getFootballOdds (VStr eventId));
  mret (oddsReply answer).

(** [event => ({ ...event, odds: odds.odds[event.id] || null })], for an
    event whose id is [printable]: the id is converted to the key it is
    looked up under. *)
Definition withOdds (o : gmap string Optic.Snapshot) (e : Optic.Event)
    : EventWithOdds :=
  {| listed := e; oddsFound := member o (toString (Optic.id e)) |}.

(** [list.filter(e => e.odds).length]. *)
Definition countWithOdds (l : list EventWithOdds) : nat :=
  length (List.filter (fun e => found (oddsFound e)) l).

(** [GET /api/nba/all]. *)
Definition getNbaAllRoute : M State Reply :=
  events ← onCache Optic.getNbaEvents;
  odds ← onCache Optic.getAllNbaOdds;
  let eventsWithOdds := List.map (withOdds (Optic.odds odds)) (Optic.events events) in
  mret (json (NbaAllBody eventsWithOdds (Optic.lastUpdate events)
                (Optic.oddsLastUpdate odds) (Optic.count events)
                (countWithOdds eventsWithOdds))).

(** [Object.values(result).flat()], counted: all the lists of [result],
    end to end. *)
Definition flatCount (count : list EventWithOdds -> nat)
    (result : gmap string (list EventWithOdds)) : nat :=
  map_fold (fun _ l n => (count l + n)%nat) 0%nat result.

(** [GET /api/football/all]: called without a league,
    [getFootballEvents] gives the whole map and its keys, each of which
    has its list in the map. *)
Definition getFootballAllRoute : M State Reply :=
  events ← onCache (Optic.getFootballEvents VUndefined);
  allOdds ← onCache Optic.getAllFootballOdds;
  let result :=
    match events with
    | Optic.EveryLeague allEvents _ _ =>
        List.map (withOdds (Optic.odds allOdds)) <$> allEvents
    | Optic.LeagueEvents _ _ => ∅
    end in
  mret (json (FootballAllBody result (Optic.oddsLastUpdate allOdds)
                (flatCount (@length EventWithOdds) result)
                (flatCount countWithOdds result))).

(** [GET /api/leagues/:sport]. *)
Definition getLeaguesRoute (sport : string) : M State Reply :=
  tryCatch
    (leagues ← onCache (Optic.fetchAvailableLeagues W E (VStr sport));
     count ← liftC (getProp leagues "length");
     mret (json (LeaguesBody sport count leagues)))
    (fun error => mret {| code := 500; body := ErrorBody (message error) |}).

End Methods.

End Server.

(** ** Worlds and states to run the methods in *)

Module Scenario.

(** A runtime for runs whose dates are numbers: no string is a date or a
    number, and the ISO form of a time is left as its digits. *)
Definition plainRuntime : Runtime :=
  {| Date_parse := fun _ => None;
     Date_toISOString := fun t => pretty t;
     stringExceedsZero := fun _ => false |}.

(** The clock shows [start], then a millisecond more at every reading;
    the [n]-th request is answered by the [n]-th of [answers], and
    rejected once they are used up. *)
Definition scripted (start : Z) (answers : list Response) : World :=
  {| runtime := plainRuntime;
     clock := fun n => start + Z.of_nat n;
     upstream := fun n _ => nth n answers (Rejected "fetch failed") |}.

Definition offline : World := scripted 1000 [].

Definition boundedDefaults : Bounded.Env :=
  {| Bounded.env_ODDS_API_KEY := None;
     Bounded.env_ODDS_API_BASE := None;
     Bounded.env_MAX_CALLS_PER_HOUR := None |}.

(** [MAX_CALLS_PER_HOUR=5]. *)
Definition boundedFive : Bounded.Env :=
  {| Bounded.env_ODDS_API_KEY := None;
     Bounded.env_ODDS_API_BASE := None;
     Bounded.env_MAX_CALLS_PER_HOUR := Some 5 |}.

(** [MAX_CALLS_PER_HOUR=-3]. *)
Definition boundedNegative : Bounded.Env :=
  {| Bounded.env_ODDS_API_KEY := None;
     Bounded.env_ODDS_API_BASE := None;
     Bounded.env_MAX_CALLS_PER_HOUR := Some (-3) |}.

Definition opticKeyed : Optic.Env :=
  {| Optic.env_OPTIC_ODDS_API_KEY := Some "key" |}.

(** An event of the bounded edition, as the provider sends it. *)
Definition fixture (eventId : string) (date : Z) : Value :=
  VObj [("id", VStr eventId); ("home", VStr "Home"); ("away", VStr "Away");
        ("date", VNum date)].

(** The bounded object after five requests in a world without network:
    with [MAX_CALLS_PER_HOUR=5] its budget is used up. *)
Definition fiveCallsMade : Bounded.State :=
  List.last
    (Bounded.statesAlong offline boundedFive
       (repeat (Bounded.CallFetchWithRateLimit "https://provider.test/odds") 5)
       (Bounded.constructor offline))
    (Bounded.constructor offline).

(** The provider answers the first request, the one for the NBA events,
    with a list whose only entry is [null]: bare for the bounded edition,
    under [data] for the other. *)
Definition nullFixture : World := scripted 1000 [Json (VArr [VNull])].

Definition nullFixtureOptic : World :=
  scripted 1000 [Json (VObj [("data", VArr [VNull])])].

(** The provider answers the request for the NBA events with a body that
    is JSON but no list of events. *)
Definition errorBody : World :=
  scripted 1000 [Json (VObj [("error", VStr "Invalid API key")])].

(** The provider first sends one NBA event, then an empty list. *)
Definition emptied : World :=
  scripted 1000 [Json (VArr [fixture "E1" 90000000]); Json (VArr [])].

Definition oneEventCached : Bounded.State :=
  snd (Bounded.fetchNbaEvents emptied boundedDefaults (Bounded.constructor emptied)).

(** The provider answers one request, the first, with the odds of Kambi
    for the event; after that the network is gone. *)
Definition kambiOdds : Value :=
  VObj [("bookmakers",
         VObj [("Kambi",
                VObj [("moneyline",
                       VArr [VObj [("name", VStr "Home"); ("price", VNum 2)]])])]);
        ("home", VStr "Home"); ("away", VStr "Away"); ("date", VNum 90000000)].

Definition oddsOnce : World := scripted 1000 [Json kambiOdds].

Definition oddsCached : Bounded.State :=
  snd (Bounded.fetchNbaOddsForEvent oddsOnce boundedDefaults (VStr "E1")
         (Bounded.constructor oddsOnce)).

(** The provider of the quota-free edition lists one NBA fixture, ten
    years away; no other request is answered. *)
Definition tenYearsAway : Z := 1000 + 3650 * dayMs.

Definition farFixture : World :=
  scripted 1000
    [Json (VObj [("data",
                  VArr [VObj [("id", VStr "F1"); ("home_team", VStr "Home");
                              ("away_team", VStr "Away");
                              ("start_date", VNum tenYearsAway);
                              ("status", VStr "unplayed")]])])].

(** The provider of the bounded edition lists three NBA events: in two
    days, in ten days and in one day; no other request is answered. *)
Definition threeEvents : World :=
  scripted 1000
    [Json (VArr [fixture "late" (1000 + 2 * dayMs);
                 fixture "far" (1000 + 10 * dayMs);
                 fixture "soon" (1000 + dayMs)])].

(** The quota-free edition started without [OPTIC_ODDS_API_KEY]. *)
Definition opticUnkeyed : Optic.Env :=
  {| Optic.env_OPTIC_ODDS_API_KEY := None |}.

(** A world whose clock stands still, and whose provider is away. *)
Definition standstill : World :=
  {| runtime := plainRuntime;
     clock := fun _ => 1000;
     upstream := fun _ _ => Rejected "fetch failed" |}.

(** One odd of the quota-free provider, and a body with the odds of one
    fixture: two for the moneyline at Pinnacle, one at Bet365 between
    them. *)
Definition quote (book market outcome : string) (price : Z) : Value :=
  VObj [("sportsbook", VStr book); ("market", VStr market);
        ("name", VStr outcome); ("price", VNum price);
        ("points", VNull); ("is_main", VBool true)].

Definition quotedOdds : list Value :=
  [quote "pinnacle" "moneyline" "Home" 2;
   quote "bet365" "moneyline" "Home" 3;
   quote "pinnacle" "moneyline" "Away" 4].

Definition quotedFixture : Value :=
  VObj [("id", VStr "F1"); ("home_team", VStr "Home");
        ("away_team", VStr "Away"); ("start_date", VNum 90000000);
        ("odds", VArr quotedOdds)].

Definition quotedBody : Value := VObj [("data", VArr [quotedFixture])].

(** The provider answers the first request with that body. *)
Definition quoting : World := scripted 1000 [Json quotedBody].

(** The clock as [server.js] reads it, the process as it starts, and the
    process with a refresh marked as running. *)
Definition wallClock : nat -> Z := fun n => 5000 + Z.of_nat n.

Definition started : Server.State :=
  {| Server.cache := Optic.constructor; Server.connectedClients := 0;
     Server.emitted := []; Server.readings := 0 |}.

Definition busy : Server.State :=
  Server.set_cache (Optic.set_isRefreshing true Optic.constructor) started.

(** The quota-free cache after a request that failed. *)
Definition failedOnce : Optic.State :=
  Optic.perform offline opticKeyed
    (Optic.CallFetchApi "https://provider.test/fixtures") Optic.constructor.

End Scenario.

(** * Two runs side by side *)

Section Relational.
Context {S1 S2 : Type} (R : S1 -> S2 -> Prop).

(** From states in [R], [m1] and [m2] end alike: both return, with
    results in [Q], or both throw the same error; and their final states
    are in [R] again. *)
Definition related {A1 A2 : Type} (Q : A1 -> A2 -> Prop)
    (m1 : M S1 A1) (m2 : M S2 A2) : Prop :=
  forall s1 s2, R s1 s2 ->
    match m1 s1, m2 s2 with
    | (Normal a1, s1'), (Normal a2, s2') => Q a1 a2 /\ R s1' s2'
    | (Thrown e1, s1'), (Thrown e2, s2') => e1 = e2 /\ R s1' s2'
    | _, _ => False
    end.

(** [m1] returns, and leaves its state related to whatever it was
    related to: a step the other run does not have. *)
Definition aside {A1 : Type} (m1 : M S1 A1) : Prop :=
  forall s1, exists a s1',
    m1 s1 = (Normal a, s1') /\ forall s2, R s1 s2 -> R s1' s2.

End Relational.

(** The process and a cache on its own are at the same point when the
    cache of the process is that cache. *)
Definition sameCache (s : Server.State) (c : Optic.State) : Prop :=
  Server.cache s = c.

(** Two states of the cache that differ in [isRefreshing] at most. *)
Definition flagApart (s1 s2 : Optic.State) : Prop :=
  Optic.set_isRefreshing false s1 = Optic.set_isRefreshing false s2.

Definition boundedFlagApart (s1 s2 : Bounded.State) : Prop :=
  Bounded.set_isRefreshing false s1 = Bounded.set_isRefreshing false s2.

(** [m1], run by the process, returns or throws what [m2] does on the
    cache alone, and leaves the cache as [m2] does. *)
Definition mirrors {A : Type} (m1 : M Server.State A) (m2 : M Optic.State A)
    : Prop :=
  forall s,
    fst (m1 s) = fst (m2 (Server.cache s))
    /\ Server.cache (snd (m1 s)) = snd (m2 (Server.cache s)).

(** The event id an [oddsUpdate] carries, and whether a message is an
    [oddsUpdate] to the room of a sport. *)
Definition publishedId (m : Server.Emission) : option Value :=
  match Server.data m with
  | Server.OddsUpdateData _ eventId _ _ => Some eventId
  | _ => None
  end.

Definition oddsUpdateTo (sport : string) (m : Server.Emission) : Prop :=
  Server.target m = Server.Room sport /\ Server.event m = "oddsUpdate".

(** * Reasoning about methods *)

(** ** A program logic for [M] *)

Section Logic.
Context {S : Type}.

(** From a state in [P], [m] ends in [Q] when it returns and in [X]
    when it throws. *)
Definition triple {A : Type} (P : S -> Prop) (m : M S A)
    (Q : A -> S -> Prop) (X : JsError -> S -> Prop) : Prop :=
  forall s, P s ->
    match m s with
    | (Normal a, s') => Q a s'
    | (Thrown e, s') => X e s'
    end.

(** [m] keeps [I], however it ends. *)
Definition preserves {A : Type} (I : S -> Prop) (m : M S A) : Prop :=
  triple I m (fun _ => I) (fun _ => I).

Lemma triple_ret {A} (P : S -> Prop) (a : A) Q X :
  (forall s, P s -> Q a s) -> triple P (mret a) Q X.
Proof. intros H s Hs. simpl. auto. Qed.

Lemma triple_bind {A B} (P : S -> Prop) (m : M S A) (f : A -> M S B) R Q X :
  triple P m R X -> (forall a, triple (R a) (f a) Q X) ->
  triple P (m ≫= f) Q X.
Proof.
  intros Hm Hf s Hs. specialize (Hm s Hs).
  unfold mbind, M_bind. destruct (m s) as [[a|e] s']; [|exact Hm].
  apply (Hf a s' Hm).
Qed.

Lemma triple_tryCatch {A} (P : S -> Prop) (m : M S A) h Q X' X :
  triple P m Q X' -> (forall e, triple (X' e) (h e) Q X) ->
  triple P (tryCatch m h) Q X.
Proof.
  intros Hm Hh s Hs. specialize (Hm s Hs). unfold tryCatch.
  destruct (m s) as [[a|e] s']; [exact Hm|]. apply (Hh e s' Hm).
Qed.

Lemma preserves_ret {A} (I : S -> Prop) (a : A) : preserves I (mret a).
Proof. apply triple_ret. auto. Qed.

Lemma preserves_bind {A B} (I : S -> Prop) (m : M S A) (f : A -> M S B) :
  preserves I m -> (forall a, preserves I (f a)) -> preserves I (m ≫= f).
Proof. intros Hm Hf. eapply triple_bind; [exact Hm|exact Hf]. Qed.

Lemma preserves_throw {A} (I : S -> Prop) e : preserves I (throw e : M S A).
Proof. intros s Hs. exact Hs. Qed.

Lemma preserves_get (I : S -> Prop) : preserves I get.
Proof. intros s Hs. exact Hs. Qed.

Lemma preserves_modify (I : S -> Prop) f :
  (forall s, I s -> I (f s)) -> preserves I (modify f).
Proof. intros H s Hs. simpl. auto. Qed.

Lemma preserves_liftC {A} (I : S -> Prop) (c : Completion A) :
  preserves I (liftC c).
Proof. intros s Hs. unfold liftC. destruct c; exact Hs. Qed.

Lemma preserves_sleep (I : S -> Prop) ms : preserves I (sleep ms).
Proof. apply preserves_ret. Qed.

Lemma preserves_tryCatch {A} (I : S -> Prop) (m : M S A) h :
  preserves I m -> (forall e, preserves I (h e)) -> preserves I (tryCatch m h).
Proof. intros Hm Hh. eapply triple_tryCatch; [exact Hm|exact Hh]. Qed.

Lemma preserves_tryFinally {A} (I : S -> Prop) (m : M S A) fin :
  preserves I m -> preserves I fin -> preserves I (tryFinally m fin).
Proof.
  intros Hm Hf s Hs. specialize (Hm s Hs). unfold tryFinally.
  destruct (m s) as [[a|e] s'];
    (specialize (Hf s' Hm); destruct (fin s') as [[[]|e'] s'']; exact Hf).
Qed.

Lemma preserves_forOf {A B} (I : S -> Prop) (l : list A) (acc : B) body :
  (forall x b, preserves I (body x b)) -> preserves I (forOf l acc body).
Proof.
  intros Hb. revert acc. induction l as [|x l IH]; intros acc; simpl.
  - apply preserves_ret.
  - apply preserves_bind; [apply Hb|]. intros [b go]. simpl.
    destruct go; [apply IH|apply preserves_ret].
Qed.

Lemma run_bind {A B} (m : M S A) (f : A -> M S B) s :
  (m ≫= f) s =
    match m s with
    | (Normal a, s') => f a s'
    | (Thrown e, s') => (Thrown e, s')
    end.
Proof. reflexivity. Qed.

Lemma forOf_cons {A B} (x : A) (l : list A) (acc : B)
    (body : A -> B -> M S (B * bool)) s :
  forOf (x :: l) acc body s =
    match body x acc s with
    | (Normal (acc', true), s') => forOf l acc' body s'
    | (Normal (acc', false), s') => (Normal acc', s')
    | (Thrown e, s') => (Thrown e, s')
    end.
Proof.
  simpl. rewrite run_bind.
  destruct (body x acc s) as [[[acc' []]|e] s']; reflexivity.
Qed.

Lemma forOf_returns {A B} (l : list A) (acc : B)
    (body : A -> B -> M S (B * bool)) :
  (forall x b s, exists r s', body x b s = (Normal r, s')) ->
  forall s, exists b' s', forOf l acc body s = (Normal b', s').
Proof.
  intros Hbody. revert acc. induction l as [|x l IH]; intros acc s.
  - exists acc, s. reflexivity.
  - rewrite forOf_cons. destruct (Hbody x acc s) as ([b go] & s' & Hrun).
    rewrite Hrun. destruct go; [apply IH|eauto].
Qed.

Lemma forOf_accumulates {A B} (P : B -> Prop) (l : list A) (acc : B)
    (body : A -> B -> M S (B * bool)) :
  (forall x b s r s', P b -> body x b s = (Normal r, s') -> P (fst r)) ->
  P acc ->
  forall s b' s', forOf l acc body s = (Normal b', s') -> P b'.
Proof.
  intros Hbody. revert acc. induction l as [|x l IH]; intros acc Hacc s b' s' Hrun.
  - inversion Hrun; subst. exact Hacc.
  - rewrite forOf_cons in Hrun.
    destruct (body x acc s) as [[[b go]|e] s1] eqn:Hstep; [|discriminate].
    pose proof (Hbody _ _ _ _ _ Hacc Hstep) as Hb. simpl in Hb.
    destruct go.
    + exact (IH b Hb _ _ _ Hrun).
    + inversion Hrun; subst. exact Hb.
Qed.

Lemma run_preserves {A} (I : S -> Prop) (m : M S A) s :
  preserves I m -> I s -> I (snd (m s)).
Proof.
  intros Hm Hs. specialize (Hm s Hs). destruct (m s) as [[a|e] s']; exact Hm.
Qed.

End Logic.

(** Breaking a method into the rules above: [known] closes the calls of
    methods already dealt with, [leaf] the updates of fields. *)
Ltac pres_step :=
  match goal with
  | |- preserves _ (mret _) => apply preserves_ret
  | |- preserves _ (_ ≫= _) => apply preserves_bind
  | |- preserves _ get => apply preserves_get
  | |- preserves _ (throw _) => apply preserves_throw
  | |- preserves _ (liftC _) => apply preserves_liftC
  | |- preserves _ (sleep _) => apply preserves_sleep
  | |- preserves _ (tryCatch _ _) => apply preserves_tryCatch
  | |- preserves _ (tryFinally _ _) => apply preserves_tryFinally
  | |- preserves _ (forOf _ _ _) => apply preserves_forOf
  | |- preserves _ (if ?b then _ else _) => destruct b
  | |- preserves _ (match ?x with _ => _ end) => destruct x
  | |- forall _, _ => intro
  end.

Ltac pres_with known leaf :=
  repeat first [ solve [known] | pres_step | apply preserves_modify; solve [leaf] ].
(** ** The quota edition: the gate and the budget *)

Create HintDb budget.

Section BoundedBudget.
Import Bounded.
Context (W : World) (E : Env).

Lemma checkRateLimit_eq st :
  checkRateLimit W E st =
    let now := clock W (ticks st) in
    let st1 := set_ticks (S (ticks st)) st in
    if hourMs <=? now - hourStartTime st
    then (Normal (0 <? MAX_CALLS_PER_HOUR E),
          set_hourStartTime now (set_apiCallsThisHour 0 st1))
    else (Normal (apiCallsThisHour st <? MAX_CALLS_PER_HOUR E), st1).
Proof.
  unfold checkRateLimit, mbind, M_bind, Date_now, get. simpl.
  destruct (hourMs <=? clock W (ticks st) - hourStartTime st); reflexivity.
Qed.

Lemma checkRateLimit_gate st :
  checkRateLimit W E st = (Normal (gateOpen W E st), afterGate W E st).
Proof.
  unfold gateOpen, afterGate. rewrite checkRateLimit_eq. simpl.
  destruct (hourMs <=? _); reflexivity.
Qed.

Lemma gateOpen_spec st :
  gateOpen W E st = (apiCallsThisHour (afterGate W E st) <? MAX_CALLS_PER_HOUR E).
Proof.
  unfold gateOpen, afterGate. rewrite checkRateLimit_eq. simpl.
  destruct (hourMs <=? _); reflexivity.
Qed.

Lemma afterGate_requests st : requests (afterGate W E st) = requests st.
Proof.
  unfold afterGate. rewrite checkRateLimit_eq. simpl.
  destruct (hourMs <=? _); reflexivity.
Qed.

Lemma fetchWithRateLimit_eq url st :
  fetchWithRateLimit W E url st =
    let st1 := afterGate W E st in
    if gateOpen W E st then
      let used := apiCallsThisHour st1 + 1 in
      let st2 := set_requests (requests st1 ++ [(url, used)])
                   (set_apiCallsThisHour used st1) in
      match upstream W (length (requests st)) url with
      | Json data => (Normal data, st2)
      | r =>
          (Normal VNull,
           set_lastError
             (Some {| time := clock W (ticks st2);
                      errMessage := default "" (failureMessage r);
                      url := Some url |})
             (set_ticks (S (ticks st2)) st2))
      end
    else (Normal VNull, st1).
Proof.
  unfold fetchWithRateLimit, mbind at 1, M_bind at 1.
  rewrite checkRateLimit_gate. simpl.
  destruct (gateOpen W E st); [|reflexivity]. simpl.
  unfold tryCatch, mbind, M_bind, modify, fetch, throw. simpl.
  rewrite afterGate_requests.
  destruct (upstream W (length (requests st)) url); reflexivity.
Qed.

Lemma withinBudget_Date_now : preserves (withinBudget E) (Date_now W).
Proof. intros s [H1 H2]. split; assumption. Qed.

Section Positive.
Hypothesis limit_positive : 0 < MAX_CALLS_PER_HOUR E.

Lemma withinBudget_checkRateLimit : preserves (withinBudget E) (checkRateLimit W E).
Proof.
  intros s [H1 H2]. rewrite checkRateLimit_eq. simpl.
  destruct (hourMs <=? _); split; simpl; auto; lia.
Qed.

Lemma withinBudget_fetchWithRateLimit url :
  preserves (withinBudget E) (fetchWithRateLimit W E url).
Proof.
  intros s Hs. rewrite fetchWithRateLimit_eq.
  pose proof (withinBudget_checkRateLimit s Hs) as Hg.
  rewrite checkRateLimit_gate in Hg. destruct Hg as [Hc Hr].
  pose proof (gateOpen_spec s) as Hopen. cbv zeta.
  destruct (gateOpen W E s); [|split; assumption].
  symmetry in Hopen. apply Z.ltb_lt in Hopen.
  assert (Hr' : Forall (fun r => snd r <= MAX_CALLS_PER_HOUR E)
                  (requests (afterGate W E s)
                     ++ [(url, apiCallsThisHour (afterGate W E s) + 1)])).
  { apply Forall_app. split; [exact Hr|]. constructor; [simpl; lia|constructor]. }
  destruct (upstream W _ url); split; simpl; try exact Hr'; lia.
Qed.

Hint Resolve withinBudget_Date_now withinBudget_checkRateLimit
  withinBudget_fetchWithRateLimit : budget.

Ltac budget_known := eauto 2 with budget.

Ltac budget_leaf :=
  let s := fresh "s" in
  let H := fresh "H" in
  intros s H; destruct H; split; simpl; assumption.

Ltac budget := pres_with budget_known budget_leaf.

Lemma withinBudget_getRemainingCalls :
  preserves (withinBudget E) (getRemainingCalls W E).
Proof. unfold getRemainingCalls. budget. Qed.

Lemma withinBudget_fetchNbaEvents :
  preserves (withinBudget E) (fetchNbaEvents W E).
Proof. unfold fetchNbaEvents. budget. Qed.

Lemma withinBudget_nbaOddsStep eventId bookmaker eventOdds :
  preserves (withinBudget E) (nbaOddsStep W E eventId bookmaker eventOdds).
Proof. unfold nbaOddsStep. budget. Qed.

Hint Resolve withinBudget_getRemainingCalls withinBudget_fetchNbaEvents
  withinBudget_nbaOddsStep : budget.

Lemma withinBudget_fetchNbaOddsForEvent eventId :
  preserves (withinBudget E) (fetchNbaOddsForEvent W E eventId).
Proof. unfold fetchNbaOddsForEvent. budget. Qed.

Hint Resolve withinBudget_fetchNbaOddsForEvent : budget.

Lemma withinBudget_nbaRefreshRound event u :
  preserves (withinBudget E) (nbaRefreshRound W E event u).
Proof. unfold nbaRefreshRound. budget. Qed.

Hint Resolve withinBudget_nbaRefreshRound : budget.

Lemma withinBudget_refreshNbaOdds :
  preserves (withinBudget E) (refreshNbaOdds W E).
Proof. unfold refreshNbaOdds. budget. Qed.

Lemma withinBudget_fetchFootballEvents leagueSlug :
  preserves (withinBudget E) (fetchFootballEvents W E leagueSlug).
Proof. unfold fetchFootballEvents. budget. Qed.

Lemma withinBudget_footballOddsStep eventId bookmaker eventOdds :
  preserves (withinBudget E) (footballOddsStep W E eventId bookmaker eventOdds).
Proof. unfold footballOddsStep. budget. Qed.

Hint Resolve withinBudget_refreshNbaOdds withinBudget_fetchFootballEvents
  withinBudget_footballOddsStep : budget.

Lemma withinBudget_fetchFootballOddsForEvent eventId bookmakers :
  preserves (withinBudget E) (fetchFootballOddsForEvent W E eventId bookmakers).
Proof. unfold fetchFootballOddsForEvent. budget. Qed.

Hint Resolve withinBudget_fetchFootballOddsForEvent : budget.

Lemma withinBudget_leagueRound l u :
  preserves (withinBudget E) (leagueRound W E l u).
Proof. unfold leagueRound. budget. Qed.

Lemma withinBudget_footballRefreshRound event u :
  preserves (withinBudget E) (footballRefreshRound W E event u).
Proof. unfold footballRefreshRound. budget. Qed.

Hint Resolve withinBudget_leagueRound withinBudget_footballRefreshRound : budget.

Lemma withinBudget_refreshFootballOdds :
  preserves (withinBudget E) (refreshFootballOdds W E).
Proof. unfold refreshFootballOdds. budget. Qed.

Hint Resolve withinBudget_refreshFootballOdds : budget.

Lemma withinBudget_refreshAll : preserves (withinBudget E) (refreshAll W E).
Proof. unfold refreshAll, refreshCycle. budget. Qed.

Lemma withinBudget_perform c st :
  withinBudget E st -> withinBudget E (perform W E c st).
Proof.
  intros Hst. destruct c; simpl; apply run_preserves; auto with budget.
  apply withinBudget_refreshAll.
Qed.

Lemma withinBudget_statesAlong calls st :
  withinBudget E st -> Forall (withinBudget E) (statesAlong W E calls st).
Proof.
  revert st. induction calls as [|c calls IH]; intros st Hst; simpl.
  - constructor.
  - pose proof (withinBudget_perform c st Hst) as Hc.
    constructor; [exact Hc|apply IH; exact Hc].
Qed.

End Positive.

Lemma withinBudget_constructor :
  0 < MAX_CALLS_PER_HOUR E -> withinBudget E (constructor W).
Proof. intros H. split; simpl; [lia|constructor]. Qed.

Lemma afterGate_window st :
  let now := clock W (ticks st) in
  (if hourMs <=? now - hourStartTime st
   then apiCallsThisHour (afterGate W E st) = 0
        /\ hourStartTime (afterGate W E st) = now
   else apiCallsThisHour (afterGate W E st) = apiCallsThisHour st
        /\ hourStartTime (afterGate W E st) = hourStartTime st)
  /\ now - hourStartTime (afterGate W E st) < hourMs.
Proof.
  unfold afterGate. rewrite checkRateLimit_eq. simpl.
  destruct (hourMs <=? _) eqn:Hw; simpl.
  - split; [split; reflexivity|]. unfold hourMs. lia.
  - apply Z.leb_gt in Hw. split; [split; reflexivity|exact Hw].
Qed.

Lemma fetchWithRateLimit_budget url st :
  let st1 := afterGate W E st in
  let st' := snd (fetchWithRateLimit W E url st) in
  if gateOpen W E st
  then requests st' = requests st ++ [(url, apiCallsThisHour st1 + 1)]
       /\ apiCallsThisHour st' = apiCallsThisHour st1 + 1
       /\ apiCallsThisHour st1 < MAX_CALLS_PER_HOUR E
  else requests st' = requests st
       /\ apiCallsThisHour st' = apiCallsThisHour st1.
Proof.
  rewrite fetchWithRateLimit_eq. cbv zeta.
  pose proof (gateOpen_spec st) as Hopen.
  pose proof (afterGate_requests st) as Hreq.
  destruct (gateOpen W E st).
  - symmetry in Hopen. apply Z.ltb_lt in Hopen.
    destruct (upstream W _ url); simpl; rewrite Hreq; auto.
  - simpl. auto.
Qed.

Lemma gate_closed_when_exhausted s :
  MAX_CALLS_PER_HOUR E <= apiCallsThisHour s ->
  clock W (ticks s) - hourStartTime s < hourMs ->
  gateOpen W E s = false.
Proof.
  intros Hfull Hwindow. rewrite gateOpen_spec. unfold afterGate.
  rewrite checkRateLimit_eq. simpl.
  apply Z.leb_gt in Hwindow. rewrite Hwindow. simpl.
  apply Z.ltb_ge. exact Hfull.
Qed.

Lemma footballOddsStep_closed eventId bookmaker eventOdds st :
  gateOpen W E st = false ->
  footballOddsStep W E eventId bookmaker eventOdds st
    = (Normal (eventOdds, false), afterGate W E st).
Proof.
  intros Hclosed. unfold footballOddsStep.
  rewrite run_bind, checkRateLimit_gate, Hclosed. reflexivity.
Qed.

Lemma nbaOddsStep_closed eventId bookmaker eventOdds st :
  gateOpen W E st = false ->
  nbaOddsStep W E eventId bookmaker eventOdds st
    = (Normal (eventOdds, false), afterGate W E st).
Proof.
  intros Hclosed. unfold nbaOddsStep. rewrite run_bind, checkRateLimit_gate, Hclosed.
  reflexivity.
Qed.

Lemma fetchNbaOddsForEvent_eq eventId st :
  fetchNbaOddsForEvent W E eventId st =
    let st0 := set_ticks (S (ticks st))
                 (set_oddsFetches
                    (oddsFetches st ++ [(eventId, apiCallsThisHour st)]) st) in
    match forOf NBA_BOOKMAKERS (emptySnapshot (clock W (ticks st)))
            (nbaOddsStep W E eventId) st0 with
    | (Normal eventOdds, st1) =>
        (Normal eventOdds,
         set_nbaOdds (<[toString eventId := eventOdds]> (nbaOdds st1)) st1)
    | (Thrown e, st1) => (Thrown e, st1)
    end.
Proof. reflexivity. Qed.

(** C2, as the code has it.  With a positive limit, however the methods
    are called, [apiCallsThisHour] never exceeds [MAX_CALLS_PER_HOUR],
    neither between calls nor at the moment a request leaves.  Whatever
    the limit, the gate [checkRateLimit] sets the counter to 0 and
    [hourStartTime] to now when a full hour has passed, and leaves both
    alone otherwise; after it the hour has not passed at that same
    reading of the clock, so a window is reset once.  It answers
    whether the counter is below the limit after that, and
    [fetchWithRateLimit] sends its request exactly when the answer is
    yes. *)
Theorem C2_call_budget_never_exceeded :
  (0 < MAX_CALLS_PER_HOUR E ->
   withinBudget E (constructor W)
   /\ (forall st calls,
         withinBudget E st -> Forall (withinBudget E) (statesAlong W E calls st)))
  /\ (forall st,
        let now := clock W (ticks st) in
        let st' := afterGate W E st in
        checkRateLimit W E st
          = (Normal (apiCallsThisHour st' <? MAX_CALLS_PER_HOUR E), st')
        /\ (if hourMs <=? now - hourStartTime st
            then apiCallsThisHour st' = 0 /\ hourStartTime st' = now
            else apiCallsThisHour st' = apiCallsThisHour st
                 /\ hourStartTime st' = hourStartTime st)
        /\ now - hourStartTime st' < hourMs)
  /\ (forall st url,
        let st1 := afterGate W E st in
        let st' := snd (fetchWithRateLimit W E url st) in
        if apiCallsThisHour st1 <? MAX_CALLS_PER_HOUR E
        then requests st' = requests st ++ [(url, apiCallsThisHour st1 + 1)]
             /\ apiCallsThisHour st' = apiCallsThisHour st1 + 1
        else requests st' = requests st
             /\ apiCallsThisHour st' = apiCallsThisHour st1).
Proof.
  split.
  { intros Hpos. split; [apply withinBudget_constructor; exact Hpos|].
    intros st calls. apply withinBudget_statesAlong. exact Hpos. }
  split.
  - intros st now st'. split.
    + subst st'. rewrite checkRateLimit_gate, gateOpen_spec. reflexivity.
    + apply afterGate_window.
  - intros st url st1 st'. subst st1 st'.
    pose proof (fetchWithRateLimit_budget url st) as H. cbv zeta in H.
    rewrite <- gateOpen_spec. destruct (gateOpen W E st); tauto.
Qed.

(** C10.  A request that passes the gate leaves with the counter
    already one higher, and the counter stays there whatever the
    provider answers: a failed call costs what a successful one
    costs. *)
Theorem C10_failed_call_consumes_budget url st :
  gateOpen W E st = true ->
  let st1 := afterGate W E st in
  let st' := snd (fetchWithRateLimit W E url st) in
  requests st' = requests st ++ [(url, apiCallsThisHour st1 + 1)]
  /\ apiCallsThisHour st' = apiCallsThisHour st1 + 1
  /\ (forall reason,
        failureMessage (upstream W (length (requests st)) url) = Some reason ->
        fst (fetchWithRateLimit W E url st) = Normal VNull
        /\ exists stamp,
             lastError st'
               = Some {| time := stamp; errMessage := reason; url := Some url |}).
Proof.
  intros Hopen st1 st'. subst st1 st'.
  pose proof (fetchWithRateLimit_budget url st) as H. cbv zeta in H.
  rewrite Hopen in H. destruct H as (Hr & Hc & _).
  split; [exact Hr|]. split; [exact Hc|].
  intros reason Hfail. rewrite fetchWithRateLimit_eq, Hopen. cbv zeta.
  destruct (upstream W (length (requests st)) url); simpl in *;
    try discriminate; inversion Hfail; subst; (split; [reflexivity|eauto]).
Qed.


End BoundedBudget.

(** C2 at work: limit 5, no network, two full refreshes and one more
    fetch. *)
Lemma C2_call_budget_never_exceeded_witness :
  0 < Bounded.MAX_CALLS_PER_HOUR Scenario.boundedFive
  /\ Forall (Bounded.withinBudget Scenario.boundedFive)
       (Bounded.statesAlong Scenario.offline Scenario.boundedFive
          [Bounded.CallRefreshAll; Bounded.CallRefreshAll;
           Bounded.CallFetchWithRateLimit "https://provider.test/odds"]
          (Bounded.constructor Scenario.offline)).
Proof.
  assert (Hpos : 0 < Bounded.MAX_CALLS_PER_HOUR Scenario.boundedFive)
    by reflexivity.
  split; [exact Hpos|].
  destruct (proj1 (C2_call_budget_never_exceeded Scenario.offline
                     Scenario.boundedFive) Hpos)
    as (Hstart & Hcalls).
  apply Hcalls. exact Hstart.
Defined.

(** C2 as stated fails: [MAX_CALLS_PER_HOUR=-3] is a setting that
    [parseInt(...) || 5000] keeps, and the counter of the fresh object,
    0, is above that limit before any call; it stays above it, a refresh
    sending no request at all. *)
Lemma C2_counterexample_negative_limit :
  Bounded.MAX_CALLS_PER_HOUR Scenario.boundedNegative = -3
  /\ Bounded.apiCallsThisHour (Bounded.constructor Scenario.offline) = 0
  /\ Bounded.MAX_CALLS_PER_HOUR Scenario.boundedNegative
     < Bounded.apiCallsThisHour (Bounded.constructor Scenario.offline)
  /\ (let st' := Bounded.perform Scenario.offline Scenario.boundedNegative
                   Bounded.CallRefreshAll (Bounded.constructor Scenario.offline) in
      Bounded.requests st' = []
      /\ Bounded.MAX_CALLS_PER_HOUR Scenario.boundedNegative
         < Bounded.apiCallsThisHour st').
Proof. vm_compute. repeat split; reflexivity. Qed.

(** C10 at work: the first request of a fresh object fails, and is
    counted. *)
Lemma C10_failed_call_consumes_budget_witness :
  Bounded.gateOpen Scenario.offline Scenario.boundedFive
    (Bounded.constructor Scenario.offline) = true
  /\ failureMessage (upstream Scenario.offline 0 "https://provider.test/odds")
     = Some "fetch failed"
  /\ Bounded.apiCallsThisHour
       (snd (Bounded.fetchWithRateLimit Scenario.offline Scenario.boundedFive
               "https://provider.test/odds" (Bounded.constructor Scenario.offline)))
     = 1.
Proof.
  assert (Hopen : Bounded.gateOpen Scenario.offline Scenario.boundedFive
                    (Bounded.constructor Scenario.offline) = true)
    by reflexivity.
  split; [exact Hopen|]. split; [reflexivity|].
  pose proof (C10_failed_call_consumes_budget Scenario.offline Scenario.boundedFive
                "https://provider.test/odds" (Bounded.constructor Scenario.offline)
                Hopen) as H.
  cbv zeta in H. destruct H as (_ & Hcount & _).
  rewrite Hcount. reflexivity.
Defined.


(** ** The single-flight guard of [refreshAll] *)

Section SingleFlight.
Context (W : World) (EB : Bounded.Env) (EO : Optic.Env).

(** The state in which the [try] of the bounded [refreshAll] starts:
    the flag is up and the remaining calls were computed for the log. *)
Lemma bounded_getRemainingCalls_eq st :
  Bounded.getRemainingCalls W EB st
  = (Normal (Bounded.MAX_CALLS_PER_HOUR EB
             - Bounded.apiCallsThisHour (Bounded.afterGate W EB st)),
     Bounded.afterGate W EB st).
Proof.
  unfold Bounded.getRemainingCalls. rewrite run_bind, checkRateLimit_gate.
  reflexivity.
Qed.

Lemma bounded_refreshAll_eq st :
  Bounded.refreshAll W EB st =
    if Bounded.isRefreshing st then (Normal tt, st)
    else
      let s0 := Bounded.afterGate W EB (Bounded.set_isRefreshing true st) in
      match Bounded.refreshCycle W EB s0 with
      | (Normal _, s1) => (Normal tt, Bounded.set_isRefreshing false s1)
      | (Thrown e, s1) =>
          (Normal tt,
           Bounded.set_isRefreshing false
             (Bounded.set_lastError
                (Some {| time := clock W (Bounded.ticks s1);
                         errMessage := message e; url := None |})
                (Bounded.set_ticks (S (Bounded.ticks s1)) s1)))
      end.
Proof.
  unfold Bounded.refreshAll. rewrite run_bind. unfold get at 1.
  destruct (Bounded.isRefreshing st); [reflexivity|].
  rewrite run_bind. unfold modify at 1.
  rewrite run_bind, bounded_getRemainingCalls_eq. cbv zeta.
  unfold tryFinally, tryCatch.
  destruct (Bounded.refreshCycle W EB _) as [[[]|e] s1]; reflexivity.
Qed.

Lemma optic_refreshAll_eq st :
  Optic.refreshAll W EO st =
    if Optic.isRefreshing st then (Normal tt, st)
    else
      match Optic.refreshCycle W EO (Optic.set_isRefreshing true st) with
      | (Normal _, s1) => (Normal tt, Optic.set_isRefreshing false s1)
      | (Thrown e, s1) =>
          (Normal tt,
           Optic.set_isRefreshing false
             (Optic.set_lastError
                (Some {| time := clock W (Optic.ticks s1);
                         errMessage := message e; url := None |})
                (Optic.set_ticks (S (Optic.ticks s1)) s1)))
      end.
Proof.
  unfold Optic.refreshAll. rewrite run_bind. unfold get at 1.
  destruct (Optic.isRefreshing st); [reflexivity|].
  rewrite run_bind. unfold modify at 1.
  unfold tryFinally, tryCatch.
  destruct (Optic.refreshCycle W EO _) as [[[]|e] s1]; reflexivity.
Qed.

(** C1.  In both editions a [refreshAll] entered with [isRefreshing] up
    returns at once and leaves the whole object as it was: collections,
    maps, timestamps, counter, and the record of requests sent.  So a
    [refreshAll] that changes anything was entered with the flag down. *)
Theorem C1_refreshAll_is_noop_while_refreshing :
  (forall st, Bounded.isRefreshing st = true ->
     Bounded.refreshAll W EB st = (Normal tt, st))
  /\ (forall st, Optic.isRefreshing st = true ->
        Optic.refreshAll W EO st = (Normal tt, st))
  /\ (forall st, snd (Bounded.refreshAll W EB st) <> st ->
        Bounded.isRefreshing st = false)
  /\ (forall st, snd (Optic.refreshAll W EO st) <> st ->
        Optic.isRefreshing st = false).
Proof.
  repeat split.
  - intros st H. rewrite bounded_refreshAll_eq, H. reflexivity.
  - intros st H. rewrite optic_refreshAll_eq, H. reflexivity.
  - intros st H. rewrite bounded_refreshAll_eq in H.
    destruct (Bounded.isRefreshing st); [|reflexivity].
    exfalso. apply H. reflexivity.
  - intros st H. rewrite optic_refreshAll_eq in H.
    destruct (Optic.isRefreshing st); [|reflexivity].
    exfalso. apply H. reflexivity.
Qed.

(** C3.  In both editions a [refreshAll] that passes the guard returns
    normally with [isRefreshing] down again.  When its cycle throws, the
    error goes no further: it is in [lastError], with the time of the
    catch and the error's message. *)
Theorem C3_refreshAll_ends_idle_and_contains_errors :
  (forall st, Bounded.isRefreshing st = false ->
     exists st',
       Bounded.refreshAll W EB st = (Normal tt, st')
       /\ Bounded.isRefreshing st' = false
       /\ forall e s1,
            Bounded.refreshCycle W EB
              (Bounded.afterGate W EB (Bounded.set_isRefreshing true st))
              = (Thrown e, s1) ->
            Bounded.lastError st'
              = Some {| time := clock W (Bounded.ticks s1);
                        errMessage := message e; url := None |})
  /\ (forall st, Optic.isRefreshing st = false ->
        exists st',
          Optic.refreshAll W EO st = (Normal tt, st')
          /\ Optic.isRefreshing st' = false
          /\ forall e s1,
               Optic.refreshCycle W EO (Optic.set_isRefreshing true st)
                 = (Thrown e, s1) ->
               Optic.lastError st'
                 = Some {| time := clock W (Optic.ticks s1);
                           errMessage := message e; url := None |}).
Proof.
  split.
  - intros st H. rewrite bounded_refreshAll_eq, H. cbv zeta.
    destruct (Bounded.refreshCycle W EB _) as [[[]|e] s1]; eexists;
      (split; [reflexivity|]); (split; [reflexivity|]);
      intros e' s1' Heq; inversion Heq; subst; reflexivity.
  - intros st H. rewrite optic_refreshAll_eq, H.
    destruct (Optic.refreshCycle W EO _) as [[[]|e] s1]; eexists;
      (split; [reflexivity|]); (split; [reflexivity|]);
      intros e' s1' Heq; inversion Heq; subst; reflexivity.
Qed.

End SingleFlight.

(** C1 at work: a second trigger while a refresh is running, in each
    edition; and a trigger that does change the object, which found it
    idle. *)
Lemma C1_refreshAll_is_noop_while_refreshing_witness :
  (Bounded.isRefreshing
     (Bounded.set_isRefreshing true (Bounded.constructor Scenario.offline)) = true
   /\ Bounded.refreshAll Scenario.offline Scenario.boundedDefaults
        (Bounded.set_isRefreshing true (Bounded.constructor Scenario.offline))
      = (Normal tt,
         Bounded.set_isRefreshing true (Bounded.constructor Scenario.offline)))
  /\ (Optic.isRefreshing
        (Optic.set_isRefreshing true Optic.constructor) = true
      /\ Optic.refreshAll Scenario.offline Scenario.opticKeyed
           (Optic.set_isRefreshing true Optic.constructor)
         = (Normal tt, Optic.set_isRefreshing true Optic.constructor))
  /\ (snd (Bounded.refreshAll Scenario.offline Scenario.boundedDefaults
             (Bounded.constructor Scenario.offline))
      <> Bounded.constructor Scenario.offline
      /\ Bounded.isRefreshing (Bounded.constructor Scenario.offline) = false).
Proof.
  destruct (C1_refreshAll_is_noop_while_refreshing
              Scenario.offline Scenario.boundedDefaults Scenario.opticKeyed)
    as (Hb & Ho & Hb' & _).
  split; [|split].
  - split; [reflexivity|]. apply Hb. reflexivity.
  - split; [reflexivity|]. apply Ho. reflexivity.
  - assert (Hchanged : snd (Bounded.refreshAll Scenario.offline
                              Scenario.boundedDefaults
                              (Bounded.constructor Scenario.offline))
                       <> Bounded.constructor Scenario.offline)
      by (vm_compute; discriminate).
    split; [exact Hchanged|]. apply Hb'. exact Hchanged.
Defined.

(** C3 at work: the provider sends [[null]] for the NBA events, reading
    the entry's date throws inside the cycle, and [refreshAll] still
    returns, idle, with the error recorded. *)
Lemma C3_refreshAll_ends_idle_and_contains_errors_witness :
  Bounded.isRefreshing (Bounded.constructor Scenario.nullFixture) = false
  /\ exists st',
       Bounded.refreshAll Scenario.nullFixture Scenario.boundedDefaults
         (Bounded.constructor Scenario.nullFixture) = (Normal tt, st')
       /\ Bounded.isRefreshing st' = false
       /\ Bounded.lastError st'
          = Some {| time := 1006;
                    errMessage := "Cannot read properties of null (reading 'date')";
                    url := None |}.
Proof.
  split; [reflexivity|].
  destruct (C3_refreshAll_ends_idle_and_contains_errors
              Scenario.nullFixture Scenario.boundedDefaults Scenario.opticKeyed)
    as (Hb & _).
  destruct (Hb (Bounded.constructor Scenario.nullFixture) eq_refl)
    as (st' & Hrun & Hidle & Herr).
  exists st'. split; [exact Hrun|]. split; [exact Hidle|].
  assert (Hcycle : exists e s1,
             Bounded.refreshCycle Scenario.nullFixture Scenario.boundedDefaults
               (Bounded.afterGate Scenario.nullFixture Scenario.boundedDefaults
                  (Bounded.set_isRefreshing true
                     (Bounded.constructor Scenario.nullFixture)))
               = (Thrown e, s1)
             /\ clock Scenario.nullFixture (Bounded.ticks s1) = 1006
             /\ message e = "Cannot read properties of null (reading 'date')").
  { vm_compute. eexists _, _. split; [reflexivity|]. split; reflexivity. }
  destruct Hcycle as (e & s1 & Hc & Ht & Hm).
  rewrite (Herr e s1 Hc), Ht, Hm. reflexivity.
Defined.

(** ** Merging bookmakers into a snapshot *)

Section Merge.
Context (W : World) (EB : Bounded.Env).

Lemma getProp_truthy v k : truthy v = true -> getProp v k = Normal (prop v k).
Proof. intros H. destruct v; try discriminate; reflexivity. Qed.

Lemma insert_keeps_keys {V : Type} (k : string) (v : V) (m : gmap string V) :
  dom m ⊆ dom (<[k := v]> m) /\ (size m <= size (<[k := v]> m))%nat.
Proof.
  assert (H : dom m ⊆ dom (<[k := v]> m)) by (rewrite dom_insert_L; set_solver).
  split; [exact H|]. rewrite <- !size_dom. apply subseteq_size. exact H.
Qed.

Lemma mergeNbaOdds_keeps_keys data bookmaker eventOdds :
  exists eventOdds',
    Bounded.mergeNbaOdds data bookmaker eventOdds = Normal eventOdds'
    /\ dom (Bounded.bookmakers eventOdds) ⊆ dom (Bounded.bookmakers eventOdds')
    /\ (size (Bounded.bookmakers eventOdds)
        <= size (Bounded.bookmakers eventOdds'))%nat.
Proof.
  unfold Bounded.mergeNbaOdds.
  destruct (truthy data) eqn:Hd; [|exists eventOdds; auto].
  rewrite !(getProp_truthy data) by exact Hd. simpl.
  destruct (truthy (prop data "bookmakers")) eqn:Hb; [|exists eventOdds; auto].
  rewrite (getProp_truthy _ _ Hb). simpl.
  destruct (truthy (prop (prop data "bookmakers") bookmaker));
    [|exists eventOdds; auto].
  eexists. split; [reflexivity|]. simpl. apply insert_keeps_keys.
Qed.

Lemma mergeFootballOdds_keeps_keys data bookmaker eventOdds :
  exists eventOdds',
    Bounded.mergeFootballOdds data bookmaker eventOdds = Normal eventOdds'
    /\ dom (Bounded.bookmakers eventOdds) ⊆ dom (Bounded.bookmakers eventOdds')
    /\ (size (Bounded.bookmakers eventOdds)
        <= size (Bounded.bookmakers eventOdds'))%nat.
Proof.
  unfold Bounded.mergeFootballOdds.
  destruct (truthy data) eqn:Hd; [|exists eventOdds; auto].
  rewrite !(getProp_truthy data) by exact Hd. simpl.
  destruct (truthy (prop data "bookmakers")) eqn:Hb; [|exists eventOdds; auto].
  rewrite (getProp_truthy _ _ Hb). simpl.
  destruct (truthy (prop (prop data "bookmakers") bookmaker));
    [|exists eventOdds; auto].
  eexists. split; [reflexivity|]. simpl. apply insert_keeps_keys.
Qed.

Lemma fetchWithRateLimit_returns url st :
  exists data, fst (Bounded.fetchWithRateLimit W EB url st) = Normal data.
Proof.
  rewrite fetchWithRateLimit_eq. cbv zeta.
  destruct (Bounded.gateOpen W EB st); [|eauto].
  destruct (upstream W _ url); eauto.
Qed.

Lemma nbaOddsStep_keeps_keys eventId bookmaker eventOdds st :
  exists eventOdds' go st',
    Bounded.nbaOddsStep W EB eventId bookmaker eventOdds st
      = (Normal (eventOdds', go), st')
    /\ dom (Bounded.bookmakers eventOdds) ⊆ dom (Bounded.bookmakers eventOdds')
    /\ (size (Bounded.bookmakers eventOdds)
        <= size (Bounded.bookmakers eventOdds'))%nat.
Proof.
  unfold Bounded.nbaOddsStep. rewrite run_bind, checkRateLimit_gate.
  destruct (Bounded.gateOpen W EB st); simpl; [|exists eventOdds; eauto].
  rewrite run_bind.
  destruct (fetchWithRateLimit_returns (Bounded.oddsUrl EB eventId bookmaker)
              (Bounded.afterGate W EB st)) as (data & Hdata).
  destruct (Bounded.fetchWithRateLimit W EB _ _) as [r st1]. simpl in Hdata.
  subst r. rewrite run_bind. unfold liftC.
  destruct (mergeNbaOdds_keeps_keys data bookmaker eventOdds)
    as (eventOdds' & Hm & Hkeys).
  rewrite Hm. exists eventOdds'. eauto.
Qed.

Lemma footballOddsStep_keeps_keys eventId bookmaker eventOdds st :
  exists eventOdds' go st',
    Bounded.footballOddsStep W EB eventId bookmaker eventOdds st
      = (Normal (eventOdds', go), st')
    /\ dom (Bounded.bookmakers eventOdds) ⊆ dom (Bounded.bookmakers eventOdds')
    /\ (size (Bounded.bookmakers eventOdds)
        <= size (Bounded.bookmakers eventOdds'))%nat.
Proof.
  unfold Bounded.footballOddsStep. rewrite run_bind, checkRateLimit_gate.
  destruct (Bounded.gateOpen W EB st); simpl; [|exists eventOdds; eauto].
  rewrite run_bind.
  destruct (fetchWithRateLimit_returns (Bounded.oddsUrl EB eventId bookmaker)
              (Bounded.afterGate W EB st)) as (data & Hdata).
  destruct (Bounded.fetchWithRateLimit W EB _ _) as [r st1]. simpl in Hdata.
  subst r. rewrite run_bind. unfold liftC.
  destruct (mergeFootballOdds_keeps_keys data bookmaker eventOdds)
    as (eventOdds' & Hm & Hkeys).
  rewrite Hm. exists eventOdds'. eauto.
Qed.

Lemma oddStep_keeps_keys odd eventOdds eventOdds' :
  Optic.oddStep odd eventOdds = Normal eventOdds' ->
  dom (Optic.bookmakers eventOdds) ⊆ dom (Optic.bookmakers eventOdds')
  /\ (size (Optic.bookmakers eventOdds)
      <= size (Optic.bookmakers eventOdds'))%nat.
Proof.
  unfold Optic.oddStep.
  destruct (nullish odd) eqn:Hodd.
  { unfold getProp. rewrite Hodd. discriminate. }
  assert (Hread : forall k, getProp odd k = Normal (prop odd k)).
  { intros k. unfold getProp. rewrite Hodd. reflexivity. }
  rewrite !Hread. simpl.
  destruct (inherited (toString (prop odd "sportsbook"))); [discriminate|].
  destruct (inherited (toString (prop odd "market"))); [discriminate|].
  intros H. inversion H; subst. simpl. apply insert_keeps_keys.
Qed.

Lemma mergeOdds_keeps_keys odds eventOdds eventOdds' :
  Optic.mergeOdds odds eventOdds = Normal eventOdds' ->
  dom (Optic.bookmakers eventOdds) ⊆ dom (Optic.bookmakers eventOdds')
  /\ (size (Optic.bookmakers eventOdds)
      <= size (Optic.bookmakers eventOdds'))%nat.
Proof.
  revert eventOdds. induction odds as [|odd odds IH]; intros eventOdds; simpl.
  - intros H. inversion H; subst. split; [reflexivity|lia].
  - destruct (Optic.oddStep odd eventOdds) as [mid|e] eqn:Hstep; simpl;
      [|discriminate].
    intros H. destruct (oddStep_keeps_keys _ _ _ Hstep) as [Hd Hs].
    pose proof (IH _ H) as [Hd' Hs'].
    split; [transitivity (dom (Optic.bookmakers mid)); assumption|lia].
Qed.

(** C9.  No round of the merge removes a bookmaker from the snapshot
    under construction: when a round of the loop over the bookmakers (in
    the bounded edition, NBA and football) or a round of the loop over
    the odds received (in the other edition) is over, every key that
    was there is still there, so the number of keys has not gone down.
    A round that throws leaves no snapshot at all. *)
Theorem C9_bookmaker_keys_never_decrease :
  (forall eventId bookmaker eventOdds st,
     match Bounded.nbaOddsStep W EB eventId bookmaker eventOdds st with
     | (Normal (eventOdds', _), _) =>
         dom (Bounded.bookmakers eventOdds) ⊆ dom (Bounded.bookmakers eventOdds')
         /\ (size (Bounded.bookmakers eventOdds)
             <= size (Bounded.bookmakers eventOdds'))%nat
     | (Thrown _, _) => True
     end)
  /\ (forall eventId bookmaker eventOdds st,
        match Bounded.footballOddsStep W EB eventId bookmaker eventOdds st with
        | (Normal (eventOdds', _), _) =>
            dom (Bounded.bookmakers eventOdds)
              ⊆ dom (Bounded.bookmakers eventOdds')
            /\ (size (Bounded.bookmakers eventOdds)
                <= size (Bounded.bookmakers eventOdds'))%nat
        | (Thrown _, _) => True
        end)
  /\ (forall odd eventOdds,
        match Optic.oddStep odd eventOdds with
        | Normal eventOdds' =>
            dom (Optic.bookmakers eventOdds) ⊆ dom (Optic.bookmakers eventOdds')
            /\ (size (Optic.bookmakers eventOdds)
                <= size (Optic.bookmakers eventOdds'))%nat
        | Thrown _ => True
        end).
Proof.
  split.
  { intros eventId bookmaker eventOdds st.
    destruct (nbaOddsStep_keeps_keys eventId bookmaker eventOdds st)
      as (eventOdds' & go & st' & Hstep & Hkeys).
    rewrite Hstep. exact Hkeys. }
  split.
  { intros eventId bookmaker eventOdds st.
    destruct (footballOddsStep_keeps_keys eventId bookmaker eventOdds st)
      as (eventOdds' & go & st' & Hstep & Hkeys).
    rewrite Hstep. exact Hkeys. }
  intros odd eventOdds.
  destruct (Optic.oddStep odd eventOdds) as [eventOdds'|e] eqn:Hstep; [|exact I].
  exact (oddStep_keeps_keys _ _ _ Hstep).
Qed.

End Merge.

(** C9 at work: the round for Kambi of a fresh object receives the odds
    of Kambi, and the snapshot, empty before, has one key after it. *)
Lemma C9_bookmaker_keys_never_decrease_witness :
  let before := Bounded.emptySnapshot 1000 in
  exists after go st',
    Bounded.nbaOddsStep Scenario.oddsOnce Scenario.boundedDefaults (VStr "E1")
      "Kambi" before (Bounded.constructor Scenario.oddsOnce)
      = (Normal (after, go), st')
    /\ dom (Bounded.bookmakers before) ⊆ dom (Bounded.bookmakers after)
    /\ (size (Bounded.bookmakers before) <= size (Bounded.bookmakers after))%nat
    /\ size (Bounded.bookmakers before) = 0%nat
    /\ size (Bounded.bookmakers after) = 1%nat.
Proof.
  intros before.
  pose proof (proj1 (C9_bookmaker_keys_never_decrease Scenario.oddsOnce
                       Scenario.boundedDefaults)
                (VStr "E1") "Kambi" before
                (Bounded.constructor Scenario.oddsOnce)) as Hkeys.
  destruct (Bounded.nbaOddsStep Scenario.oddsOnce Scenario.boundedDefaults
              (VStr "E1") "Kambi" before (Bounded.constructor Scenario.oddsOnce))
    as [[[after go]|e] st'] eqn:Hstep.
  - exists after, go, st'. split; [reflexivity|].
    destruct Hkeys as [Hdom Hsize]. split; [exact Hdom|]. split; [exact Hsize|].
    split; [reflexivity|].
    assert (Hafter : after = fst (match Bounded.nbaOddsStep Scenario.oddsOnce
                                          Scenario.boundedDefaults (VStr "E1")
                                          "Kambi" before
                                          (Bounded.constructor Scenario.oddsOnce)
                                  with
                                  | (Normal r, _) => r
                                  | (Thrown _, _) => (before, false)
                                  end))
      by (rewrite Hstep; reflexivity).
    rewrite Hafter. vm_compute. reflexivity.
  - exfalso. vm_compute in Hstep. discriminate Hstep.
Defined.

(** ** Fetching the events *)

Section Events.
Context (W : World) (EB : Bounded.Env) (EO : Optic.Env).

Lemma fetchApi_eq url st :
  Optic.fetchApi W EO url st =
    if String.eqb (Optic.OPTIC_API_KEY EO) "" then
      (Normal VNull,
       Optic.set_lastError
         (Some {| time := clock W (Optic.ticks st);
                  errMessage := "API key not configured"; url := None |})
         (Optic.set_ticks (S (Optic.ticks st)) st))
    else
      let used := Optic.apiCallCount st + 1 in
      let st2 := Optic.set_requests (Optic.requests st ++ [(url, used)])
                   (Optic.set_apiCallCount used st) in
      match upstream W (length (Optic.requests st)) url with
      | Json data => (Normal data, st2)
      | r =>
          (Normal VNull,
           Optic.set_lastError
             (Some {| time := clock W (Optic.ticks st2);
                      errMessage := default "" (failureMessage r);
                      url := Some url |})
             (Optic.set_ticks (S (Optic.ticks st2)) st2))
      end.
Proof.
  unfold Optic.fetchApi. destruct (String.eqb _ ""); [reflexivity|].
  unfold tryCatch, mbind, M_bind, modify, Optic.fetch, throw. simpl.
  destruct (upstream W (length (Optic.requests st)) url); reflexivity.
Qed.

Lemma bounded_fetchNbaEvents_eq st :
  Bounded.fetchNbaEvents W EB st =
    match Bounded.fetchWithRateLimit W EB (Bounded.nbaEventsUrl W EB st)
            (Bounded.afterClock st) with
    | (Normal data, st1) =>
        if truthy data && isArray data
        then (Normal (items data),
              Bounded.set_lastNbaEventsUpdate (Some (clock W (Bounded.ticks st1)))
                (Bounded.set_ticks (S (Bounded.ticks st1))
                   (Bounded.set_nbaEvents (items data) st1)))
        else (Normal (Bounded.nbaEvents st1), st1)
    | (Thrown e, st1) => (Thrown e, st1)
    end.
Proof.
  unfold Bounded.fetchNbaEvents. rewrite run_bind. unfold Bounded.Date_now at 1.
  rewrite run_bind. fold (Bounded.afterClock st). fold (Bounded.nbaEventsUrl W EB st).
  destruct (Bounded.fetchWithRateLimit W EB _ _) as [[data|e] st1]; [|reflexivity].
  rewrite run_bind. destruct (truthy data && isArray data); reflexivity.
Qed.

Lemma optic_fetchNbaEvents_eq st :
  Optic.fetchNbaEvents W EO st =
    match Optic.fetchApi W EO Optic.nbaEventsUrl st with
    | (Normal data, st1) =>
        if truthy data && truthy (prop data "data") && isArray (prop data "data")
        then
          match Optic.mapEvents "nba" (items (prop data "data")) with
          | Normal events =>
              (Normal events,
               Optic.set_lastNbaEventsUpdate (Some (clock W (Optic.ticks st1)))
                 (Optic.set_ticks (S (Optic.ticks st1))
                    (Optic.set_nbaEvents events st1)))
          | Thrown e => (Thrown e, st1)
          end
        else (Normal (Optic.nbaEvents st1), st1)
    | (Thrown e, st1) => (Thrown e, st1)
    end.
Proof.
  unfold Optic.fetchNbaEvents. rewrite run_bind. fold Optic.nbaEventsUrl.
  destruct (Optic.fetchApi W EO _ _) as [[data|e] st1]; [|reflexivity].
  rewrite run_bind. destruct (truthy data) eqn:Hd; [|reflexivity]. simpl.
  rewrite run_bind. unfold liftC at 1. rewrite (getProp_truthy _ _ Hd).
  destruct (truthy (prop data "data") && isArray (prop data "data"));
    [|reflexivity].
  rewrite run_bind. unfold liftC at 1.
  destruct (Optic.mapEvents "nba" _); reflexivity.
Qed.

(** The three ways a request can fail. *)
Lemma failure_cases r :
  (exists data, r = Json data) \/ (exists reason, failureMessage r = Some reason).
Proof. destruct r; simpl; eauto. Qed.

Lemma bounded_fetchNbaEvents_failure st reason :
  Bounded.gateOpen W EB (Bounded.afterClock st) = true ->
  failureMessage (Bounded.nbaEventsAnswer W EB st) = Some reason ->
  let st' := snd (Bounded.fetchNbaEvents W EB st) in
  Bounded.nbaEvents st' = Bounded.nbaEvents st
  /\ Bounded.lastNbaEventsUpdate st' = Bounded.lastNbaEventsUpdate st
  /\ Bounded.lastError st'
     = Some {| time := clock W (S (S (Bounded.ticks st)));
               errMessage := reason;
               url := Some (Bounded.nbaEventsUrl W EB st) |}.
Proof.
  intros Hopen Hfail. cbv zeta.
  rewrite bounded_fetchNbaEvents_eq, fetchWithRateLimit_eq, Hopen. cbv zeta.
  unfold Bounded.nbaEventsAnswer in Hfail. simpl (Bounded.requests _).
  unfold Bounded.afterGate. rewrite checkRateLimit_eq.
  destruct (upstream W _ _); simpl in Hfail; try discriminate;
    inversion Hfail; subst; simpl;
    destruct (hourMs <=? _); simpl; auto.
Qed.

Lemma bounded_fetchNbaEvents_json st data :
  Bounded.gateOpen W EB (Bounded.afterClock st) = true ->
  Bounded.nbaEventsAnswer W EB st = Json data ->
  let st' := snd (Bounded.fetchNbaEvents W EB st) in
  if truthy data && isArray data
  then Bounded.nbaEvents st' = items data
       /\ Bounded.lastNbaEventsUpdate st'
          = Some (clock W (S (S (Bounded.ticks st))))
  else Bounded.nbaEvents st' = Bounded.nbaEvents st
       /\ Bounded.lastNbaEventsUpdate st' = Bounded.lastNbaEventsUpdate st
       /\ Bounded.lastError st' = Bounded.lastError st.
Proof.
  intros Hopen Hjson. cbv zeta.
  rewrite bounded_fetchNbaEvents_eq, fetchWithRateLimit_eq, Hopen. cbv zeta.
  unfold Bounded.nbaEventsAnswer in Hjson. simpl (Bounded.requests _).
  rewrite Hjson. unfold Bounded.afterGate. rewrite checkRateLimit_eq.
  destruct (truthy data && isArray data); simpl;
    destruct (hourMs <=? _); simpl; auto.
Qed.

Lemma optic_fetchNbaEvents_failure st reason :
  Optic.OPTIC_API_KEY EO <> "" ->
  failureMessage (Optic.nbaEventsAnswer W st) = Some reason ->
  let st' := snd (Optic.fetchNbaEvents W EO st) in
  Optic.nbaEvents st' = Optic.nbaEvents st
  /\ Optic.lastNbaEventsUpdate st' = Optic.lastNbaEventsUpdate st
  /\ Optic.lastError st'
     = Some {| time := clock W (Optic.ticks st); errMessage := reason;
               url := Some Optic.nbaEventsUrl |}.
Proof.
  intros Hkey Hfail. cbv zeta. rewrite optic_fetchNbaEvents_eq, fetchApi_eq.
  apply String.eqb_neq in Hkey. rewrite Hkey. cbv zeta.
  unfold Optic.nbaEventsAnswer in Hfail.
  destruct (upstream W _ _); simpl in Hfail; try discriminate;
    inversion Hfail; subst; simpl; auto.
Qed.

Lemma optic_fetchNbaEvents_json st data :
  Optic.OPTIC_API_KEY EO <> "" ->
  Optic.nbaEventsAnswer W st = Json data ->
  let st' := snd (Optic.fetchNbaEvents W EO st) in
  if truthy data && truthy (prop data "data") && isArray (prop data "data")
  then
    match Optic.mapEvents "nba" (items (prop data "data")) with
    | Normal events =>
        Optic.nbaEvents st' = events
        /\ Optic.lastNbaEventsUpdate st' = Some (clock W (Optic.ticks st))
    | Thrown e =>
        fst (Optic.fetchNbaEvents W EO st) = Thrown e
        /\ Optic.nbaEvents st' = Optic.nbaEvents st
        /\ Optic.lastNbaEventsUpdate st' = Optic.lastNbaEventsUpdate st
        /\ Optic.lastError st' = Optic.lastError st
    end
  else Optic.nbaEvents st' = Optic.nbaEvents st
       /\ Optic.lastNbaEventsUpdate st' = Optic.lastNbaEventsUpdate st
       /\ Optic.lastError st' = Optic.lastError st.
Proof.
  intros Hkey Hjson. cbv zeta. rewrite optic_fetchNbaEvents_eq, fetchApi_eq.
  apply String.eqb_neq in Hkey. rewrite Hkey. cbv zeta.
  unfold Optic.nbaEventsAnswer in Hjson. rewrite Hjson.
  destruct (truthy data && truthy (prop data "data") && isArray (prop data "data"));
    [|simpl; auto].
  destruct (Optic.mapEvents "nba" _); simpl; auto.
Qed.

Lemma bounded_fetchFootballEvents_eq leagueSlug st :
  Bounded.fetchFootballEvents W EB leagueSlug st =
    match Bounded.fetchWithRateLimit W EB
            (Bounded.footballEventsUrl W EB leagueSlug st)
            (Bounded.afterClock st) with
    | (Normal data, st1) =>
        if truthy data && isArray data
        then
          let st2 :=
            Bounded.set_lastFootballEventsUpdate
              (<[leagueSlug := clock W (Bounded.ticks st1)]>
                 (Bounded.lastFootballEventsUpdate st1))
              (Bounded.set_ticks (S (Bounded.ticks st1))
                 (Bounded.set_footballEvents
                    (<[leagueSlug := items data]> (Bounded.footballEvents st1))
                    st1)) in
          (Normal (default [] (Bounded.footballEvents st2 !! leagueSlug)), st2)
        else (Normal (default [] (Bounded.footballEvents st1 !! leagueSlug)), st1)
    | (Thrown e, st1) => (Thrown e, st1)
    end.
Proof.
  unfold Bounded.fetchFootballEvents. rewrite run_bind.
  unfold Bounded.Date_now at 1. rewrite run_bind.
  fold (Bounded.afterClock st).
  fold (Bounded.footballEventsUrl W EB leagueSlug st).
  destruct (Bounded.fetchWithRateLimit W EB _ _) as [[data|e] st1]; [|reflexivity].
  rewrite run_bind. destruct (truthy data && isArray data); reflexivity.
Qed.

Lemma optic_fetchFootballEvents_eq leagueSlug st :
  Optic.fetchFootballEvents W EO leagueSlug st =
    match Optic.fetchApi W EO (Optic.footballEventsUrl leagueSlug) st with
    | (Normal data, st1) =>
        if truthy data && truthy (prop data "data") && isArray (prop data "data")
        then
          match Optic.mapEvents leagueSlug (items (prop data "data")) with
          | Normal events =>
              let st2 :=
                Optic.set_lastFootballEventsUpdate
                  (<[leagueSlug := clock W (Optic.ticks st1)]>
                     (Optic.lastFootballEventsUpdate st1))
                  (Optic.set_ticks (S (Optic.ticks st1))
                     (Optic.set_footballEvents
                        (<[leagueSlug := events]> (Optic.footballEvents st1))
                        st1)) in
              (Normal (default [] (Optic.footballEvents st2 !! leagueSlug)), st2)
          | Thrown e => (Thrown e, st1)
          end
        else (Normal (default [] (Optic.footballEvents st1 !! leagueSlug)), st1)
    | (Thrown e, st1) => (Thrown e, st1)
    end.
Proof.
  unfold Optic.fetchFootballEvents. rewrite run_bind.
  fold (Optic.footballEventsUrl leagueSlug).
  destruct (Optic.fetchApi W EO _ _) as [[data|e] st1]; [|reflexivity].
  rewrite run_bind. destruct (truthy data) eqn:Hd; [|reflexivity]. simpl.
  rewrite run_bind. unfold liftC at 1. rewrite (getProp_truthy _ _ Hd).
  destruct (truthy (prop data "data") && isArray (prop data "data"));
    [|reflexivity].
  rewrite run_bind. unfold liftC at 1.
  destruct (Optic.mapEvents leagueSlug _); reflexivity.
Qed.

Lemma bounded_fetchFootballEvents_failure leagueSlug st reason :
  Bounded.gateOpen W EB (Bounded.afterClock st) = true ->
  failureMessage (Bounded.footballEventsAnswer W EB leagueSlug st) = Some reason ->
  let st' := snd (Bounded.fetchFootballEvents W EB leagueSlug st) in
  Bounded.footballEvents st' = Bounded.footballEvents st
  /\ Bounded.lastFootballEventsUpdate st' = Bounded.lastFootballEventsUpdate st
  /\ Bounded.lastError st'
     = Some {| time := clock W (S (S (Bounded.ticks st)));
               errMessage := reason;
               url := Some (Bounded.footballEventsUrl W EB leagueSlug st) |}.
Proof.
  intros Hopen Hfail. cbv zeta.
  rewrite bounded_fetchFootballEvents_eq, fetchWithRateLimit_eq, Hopen. cbv zeta.
  unfold Bounded.footballEventsAnswer in Hfail. simpl (Bounded.requests _).
  unfold Bounded.afterGate. rewrite checkRateLimit_eq.
  destruct (upstream W _ _); simpl in Hfail; try discriminate;
    inversion Hfail; subst; simpl;
    destruct (hourMs <=? _); simpl; auto.
Qed.

Lemma bounded_fetchFootballEvents_json leagueSlug st data :
  Bounded.gateOpen W EB (Bounded.afterClock st) = true ->
  Bounded.footballEventsAnswer W EB leagueSlug st = Json data ->
  let st' := snd (Bounded.fetchFootballEvents W EB leagueSlug st) in
  if truthy data && isArray data
  then Bounded.footballEvents st'
       = <[leagueSlug := items data]> (Bounded.footballEvents st)
       /\ Bounded.lastFootballEventsUpdate st'
          = <[leagueSlug := clock W (S (S (Bounded.ticks st)))]>
              (Bounded.lastFootballEventsUpdate st)
  else Bounded.footballEvents st' = Bounded.footballEvents st
       /\ Bounded.lastFootballEventsUpdate st' = Bounded.lastFootballEventsUpdate st
       /\ Bounded.lastError st' = Bounded.lastError st.
Proof.
  intros Hopen Hjson. cbv zeta.
  rewrite bounded_fetchFootballEvents_eq, fetchWithRateLimit_eq, Hopen. cbv zeta.
  unfold Bounded.footballEventsAnswer in Hjson. simpl (Bounded.requests _).
  rewrite Hjson. unfold Bounded.afterGate. rewrite checkRateLimit_eq.
  destruct (truthy data && isArray data); simpl;
    destruct (hourMs <=? _); simpl; auto.
Qed.

Lemma optic_fetchFootballEvents_failure leagueSlug st reason :
  Optic.OPTIC_API_KEY EO <> "" ->
  failureMessage (Optic.footballEventsAnswer W leagueSlug st) = Some reason ->
  let st' := snd (Optic.fetchFootballEvents W EO leagueSlug st) in
  Optic.footballEvents st' = Optic.footballEvents st
  /\ Optic.lastFootballEventsUpdate st' = Optic.lastFootballEventsUpdate st
  /\ Optic.lastError st'
     = Some {| time := clock W (Optic.ticks st); errMessage := reason;
               url := Some (Optic.footballEventsUrl leagueSlug) |}.
Proof.
  intros Hkey Hfail. cbv zeta. rewrite optic_fetchFootballEvents_eq, fetchApi_eq.
  apply String.eqb_neq in Hkey. rewrite Hkey. cbv zeta.
  unfold Optic.footballEventsAnswer in Hfail.
  destruct (upstream W _ _); simpl in Hfail; try discriminate;
    inversion Hfail; subst; simpl; auto.
Qed.

Lemma optic_fetchFootballEvents_json leagueSlug st data :
  Optic.OPTIC_API_KEY EO <> "" ->
  Optic.footballEventsAnswer W leagueSlug st = Json data ->
  let st' := snd (Optic.fetchFootballEvents W EO leagueSlug st) in
  if truthy data && truthy (prop data "data") && isArray (prop data "data")
  then
    match Optic.mapEvents leagueSlug (items (prop data "data")) with
    | Normal events =>
        Optic.footballEvents st'
        = <[leagueSlug := events]> (Optic.footballEvents st)
        /\ Optic.lastFootballEventsUpdate st'
           = <[leagueSlug := clock W (Optic.ticks st)]>
               (Optic.lastFootballEventsUpdate st)
    | Thrown e =>
        fst (Optic.fetchFootballEvents W EO leagueSlug st) = Thrown e
        /\ Optic.footballEvents st' = Optic.footballEvents st
        /\ Optic.lastFootballEventsUpdate st' = Optic.lastFootballEventsUpdate st
        /\ Optic.lastError st' = Optic.lastError st
    end
  else Optic.footballEvents st' = Optic.footballEvents st
       /\ Optic.lastFootballEventsUpdate st' = Optic.lastFootballEventsUpdate st
       /\ Optic.lastError st' = Optic.lastError st.
Proof.
  intros Hkey Hjson. cbv zeta. rewrite optic_fetchFootballEvents_eq, fetchApi_eq.
  apply String.eqb_neq in Hkey. rewrite Hkey. cbv zeta.
  unfold Optic.footballEventsAnswer in Hjson. rewrite Hjson.
  destruct (truthy data && truthy (prop data "data") && isArray (prop data "data"));
    [|simpl; auto].
  destruct (Optic.mapEvents leagueSlug _); simpl; auto.
Qed.

(** C4, as the code has it, for the events of the NBA and for those of
    a football league.  When the request for the events is sent and
    fails (the transport rejects it, the status is not 2xx, or the
    body is not JSON) the events and their timestamp stay as they were and
    [lastError] holds the error with the url.  When the body is JSON but
    not the list expected (bounded: not an array; other edition: no array
    under [data]) events and timestamp stay as well, and nothing is
    recorded in [lastError].  When it is the list, it replaces the events
    in one assignment and the timestamp is set; in the edition that
    rebuilds every fixture, a fixture that is [null] makes the call throw
    before anything is assigned. *)
Theorem C4_fetchEvents_outcomes :
  (forall st,
     Bounded.gateOpen W EB (Bounded.afterClock st) = true ->
     let st' := snd (Bounded.fetchNbaEvents W EB st) in
     match Bounded.nbaEventsAnswer W EB st with
     | Json data =>
         if truthy data && isArray data
         then Bounded.nbaEvents st' = items data
              /\ Bounded.lastNbaEventsUpdate st'
                 = Some (clock W (S (S (Bounded.ticks st))))
         else Bounded.nbaEvents st' = Bounded.nbaEvents st
              /\ Bounded.lastNbaEventsUpdate st' = Bounded.lastNbaEventsUpdate st
              /\ Bounded.lastError st' = Bounded.lastError st
     | failed =>
         Bounded.nbaEvents st' = Bounded.nbaEvents st
         /\ Bounded.lastNbaEventsUpdate st' = Bounded.lastNbaEventsUpdate st
         /\ Bounded.lastError st'
            = Some {| time := clock W (S (S (Bounded.ticks st)));
                      errMessage := default "" (failureMessage failed);
                      url := Some (Bounded.nbaEventsUrl W EB st) |}
     end)
  /\ (forall st,
        Optic.OPTIC_API_KEY EO <> "" ->
        let st' := snd (Optic.fetchNbaEvents W EO st) in
        match Optic.nbaEventsAnswer W st with
        | Json data =>
            if truthy data && truthy (prop data "data")
               && isArray (prop data "data")
            then
              match Optic.mapEvents "nba" (items (prop data "data")) with
              | Normal events =>
                  Optic.nbaEvents st' = events
                  /\ Optic.lastNbaEventsUpdate st'
                     = Some (clock W (Optic.ticks st))
              | Thrown e =>
                  fst (Optic.fetchNbaEvents W EO st) = Thrown e
                  /\ Optic.nbaEvents st' = Optic.nbaEvents st
                  /\ Optic.lastNbaEventsUpdate st' = Optic.lastNbaEventsUpdate st
                  /\ Optic.lastError st' = Optic.lastError st
              end
            else Optic.nbaEvents st' = Optic.nbaEvents st
                 /\ Optic.lastNbaEventsUpdate st' = Optic.lastNbaEventsUpdate st
                 /\ Optic.lastError st' = Optic.lastError st
        | failed =>
            Optic.nbaEvents st' = Optic.nbaEvents st
            /\ Optic.lastNbaEventsUpdate st' = Optic.lastNbaEventsUpdate st
            /\ Optic.lastError st'
               = Some {| time := clock W (Optic.ticks st);
                         errMessage := default "" (failureMessage failed);
                         url := Some Optic.nbaEventsUrl |}
        end)
  /\ (forall leagueSlug st,
        Bounded.gateOpen W EB (Bounded.afterClock st) = true ->
        let st' := snd (Bounded.fetchFootballEvents W EB leagueSlug st) in
        match Bounded.footballEventsAnswer W EB leagueSlug st with
        | Json data =>
            if truthy data && isArray data
            then Bounded.footballEvents st'
                 = <[leagueSlug := items data]> (Bounded.footballEvents st)
                 /\ Bounded.lastFootballEventsUpdate st'
                    = <[leagueSlug := clock W (S (S (Bounded.ticks st)))]>
                        (Bounded.lastFootballEventsUpdate st)
            else Bounded.footballEvents st' = Bounded.footballEvents st
                 /\ Bounded.lastFootballEventsUpdate st'
                    = Bounded.lastFootballEventsUpdate st
                 /\ Bounded.lastError st' = Bounded.lastError st
        | failed =>
            Bounded.footballEvents st' = Bounded.footballEvents st
            /\ Bounded.lastFootballEventsUpdate st'
               = Bounded.lastFootballEventsUpdate st
            /\ Bounded.lastError st'
               = Some {| time := clock W (S (S (Bounded.ticks st)));
                         errMessage := default "" (failureMessage failed);
                         url := Some (Bounded.footballEventsUrl W EB leagueSlug st) |}
        end)
  /\ (forall leagueSlug st,
        Optic.OPTIC_API_KEY EO <> "" ->
        let st' := snd (Optic.fetchFootballEvents W EO leagueSlug st) in
        match Optic.footballEventsAnswer W leagueSlug st with
        | Json data =>
            if truthy data && truthy (prop data "data")
               && isArray (prop data "data")
            then
              match Optic.mapEvents leagueSlug (items (prop data "data")) with
              | Normal events =>
                  Optic.footballEvents st'
                  = <[leagueSlug := events]> (Optic.footballEvents st)
                  /\ Optic.lastFootballEventsUpdate st'
                     = <[leagueSlug := clock W (Optic.ticks st)]>
                         (Optic.lastFootballEventsUpdate st)
              | Thrown e =>
                  fst (Optic.fetchFootballEvents W EO leagueSlug st) = Thrown e
                  /\ Optic.footballEvents st' = Optic.footballEvents st
                  /\ Optic.lastFootballEventsUpdate st'
                     = Optic.lastFootballEventsUpdate st
                  /\ Optic.lastError st' = Optic.lastError st
              end
            else Optic.footballEvents st' = Optic.footballEvents st
                 /\ Optic.lastFootballEventsUpdate st'
                    = Optic.lastFootballEventsUpdate st
                 /\ Optic.lastError st' = Optic.lastError st
        | failed =>
            Optic.footballEvents st' = Optic.footballEvents st
            /\ Optic.lastFootballEventsUpdate st'
               = Optic.lastFootballEventsUpdate st
            /\ Optic.lastError st'
               = Some {| time := clock W (Optic.ticks st);
                         errMessage := default "" (failureMessage failed);
                         url := Some (Optic.footballEventsUrl leagueSlug) |}
        end).
Proof.
  split; [|split; [|split]].
  - intros st Hopen st'. subst st'.
    destruct (Bounded.nbaEventsAnswer W EB st) as [reason|status text|reason|data]
      eqn:Hanswer;
      try (apply bounded_fetchNbaEvents_failure;
           [exact Hopen|rewrite Hanswer; reflexivity]).
    apply bounded_fetchNbaEvents_json; assumption.
  - intros st Hkey st'. subst st'.
    destruct (Optic.nbaEventsAnswer W st) as [reason|status text|reason|data]
      eqn:Hanswer;
      try (apply optic_fetchNbaEvents_failure;
           [exact Hkey|rewrite Hanswer; reflexivity]).
    apply optic_fetchNbaEvents_json; assumption.
  - intros leagueSlug st Hopen st'. subst st'.
    destruct (Bounded.footballEventsAnswer W EB leagueSlug st)
      as [reason|status text|reason|data] eqn:Hanswer;
      try (apply bounded_fetchFootballEvents_failure;
           [exact Hopen|rewrite Hanswer; reflexivity]).
    apply bounded_fetchFootballEvents_json; assumption.
  - intros leagueSlug st Hkey st'. subst st'.
    destruct (Optic.footballEventsAnswer W leagueSlug st)
      as [reason|status text|reason|data] eqn:Hanswer;
      try (apply optic_fetchFootballEvents_failure;
           [exact Hkey|rewrite Hanswer; reflexivity]).
    apply optic_fetchFootballEvents_json; assumption.
Qed.

(** C5, as the code has it.  An empty list is a list: when the provider
    answers the request for the events (of the NBA, or of a football
    league) with one, the cached events of that scope are replaced by
    it, so they are gone, and the timestamp is set. *)
Theorem C5_empty_response_clears_events :
  (forall st,
     Bounded.gateOpen W EB (Bounded.afterClock st) = true ->
     Bounded.nbaEventsAnswer W EB st = Json (VArr []) ->
     let st' := snd (Bounded.fetchNbaEvents W EB st) in
     Bounded.nbaEvents st' = []
     /\ Bounded.lastNbaEventsUpdate st' = Some (clock W (S (S (Bounded.ticks st)))))
  /\ (forall st data,
        Optic.OPTIC_API_KEY EO <> "" ->
        Optic.nbaEventsAnswer W st = Json data ->
        truthy data = true ->
        prop data "data" = VArr [] ->
        let st' := snd (Optic.fetchNbaEvents W EO st) in
        Optic.nbaEvents st' = []
        /\ Optic.lastNbaEventsUpdate st' = Some (clock W (Optic.ticks st)))
  /\ (forall leagueSlug st,
        Bounded.gateOpen W EB (Bounded.afterClock st) = true ->
        Bounded.footballEventsAnswer W EB leagueSlug st = Json (VArr []) ->
        let st' := snd (Bounded.fetchFootballEvents W EB leagueSlug st) in
        Bounded.footballEvents st' !! leagueSlug = Some []
        /\ Bounded.lastFootballEventsUpdate st' !! leagueSlug
           = Some (clock W (S (S (Bounded.ticks st)))))
  /\ (forall leagueSlug st data,
        Optic.OPTIC_API_KEY EO <> "" ->
        Optic.footballEventsAnswer W leagueSlug st = Json data ->
        truthy data = true ->
        prop data "data" = VArr [] ->
        let st' := snd (Optic.fetchFootballEvents W EO leagueSlug st) in
        Optic.footballEvents st' !! leagueSlug = Some []
        /\ Optic.lastFootballEventsUpdate st' !! leagueSlug
           = Some (clock W (Optic.ticks st))).
Proof.
  split; [|split; [|split]].
  - intros st Hopen Hanswer.
    exact (bounded_fetchNbaEvents_json st (VArr []) Hopen Hanswer).
  - intros st data Hkey Hanswer Hd Hempty.
    pose proof (optic_fetchNbaEvents_json st data Hkey Hanswer) as H.
    cbv zeta in H. rewrite Hd, Hempty in H. exact H.
  - intros leagueSlug st Hopen Hanswer.
    pose proof (bounded_fetchFootballEvents_json leagueSlug st (VArr [])
                  Hopen Hanswer) as H.
    cbv zeta in H. simpl in H. destruct H as [Hev Hstamp]. cbv zeta.
    rewrite Hev, Hstamp, !lookup_insert_eq. split; reflexivity.
  - intros leagueSlug st data Hkey Hanswer Hd Hempty.
    pose proof (optic_fetchFootballEvents_json leagueSlug st data Hkey Hanswer)
      as H.
    cbv zeta in H. rewrite Hd, Hempty in H. simpl in H.
    destruct H as [Hev Hstamp]. cbv zeta.
    rewrite Hev, Hstamp, !lookup_insert_eq. split; reflexivity.
Qed.

End Events.

(** C4 as stated fails: the provider answers with a body that is no list
    of events, the request has failed to give any, and [lastError] is
    still empty after the call. *)
Lemma C4_counterexample_malformed_payload_not_recorded :
  let st := Bounded.constructor Scenario.errorBody in
  let st' := snd (Bounded.fetchNbaEvents Scenario.errorBody
                    Scenario.boundedDefaults st) in
  Bounded.nbaEventsAnswer Scenario.errorBody Scenario.boundedDefaults st
    = Json (VObj [("error", VStr "Invalid API key")])
  /\ length (Bounded.requests st') = 1%nat
  /\ Bounded.nbaEvents st' = Bounded.nbaEvents st
  /\ Bounded.lastNbaEventsUpdate st' = None
  /\ Bounded.lastError st' = None.
Proof. vm_compute. repeat split; reflexivity. Qed.

(** C4 at work: without network the request is rejected, the events stay
    and the error is recorded. *)
Lemma C4_fetchEvents_outcomes_witness :
  Bounded.gateOpen Scenario.offline Scenario.boundedDefaults
    (Bounded.afterClock (Bounded.constructor Scenario.offline)) = true
  /\ Bounded.nbaEvents
       (snd (Bounded.fetchNbaEvents Scenario.offline Scenario.boundedDefaults
               (Bounded.constructor Scenario.offline))) = []
  /\ Bounded.lastError
       (snd (Bounded.fetchNbaEvents Scenario.offline Scenario.boundedDefaults
               (Bounded.constructor Scenario.offline)))
     = Some {| time := 1003; errMessage := "fetch failed";
               url := Some (Bounded.nbaEventsUrl Scenario.offline
                              Scenario.boundedDefaults
                              (Bounded.constructor Scenario.offline)) |}.
Proof.
  assert (Hopen : Bounded.gateOpen Scenario.offline Scenario.boundedDefaults
                    (Bounded.afterClock (Bounded.constructor Scenario.offline))
                  = true) by reflexivity.
  split; [exact Hopen|].
  destruct (C4_fetchEvents_outcomes Scenario.offline Scenario.boundedDefaults
              Scenario.opticKeyed) as (Hb & _).
  specialize (Hb (Bounded.constructor Scenario.offline) Hopen).
  cbv zeta in Hb.
  change (Bounded.nbaEventsAnswer Scenario.offline Scenario.boundedDefaults
            (Bounded.constructor Scenario.offline))
    with (Rejected "fetch failed") in Hb.
  destruct Hb as (Hev & _ & Herr). split; [exact Hev|exact Herr].
Defined.

(** C5 as stated fails: one event is cached, the provider then answers
    with an empty list, and the cache is empty afterwards. *)
Lemma C5_counterexample_empty_list_clears_cache :
  let st' := snd (Bounded.fetchNbaEvents Scenario.emptied Scenario.boundedDefaults
                    Scenario.oneEventCached) in
  Bounded.nbaEvents Scenario.oneEventCached = [Scenario.fixture "E1" 90000000]
  /\ Bounded.nbaEventsAnswer Scenario.emptied Scenario.boundedDefaults
       Scenario.oneEventCached = Json (VArr [])
  /\ Bounded.nbaEvents st' = []
  /\ Bounded.lastError st' = None.
Proof. vm_compute. repeat split; reflexivity. Qed.

(** C5 at work, on the same run. *)
Lemma C5_empty_response_clears_events_witness :
  Bounded.gateOpen Scenario.emptied Scenario.boundedDefaults
    (Bounded.afterClock Scenario.oneEventCached) = true
  /\ Bounded.nbaEventsAnswer Scenario.emptied Scenario.boundedDefaults
       Scenario.oneEventCached = Json (VArr [])
  /\ Bounded.nbaEvents
       (snd (Bounded.fetchNbaEvents Scenario.emptied Scenario.boundedDefaults
               Scenario.oneEventCached)) = []
  /\ Bounded.lastNbaEventsUpdate
       (snd (Bounded.fetchNbaEvents Scenario.emptied Scenario.boundedDefaults
               Scenario.oneEventCached)) = Some 1006.
Proof.
  assert (Hopen : Bounded.gateOpen Scenario.emptied Scenario.boundedDefaults
                    (Bounded.afterClock Scenario.oneEventCached) = true)
    by reflexivity.
  assert (Hanswer : Bounded.nbaEventsAnswer Scenario.emptied
                      Scenario.boundedDefaults Scenario.oneEventCached
                    = Json (VArr [])) by reflexivity.
  split; [exact Hopen|]. split; [exact Hanswer|].
  destruct (C5_empty_response_clears_events Scenario.emptied
              Scenario.boundedDefaults Scenario.opticKeyed) as (Hb & _).
  destruct (Hb Scenario.oneEventCached Hopen Hanswer) as (Hev & Hstamp).
  split; [exact Hev|]. rewrite Hstamp. reflexivity.
Defined.

(** ** Storing the odds of an event *)

(** Fields a method does not assign: the method is opened up down to the
    assignments, none of which touches the field. *)
Ltac frame_step :=
  first
    [ pres_step
    | apply preserves_modify; intros ? ?; simpl; assumption
    | match goal with
      | |- preserves _ (Bounded.Date_now _) => intros ? ?; simpl; assumption
      | |- preserves _ (Bounded.fetch _ _) => intros ? ?; simpl; assumption
      | |- preserves _ (Optic.Date_now _) => intros ? ?; simpl; assumption
      | |- preserves _ (Optic.fetch _ _) => intros ? ?; simpl; assumption
      | |- preserves _ (?f _ _ _ _ _) => unfold f
      | |- preserves _ (?f _ _ _ _) => unfold f
      | |- preserves _ (?f _ _ _) => unfold f
      | |- preserves _ (?f _ _) => unfold f
      end ].

Ltac frame := repeat frame_step.

Section OddsStore.
Context (W : World) (EB : Bounded.Env) (EO : Optic.Env).

Lemma nbaOdds_nbaOddsStep eventId bookmaker eventOdds m :
  preserves (fun s => Bounded.nbaOdds s = m)
    (Bounded.nbaOddsStep W EB eventId bookmaker eventOdds).
Proof. frame. Qed.

Lemma footballOdds_nbaOddsStep eventId bookmaker eventOdds m :
  preserves (fun s => Bounded.footballOdds s = m)
    (Bounded.nbaOddsStep W EB eventId bookmaker eventOdds).
Proof. frame. Qed.

Lemma nbaOdds_footballOddsStep eventId bookmaker eventOdds m :
  preserves (fun s => Bounded.nbaOdds s = m)
    (Bounded.footballOddsStep W EB eventId bookmaker eventOdds).
Proof. frame. Qed.

Lemma footballOdds_footballOddsStep eventId bookmaker eventOdds m :
  preserves (fun s => Bounded.footballOdds s = m)
    (Bounded.footballOddsStep W EB eventId bookmaker eventOdds).
Proof. frame. Qed.

Lemma fetchWithRateLimit_data url st data st' :
  Bounded.fetchWithRateLimit W EB url st = (Normal data, st') ->
  data = VNull \/ upstream W (length (Bounded.requests st)) url = Json data.
Proof.
  rewrite fetchWithRateLimit_eq. cbv zeta.
  destruct (Bounded.gateOpen W EB st); [|intros H; inversion H; auto].
  destruct (upstream W _ url); intros H; inversion H; auto.
Qed.

Lemma nbaOddsStep_noData eventId bookmaker eventOdds st r st' :
  noData W ->
  Bounded.nbaOddsStep W EB eventId bookmaker eventOdds st = (Normal r, st') ->
  fst r = eventOdds.
Proof.
  intros Hno. unfold Bounded.nbaOddsStep. rewrite run_bind, checkRateLimit_gate.
  destruct (Bounded.gateOpen W EB st); simpl; [|intros H; inversion H; reflexivity].
  rewrite run_bind.
  destruct (Bounded.fetchWithRateLimit W EB _ _) as [[data|e] st1] eqn:Hfetch;
    [|discriminate].
  destruct (fetchWithRateLimit_data _ _ _ _ Hfetch) as [->|Hjson].
  - intros H. inversion H. reflexivity.
  - exfalso. apply (Hno (length (Bounded.requests (Bounded.afterGate W EB st)))
                      (Bounded.oddsUrl EB eventId bookmaker)).
    rewrite Hjson. reflexivity.
Qed.

Lemma footballOddsStep_noData eventId bookmaker eventOdds st r st' :
  noData W ->
  Bounded.footballOddsStep W EB eventId bookmaker eventOdds st = (Normal r, st') ->
  fst r = eventOdds.
Proof.
  intros Hno. unfold Bounded.footballOddsStep.
  rewrite run_bind, checkRateLimit_gate.
  destruct (Bounded.gateOpen W EB st); simpl; [|intros H; inversion H; reflexivity].
  rewrite run_bind.
  destruct (Bounded.fetchWithRateLimit W EB _ _) as [[data|e] st1] eqn:Hfetch;
    [|discriminate].
  destruct (fetchWithRateLimit_data _ _ _ _ Hfetch) as [->|Hjson].
  - intros H. inversion H. reflexivity.
  - exfalso. apply (Hno (length (Bounded.requests (Bounded.afterGate W EB st)))
                      (Bounded.oddsUrl EB eventId bookmaker)).
    rewrite Hjson. reflexivity.
Qed.

Lemma bounded_fetchNbaOddsForEvent_stores eventId st :
  exists eventOdds st',
    Bounded.fetchNbaOddsForEvent W EB eventId st = (Normal eventOdds, st')
    /\ Bounded.nbaOdds st'
       = <[toString eventId := eventOdds]> (Bounded.nbaOdds st)
    /\ Bounded.footballOdds st' = Bounded.footballOdds st
    /\ (noData W -> Bounded.bookmakers eventOdds = ∅).
Proof.
  rewrite fetchNbaOddsForEvent_eq. cbv zeta.
  set (st0 := Bounded.set_ticks _ _).
  set (start := Bounded.emptySnapshot _).
  destruct (forOf_returns Bounded.NBA_BOOKMAKERS start
              (Bounded.nbaOddsStep W EB eventId)) with (s := st0)
    as (eventOdds & st1 & Hloop).
  { intros x b s. destruct (nbaOddsStep_keeps_keys W EB eventId x b s)
      as (b' & go & s' & Hstep & _). eauto. }
  assert (Hn : Bounded.nbaOdds st1 = Bounded.nbaOdds st).
  { pose proof (run_preserves (fun s => Bounded.nbaOdds s = Bounded.nbaOdds st)
                  (forOf Bounded.NBA_BOOKMAKERS start
                     (Bounded.nbaOddsStep W EB eventId)) st0) as H.
    rewrite Hloop in H. apply H; [|reflexivity].
    apply preserves_forOf. intros. apply nbaOdds_nbaOddsStep. }
  assert (Hf : Bounded.footballOdds st1 = Bounded.footballOdds st).
  { pose proof (run_preserves
                  (fun s => Bounded.footballOdds s = Bounded.footballOdds st)
                  (forOf Bounded.NBA_BOOKMAKERS start
                     (Bounded.nbaOddsStep W EB eventId)) st0) as H.
    rewrite Hloop in H. apply H; [|reflexivity].
    apply preserves_forOf. intros. apply footballOdds_nbaOddsStep. }
  rewrite Hloop. do 2 eexists. split; [reflexivity|].
  cbn [Bounded.nbaOdds Bounded.footballOdds Bounded.set_nbaOdds].
  rewrite Hn. split; [reflexivity|]. split; [exact Hf|].
  intros Hno.
  apply (forOf_accumulates (fun eo => Bounded.bookmakers eo = ∅)
           Bounded.NBA_BOOKMAKERS start (Bounded.nbaOddsStep W EB eventId))
    with (s := st0) (s' := st1); [|reflexivity|exact Hloop].
  intros x b s r s' Hb Hstep.
  rewrite (nbaOddsStep_noData _ _ _ _ _ _ Hno Hstep). exact Hb.
Qed.

Lemma bounded_fetchFootballOddsForEvent_stores eventId bookmakers st :
  exists eventOdds st',
    Bounded.fetchFootballOddsForEvent W EB eventId bookmakers st
      = (Normal eventOdds, st')
    /\ Bounded.footballOdds st'
       = <[toString eventId := eventOdds]> (Bounded.footballOdds st)
    /\ Bounded.nbaOdds st' = Bounded.nbaOdds st
    /\ (noData W -> Bounded.bookmakers eventOdds = ∅).
Proof.
  unfold Bounded.fetchFootballOddsForEvent.
  rewrite run_bind. unfold modify at 1. rewrite run_bind.
  unfold Bounded.Date_now at 1. rewrite run_bind.
  set (st0 := Bounded.set_ticks _ _).
  set (start := Bounded.emptySnapshot _).
  destruct (forOf_returns bookmakers start
              (Bounded.footballOddsStep W EB eventId)) with (s := st0)
    as (eventOdds & st1 & Hloop).
  { intros x b s. destruct (footballOddsStep_keeps_keys W EB eventId x b s)
      as (b' & go & s' & Hstep & _). eauto. }
  assert (Hn : Bounded.nbaOdds st1 = Bounded.nbaOdds st).
  { pose proof (run_preserves (fun s => Bounded.nbaOdds s = Bounded.nbaOdds st)
                  (forOf bookmakers start
                     (Bounded.footballOddsStep W EB eventId)) st0) as H.
    rewrite Hloop in H. apply H; [|reflexivity].
    apply preserves_forOf. intros. apply nbaOdds_footballOddsStep. }
  assert (Hf : Bounded.footballOdds st1 = Bounded.footballOdds st).
  { pose proof (run_preserves
                  (fun s => Bounded.footballOdds s = Bounded.footballOdds st)
                  (forOf bookmakers start
                     (Bounded.footballOddsStep W EB eventId)) st0) as H.
    rewrite Hloop in H. apply H; [|reflexivity].
    apply preserves_forOf. intros. apply footballOdds_footballOddsStep. }
  rewrite Hloop. do 2 eexists. split; [reflexivity|].
  cbn [Bounded.nbaOdds Bounded.footballOdds Bounded.set_footballOdds].
  rewrite Hf. split; [reflexivity|]. split; [exact Hn|].
  intros Hno.
  apply (forOf_accumulates (fun eo => Bounded.bookmakers eo = ∅)
           bookmakers start (Bounded.footballOddsStep W EB eventId))
    with (s := st0) (s' := st1); [|reflexivity|exact Hloop].
  intros x b s r s' Hb Hstep.
  rewrite (footballOddsStep_noData _ _ _ _ _ _ Hno Hstep). exact Hb.
Qed.

Lemma fetchApi_result url st :
  exists data st1,
    Optic.fetchApi W EO url st = (Normal data, st1)
    /\ Optic.nbaOdds st1 = Optic.nbaOdds st
    /\ Optic.footballOdds st1 = Optic.footballOdds st
    /\ (noData W -> data = VNull).
Proof.
  rewrite fetchApi_eq. destruct (String.eqb _ ""); [do 2 eexists; eauto|].
  cbv zeta.
  destruct (upstream W (length (Optic.requests st)) url) eqn:Hanswer;
    do 2 eexists; (split; [reflexivity|]); simpl; repeat split; auto.
  intros Hno. exfalso. apply (Hno (length (Optic.requests st)) url).
  rewrite Hanswer. reflexivity.
Qed.

Lemma optic_fetchNbaOddsForEvent_eq eventId st :
  Optic.fetchNbaOddsForEvent W EO eventId st =
    let st0 := Optic.set_ticks (S (Optic.ticks st))
                 (Optic.set_oddsFetches
                    (Optic.oddsFetches st ++ [(eventId, Optic.apiCallCount st)]) st) in
    match Optic.fetchApi W EO (Optic.oddsUrl eventId Optic.NBA_BOOKMAKERS) st0 with
    | (Normal data, st1) =>
        match Optic.buildSnapshot W (clock W (Optic.ticks st)) data with
        | Normal eventOdds =>
            (Normal eventOdds,
             Optic.set_nbaOdds
               (<[toString eventId := eventOdds]> (Optic.nbaOdds st1)) st1)
        | Thrown e => (Thrown e, st1)
        end
    | (Thrown e, st1) => (Thrown e, st1)
    end.
Proof.
  unfold Optic.fetchNbaOddsForEvent. rewrite run_bind. unfold modify at 1.
  rewrite run_bind. unfold Optic.Date_now at 1. rewrite run_bind. cbv zeta.
  cbn [Optic.ticks Optic.set_oddsFetches].
  destruct (Optic.fetchApi W EO _ _) as [[data|e] st1]; [|reflexivity].
  rewrite run_bind. unfold liftC at 1.
  destruct (Optic.buildSnapshot W _ data); reflexivity.
Qed.

Lemma optic_fetchFootballOddsForEvent_eq eventId bookmakers st :
  Optic.fetchFootballOddsForEvent W EO eventId bookmakers st =
    let st0 := Optic.set_ticks (S (Optic.ticks st))
                 (Optic.set_oddsFetches
                    (Optic.oddsFetches st ++ [(eventId, Optic.apiCallCount st)]) st) in
    match Optic.fetchApi W EO (Optic.oddsUrl eventId bookmakers) st0 with
    | (Normal data, st1) =>
        match Optic.buildSnapshot W (clock W (Optic.ticks st)) data with
        | Normal eventOdds =>
            (Normal eventOdds,
             Optic.set_footballOdds
               (<[toString eventId := eventOdds]> (Optic.footballOdds st1)) st1)
        | Thrown e => (Thrown e, st1)
        end
    | (Thrown e, st1) => (Thrown e, st1)
    end.
Proof.
  unfold Optic.fetchFootballOddsForEvent. rewrite run_bind. unfold modify at 1.
  rewrite run_bind. unfold Optic.Date_now at 1. rewrite run_bind. cbv zeta.
  cbn [Optic.ticks Optic.set_oddsFetches].
  destruct (Optic.fetchApi W EO _ _) as [[data|e] st1]; [|reflexivity].
  rewrite run_bind. unfold liftC at 1.
  destruct (Optic.buildSnapshot W _ data); reflexivity.
Qed.

Lemma optic_fetchNbaOddsForEvent_stores eventId st :
  match Optic.fetchNbaOddsForEvent W EO eventId st with
  | (Normal eventOdds, st') =>
      Optic.nbaOdds st' = <[toString eventId := eventOdds]> (Optic.nbaOdds st)
      /\ Optic.footballOdds st' = Optic.footballOdds st
      /\ (noData W -> Optic.bookmakers eventOdds = ∅)
  | (Thrown _, st') =>
      Optic.nbaOdds st' = Optic.nbaOdds st
      /\ Optic.footballOdds st' = Optic.footballOdds st
  end.
Proof.
  rewrite optic_fetchNbaOddsForEvent_eq. cbv zeta.
  destruct (fetchApi_result (Optic.oddsUrl eventId Optic.NBA_BOOKMAKERS)
              (Optic.set_ticks (S (Optic.ticks st))
                 (Optic.set_oddsFetches
                    (Optic.oddsFetches st ++ [(eventId, Optic.apiCallCount st)]) st)))
    as (data & st1 & Hrun & Hn & Hf & Hnull).
  rewrite Hrun.
  destruct (Optic.buildSnapshot W _ data) as [eventOdds|e] eqn:Hbuild; simpl.
  - rewrite Hn, Hf. split; [reflexivity|]. split; [reflexivity|].
    intros Hno. rewrite (Hnull Hno) in Hbuild. inversion Hbuild. reflexivity.
  - split; assumption.
Qed.

Lemma optic_fetchFootballOddsForEvent_stores eventId bookmakers st :
  match Optic.fetchFootballOddsForEvent W EO eventId bookmakers st with
  | (Normal eventOdds, st') =>
      Optic.footballOdds st'
        = <[toString eventId := eventOdds]> (Optic.footballOdds st)
      /\ Optic.nbaOdds st' = Optic.nbaOdds st
      /\ (noData W -> Optic.bookmakers eventOdds = ∅)
  | (Thrown _, st') =>
      Optic.footballOdds st' = Optic.footballOdds st
      /\ Optic.nbaOdds st' = Optic.nbaOdds st
  end.
Proof.
  rewrite optic_fetchFootballOddsForEvent_eq. cbv zeta.
  destruct (fetchApi_result (Optic.oddsUrl eventId bookmakers)
              (Optic.set_ticks (S (Optic.ticks st))
                 (Optic.set_oddsFetches
                    (Optic.oddsFetches st ++ [(eventId, Optic.apiCallCount st)]) st)))
    as (data & st1 & Hrun & Hn & Hf & Hnull).
  rewrite Hrun.
  destruct (Optic.buildSnapshot W _ data) as [eventOdds|e] eqn:Hbuild; simpl.
  - rewrite Hn, Hf. split; [reflexivity|]. split; [reflexivity|].
    intros Hno. rewrite (Hnull Hno) in Hbuild. inversion Hbuild. reflexivity.
  - split; assumption.
Qed.

Lemma bounded_odds_untouched c st :
  Bounded.fetchesOdds c = false ->
  Bounded.nbaOdds (Bounded.perform W EB c st) = Bounded.nbaOdds st
  /\ Bounded.footballOdds (Bounded.perform W EB c st) = Bounded.footballOdds st.
Proof.
  intros Hc. destruct c; try discriminate; simpl; split;
    (apply (run_preserves (fun s => _ s = _)); [frame|reflexivity]).
Qed.

Lemma optic_odds_untouched st :
  (forall url,
     Optic.nbaOdds (snd (Optic.fetchApi W EO url st)) = Optic.nbaOdds st
     /\ Optic.footballOdds (snd (Optic.fetchApi W EO url st)) = Optic.footballOdds st)
  /\ (Optic.nbaOdds (snd (Optic.fetchNbaEvents W EO st)) = Optic.nbaOdds st
      /\ Optic.footballOdds (snd (Optic.fetchNbaEvents W EO st))
         = Optic.footballOdds st)
  /\ (forall leagueSlug,
        Optic.nbaOdds (snd (Optic.fetchFootballEvents W EO leagueSlug st))
          = Optic.nbaOdds st
        /\ Optic.footballOdds (snd (Optic.fetchFootballEvents W EO leagueSlug st))
           = Optic.footballOdds st).
Proof.
  repeat split; intros;
    (apply (run_preserves (fun s => _ s = _)); [frame|reflexivity]).
Qed.

Lemma bounded_odds_blocked eventId bookmakers st :
  Bounded.apiCallsThisHour st = Bounded.MAX_CALLS_PER_HOUR EB ->
  clock W (S (Bounded.ticks st)) - Bounded.hourStartTime st < hourMs ->
  (exists eventOdds st',
     Bounded.fetchNbaOddsForEvent W EB eventId st = (Normal eventOdds, st')
     /\ Bounded.bookmakers eventOdds = ∅
     /\ Bounded.nbaOdds st' !! toString eventId = Some eventOdds)
  /\ (exists eventOdds st',
        Bounded.fetchFootballOddsForEvent W EB eventId bookmakers st
          = (Normal eventOdds, st')
        /\ Bounded.bookmakers eventOdds = ∅
        /\ Bounded.footballOdds st' !! toString eventId = Some eventOdds).
Proof.
  intros Hfull Hwindow.
  assert (Hclosed : Bounded.gateOpen W EB
                      (Bounded.set_ticks (S (Bounded.ticks st))
                         (Bounded.set_oddsFetches
                            (Bounded.oddsFetches st
                               ++ [(eventId, Bounded.apiCallsThisHour st)]) st))
                    = false).
  { apply gate_closed_when_exhausted; simpl; [lia|exact Hwindow]. }
  split.
  - rewrite fetchNbaOddsForEvent_eq. cbv zeta.
    unfold Bounded.NBA_BOOKMAKERS. rewrite forOf_cons.
    rewrite (nbaOddsStep_closed _ _ _ _ _ _ Hclosed).
    do 2 eexists. split; [reflexivity|]. split; [reflexivity|].
    apply lookup_insert_eq.
  - unfold Bounded.fetchFootballOddsForEvent.
    rewrite run_bind. unfold modify at 1. rewrite run_bind.
    unfold Bounded.Date_now at 1. rewrite run_bind.
    destruct bookmakers as [|bookmaker rest].
    + do 2 eexists. split; [reflexivity|]. split; [reflexivity|].
      apply lookup_insert_eq.
    + rewrite forOf_cons.
      rewrite (footballOddsStep_closed _ _ _ _ _ _ Hclosed).
      do 2 eexists. split; [reflexivity|]. split; [reflexivity|].
      apply lookup_insert_eq.
Qed.

(** C6, as the code has it.  Every call of [fetchNbaOddsForEvent] or
    [fetchFootballOddsForEvent] that returns stores the snapshot it built
    under the event's id, whatever was there before and whatever the
    snapshot holds: when no request gives a body, or the budget is used
    up, it is a snapshot without bookmakers, and it is stored all the
    same.  Nothing else in the two odds maps changes, and the calls that
    fetch no odds leave both maps alone.  The id is one that names an
    own property ([ownKey]): for such an id the odds fetches of the
    bounded edition always return; one of the other edition that throws
    stores nothing. *)
Theorem C6_every_odds_fetch_replaces_the_entry :
  (forall eventId st,
     ownKey eventId = true ->
     exists eventOdds st',
       Bounded.fetchNbaOddsForEvent W EB eventId st = (Normal eventOdds, st')
       /\ Bounded.nbaOdds st'
          = <[toString eventId := eventOdds]> (Bounded.nbaOdds st)
       /\ Bounded.footballOdds st' = Bounded.footballOdds st
       /\ (noData W -> Bounded.bookmakers eventOdds = ∅))
  /\ (forall eventId bookmakers st,
        ownKey eventId = true ->
        exists eventOdds st',
          Bounded.fetchFootballOddsForEvent W EB eventId bookmakers st
            = (Normal eventOdds, st')
          /\ Bounded.footballOdds st'
             = <[toString eventId := eventOdds]> (Bounded.footballOdds st)
          /\ Bounded.nbaOdds st' = Bounded.nbaOdds st
          /\ (noData W -> Bounded.bookmakers eventOdds = ∅))
  /\ (forall eventId bookmakers st,
        ownKey eventId = true ->
        Bounded.apiCallsThisHour st = Bounded.MAX_CALLS_PER_HOUR EB ->
        clock W (S (Bounded.ticks st)) - Bounded.hourStartTime st < hourMs ->
        (exists eventOdds st',
           Bounded.fetchNbaOddsForEvent W EB eventId st = (Normal eventOdds, st')
           /\ Bounded.bookmakers eventOdds = ∅
           /\ Bounded.nbaOdds st' !! toString eventId = Some eventOdds)
        /\ (exists eventOdds st',
              Bounded.fetchFootballOddsForEvent W EB eventId bookmakers st
                = (Normal eventOdds, st')
              /\ Bounded.bookmakers eventOdds = ∅
              /\ Bounded.footballOdds st' !! toString eventId = Some eventOdds))
  /\ (forall c st,
        Bounded.fetchesOdds c = false ->
        Bounded.nbaOdds (Bounded.perform W EB c st) = Bounded.nbaOdds st
        /\ Bounded.footballOdds (Bounded.perform W EB c st)
           = Bounded.footballOdds st)
  /\ (forall eventId st,
        ownKey eventId = true ->
        match Optic.fetchNbaOddsForEvent W EO eventId st with
        | (Normal eventOdds, st') =>
            Optic.nbaOdds st'
              = <[toString eventId := eventOdds]> (Optic.nbaOdds st)
            /\ Optic.footballOdds st' = Optic.footballOdds st
            /\ (noData W -> Optic.bookmakers eventOdds = ∅)
        | (Thrown _, st') =>
            Optic.nbaOdds st' = Optic.nbaOdds st
            /\ Optic.footballOdds st' = Optic.footballOdds st
        end)
  /\ (forall eventId bookmakers st,
        ownKey eventId = true ->
        match Optic.fetchFootballOddsForEvent W EO eventId bookmakers st with
        | (Normal eventOdds, st') =>
            Optic.footballOdds st'
              = <[toString eventId := eventOdds]> (Optic.footballOdds st)
            /\ Optic.nbaOdds st' = Optic.nbaOdds st
            /\ (noData W -> Optic.bookmakers eventOdds = ∅)
        | (Thrown _, st') =>
            Optic.footballOdds st' = Optic.footballOdds st
            /\ Optic.nbaOdds st' = Optic.nbaOdds st
        end)
  /\ (forall st,
        Optic.nbaOdds (snd (Optic.fetchNbaEvents W EO st)) = Optic.nbaOdds st
        /\ Optic.footballOdds (snd (Optic.fetchNbaEvents W EO st))
           = Optic.footballOdds st)
  /\ (forall leagueSlug st,
        Optic.nbaOdds (snd (Optic.fetchFootballEvents W EO leagueSlug st))
          = Optic.nbaOdds st
        /\ Optic.footballOdds (snd (Optic.fetchFootballEvents W EO leagueSlug st))
           = Optic.footballOdds st).
Proof.
  split; [intros eventId st _; apply bounded_fetchNbaOddsForEvent_stores|].
  split;
    [intros eventId bookmakers st _; apply bounded_fetchFootballOddsForEvent_stores|].
  split; [intros eventId bookmakers st _; apply bounded_odds_blocked|].
  split; [exact bounded_odds_untouched|].
  split; [intros eventId st _; apply optic_fetchNbaOddsForEvent_stores|].
  split;
    [intros eventId bookmakers st _; apply optic_fetchFootballOddsForEvent_stores|].
  split.
  - intros st. exact (proj1 (proj2 (optic_odds_untouched st))).
  - intros leagueSlug st. exact (proj2 (proj2 (optic_odds_untouched st)) leagueSlug).
Qed.

End OddsStore.

(** C6 as stated fails: the snapshot of event E1 holds the odds of one
    bookmaker; in the next fetch for E1 every request is rejected, and
    the stored snapshot is overwritten by one without bookmakers. *)
Lemma C6_counterexample_failed_fetch_overwrites_snapshot :
  (size ∘ Bounded.bookmakers) <$> (Bounded.nbaOdds Scenario.oddsCached !! "E1")
    = Some 1%nat
  /\ exists eventOdds st',
       Bounded.fetchNbaOddsForEvent Scenario.oddsOnce Scenario.boundedDefaults
         (VStr "E1") Scenario.oddsCached = (Normal eventOdds, st')
       /\ Bounded.bookmakers eventOdds = ∅
       /\ Bounded.nbaOdds st' !! "E1" = Some eventOdds
       /\ Bounded.nbaOdds st' !! "E1" <> Bounded.nbaOdds Scenario.oddsCached !! "E1".
Proof.
  vm_compute. split; [reflexivity|]. do 2 eexists.
  split; [reflexivity|]. split; [reflexivity|]. split; [reflexivity|].
  discriminate.
Qed.

(** C6 at work: no network at all, and the empty snapshot is stored. *)
Lemma C6_every_odds_fetch_replaces_the_entry_witness :
  noData Scenario.offline
  /\ ownKey (VStr "E1") = true
  /\ exists eventOdds st',
       Bounded.fetchNbaOddsForEvent Scenario.offline Scenario.boundedDefaults
         (VStr "E1") (Bounded.constructor Scenario.offline)
         = (Normal eventOdds, st')
       /\ Bounded.nbaOdds st' !! "E1" = Some eventOdds
       /\ Bounded.bookmakers eventOdds = ∅.
Proof.
  assert (Hno : noData Scenario.offline).
  { intros n url. simpl. destruct n; discriminate. }
  split; [exact Hno|]. split; [reflexivity|].
  destruct (C6_every_odds_fetch_replaces_the_entry Scenario.offline
              Scenario.boundedDefaults Scenario.opticKeyed) as (Hb & _).
  destruct (Hb (VStr "E1") (Bounded.constructor Scenario.offline) eq_refl)
    as (eventOdds & st' & Hrun & Hstore & _ & Hempty).
  exists eventOdds, st'. split; [exact Hrun|].
  split; [rewrite Hstore; apply lookup_insert_eq|exact (Hempty Hno)].
Defined.

(** ** Sorting by date *)

Section Sorting.
Context {A : Type} (key : A -> option Z).

Local Abbreviation byDate := (fun a b : A => compareDates (key a) (key b)).
Local Abbreviation inOrder := (fun a b : A => notLater (key a) (key b)).

Lemma insertBy_Permutation x l : Permutation (insertBy byDate x l) (x :: l).
Proof.
  induction l as [|y l IH]; simpl.
  - apply Permutation_refl.
  - destruct (byDate x y <=? 0).
    + apply Permutation_refl.
    + apply perm_trans with (y :: x :: l).
      * apply perm_skip. exact IH.
      * apply perm_swap.
Qed.

Lemma sortBy_Permutation l : Permutation (sortBy byDate l) l.
Proof.
  induction l as [|x l IH]; simpl.
  - apply perm_nil.
  - apply perm_trans with (x :: sortBy byDate l).
    + apply insertBy_Permutation.
    + apply perm_skip. exact IH.
Qed.

Lemma inOrder_trans a b c : inOrder a b -> inOrder b c -> inOrder a c.
Proof.
  unfold notLater.
  destruct (key a), (key b), (key c); try tauto. lia.
Qed.

Lemma insertBy_sorted x l :
  is_Some (key x) -> Forall (fun a => is_Some (key a)) l ->
  StronglySorted inOrder l -> StronglySorted inOrder (insertBy byDate x l).
Proof.
  intros [dx Hx] Hvalid Hsorted.
  induction Hsorted as [|y l Hsorted IH Hy]; simpl.
  - constructor; constructor.
  - inversion Hvalid as [|? ? [dy Hdy] Hvalid']; subst.
    unfold compareDates at 1. rewrite Hx, Hdy.
    destruct (dx - dy <=? 0) eqn:Hcmp.
    + apply Z.leb_le in Hcmp.
      assert (Hxy : inOrder x y).
      { unfold notLater. rewrite Hx, Hdy. lia. }
      constructor; [constructor; assumption|].
      constructor; [exact Hxy|].
      eapply Forall_impl; [exact Hy|]. intros z Hz.
      exact (inOrder_trans _ _ _ Hxy Hz).
    + apply Z.leb_gt in Hcmp.
      constructor; [apply IH; exact Hvalid'|].
      apply (Permutation_Forall (Permutation_sym (insertBy_Permutation x l))).
      constructor; [|exact Hy].
      unfold notLater. rewrite Hx, Hdy. lia.
Qed.

Lemma sortBy_sorted l :
  Forall (fun a => is_Some (key a)) l -> StronglySorted inOrder (sortBy byDate l).
Proof.
  induction 1 as [|x l Hx Hl IH]; simpl.
  - constructor.
  - apply insertBy_sorted; [exact Hx| |exact IH].
    apply (Permutation_Forall (Permutation_sym (sortBy_Permutation l))). exact Hl.
Qed.

Lemma filter_sorted (keep : A -> bool) l :
  StronglySorted inOrder l -> StronglySorted inOrder (List.filter keep l).
Proof.
  induction 1 as [|x l Hl IH Hx]; simpl.
  - constructor.
  - destruct (keep x); [|exact IH].
    constructor; [exact IH|].
    apply List.Forall_forall. intros y Hy. apply List.filter_In in Hy.
    rewrite List.Forall_forall in Hx. apply Hx. tauto.
Qed.

Lemma filter_Permutation (keep : A -> bool) (l l' : list A) :
  Permutation l l' -> Permutation (List.filter keep l) (List.filter keep l').
Proof.
  induction 1 as [|x l l' H IH|x y l|l l' l'' H1 IH1 H2 IH2]; simpl.
  - apply perm_nil.
  - destruct (keep x); [apply perm_skip|]; exact IH.
  - destruct (keep x), (keep y); try apply Permutation_refl. apply perm_swap.
  - exact (perm_trans IH1 IH2).
Qed.

End Sorting.

(** ** Refreshing the odds, with the quota *)

(** A loop of gated rounds: each round asks the gate, stops the loop when
    it is closed and otherwise fetches the odds of its event. *)
Section GatedLoop.
Context (W : World) (E : Bounded.Env) {T : Type}.
Context (idOf : T -> Value) (good : T -> Prop).
Context (round : T -> unit -> M Bounded.State (unit * bool)).

Hypothesis round_closed :
  forall e s,
    Bounded.gateOpen W E s = false ->
    round e tt s = (Normal (tt, false), Bounded.afterGate W E s).

Hypothesis round_open :
  forall e s,
    good e -> Bounded.gateOpen W E s = true ->
    exists s1,
      round e tt s = (Normal (tt, true), s1)
      /\ Bounded.oddsFetches s1
         = Bounded.oddsFetches s
             ++ [(idOf e, Bounded.apiCallsThisHour (Bounded.afterGate W E s))].

Lemma afterGate_oddsFetches s :
  Bounded.oddsFetches (Bounded.afterGate W E s) = Bounded.oddsFetches s.
Proof.
  unfold Bounded.afterGate. rewrite checkRateLimit_eq. simpl.
  destruct (hourMs <=? _); reflexivity.
Qed.

Lemma gatedLoop_trace l s :
  Forall good l ->
  exists fetched s',
    forOf l tt round s = (Normal tt, s')
    /\ Bounded.oddsFetches s' = Bounded.oddsFetches s ++ fetched
    /\ List.map fst fetched = List.map idOf (take (length fetched) l)
    /\ Forall (fun f => snd f < Bounded.MAX_CALLS_PER_HOUR E) fetched
    /\ ((length fetched < length l)%nat ->
        Bounded.MAX_CALLS_PER_HOUR E <= Bounded.apiCallsThisHour s').
Proof.
  intros Hgood. revert s. induction Hgood as [|e l He Hl IH]; intros s.
  - exists [], s. simpl. rewrite app_nil_r. repeat split; auto. lia.
  - rewrite forOf_cons.
    pose proof (gateOpen_spec W E s) as Hspec.
    destruct (Bounded.gateOpen W E s) eqn:Hgate.
    + destruct (round_open e s He Hgate) as (s1 & Hrun & Hlog).
      rewrite Hrun. destruct (IH s1) as (fetched & s' & Hloop & Htrace & Hids & Hlt & Hstop).
      exists ((idOf e, Bounded.apiCallsThisHour (Bounded.afterGate W E s)) :: fetched), s'.
      split; [exact Hloop|].
      split; [rewrite Htrace, Hlog, <- app_assoc; reflexivity|].
      split; [simpl; rewrite Hids; reflexivity|].
      split; [constructor; [simpl; apply Z.ltb_lt; auto|exact Hlt]|].
      simpl. intros Hk. apply Hstop. lia.
    + rewrite (round_closed e s Hgate). exists [], (Bounded.afterGate W E s).
      split; [reflexivity|].
      split; [rewrite afterGate_oddsFetches, app_nil_r; reflexivity|].
      split; [reflexivity|]. split; [constructor|].
      intros _. apply Z.ltb_ge. auto.
Qed.

End GatedLoop.

Section BoundedRefresh.
Context (W : World) (E : Bounded.Env).

Lemma oddsFetches_nbaOddsStep eventId bookmaker eventOdds v :
  preserves (fun s => Bounded.oddsFetches s = v)
    (Bounded.nbaOddsStep W E eventId bookmaker eventOdds).
Proof. frame. Qed.

Lemma oddsFetches_footballOddsStep eventId bookmaker eventOdds v :
  preserves (fun s => Bounded.oddsFetches s = v)
    (Bounded.footballOddsStep W E eventId bookmaker eventOdds).
Proof. frame. Qed.

Lemma apiCalls_Date_now st :
  Bounded.apiCallsThisHour (Bounded.afterClock st) = Bounded.apiCallsThisHour st.
Proof. reflexivity. Qed.

Lemma fetchNbaOddsForEvent_logs eventId st :
  exists eventOdds s1,
    Bounded.fetchNbaOddsForEvent W E eventId st = (Normal eventOdds, s1)
    /\ Bounded.oddsFetches s1
       = Bounded.oddsFetches st ++ [(eventId, Bounded.apiCallsThisHour st)].
Proof.
  rewrite fetchNbaOddsForEvent_eq. cbv zeta.
  set (st0 := Bounded.set_ticks _ _).
  set (start := Bounded.emptySnapshot _).
  destruct (forOf_returns Bounded.NBA_BOOKMAKERS start
              (Bounded.nbaOddsStep W E eventId)) with (s := st0)
    as (eventOdds & st1 & Hloop).
  { intros x b s. destruct (nbaOddsStep_keeps_keys W E eventId x b s)
      as (b' & go & s' & Hstep & _). eauto. }
  assert (Hlog : Bounded.oddsFetches st1 = Bounded.oddsFetches st0).
  { pose proof (run_preserves
                  (fun s => Bounded.oddsFetches s = Bounded.oddsFetches st0)
                  (forOf Bounded.NBA_BOOKMAKERS start
                     (Bounded.nbaOddsStep W E eventId)) st0) as H.
    rewrite Hloop in H. apply H; [|reflexivity].
    apply preserves_forOf. intros. apply oddsFetches_nbaOddsStep. }
  rewrite Hloop. do 2 eexists. split; [reflexivity|].
  cbn [Bounded.oddsFetches Bounded.set_nbaOdds]. exact Hlog.
Qed.

Lemma fetchFootballOddsForEvent_logs eventId bookmakers st :
  exists eventOdds s1,
    Bounded.fetchFootballOddsForEvent W E eventId bookmakers st
      = (Normal eventOdds, s1)
    /\ Bounded.oddsFetches s1
       = Bounded.oddsFetches st ++ [(eventId, Bounded.apiCallsThisHour st)].
Proof.
  unfold Bounded.fetchFootballOddsForEvent.
  rewrite run_bind. unfold modify at 1. rewrite run_bind.
  unfold Bounded.Date_now at 1. rewrite run_bind.
  set (st0 := Bounded.set_ticks _ _).
  set (start := Bounded.emptySnapshot _).
  destruct (forOf_returns bookmakers start
              (Bounded.footballOddsStep W E eventId)) with (s := st0)
    as (eventOdds & st1 & Hloop).
  { intros x b s. destruct (footballOddsStep_keeps_keys W E eventId x b s)
      as (b' & go & s' & Hstep & _). eauto. }
  assert (Hlog : Bounded.oddsFetches st1 = Bounded.oddsFetches st0).
  { pose proof (run_preserves
                  (fun s => Bounded.oddsFetches s = Bounded.oddsFetches st0)
                  (forOf bookmakers start
                     (Bounded.footballOddsStep W E eventId)) st0) as H.
    rewrite Hloop in H. apply H; [|reflexivity].
    apply preserves_forOf. intros. apply oddsFetches_footballOddsStep. }
  rewrite Hloop. do 2 eexists. split; [reflexivity|].
  cbn [Bounded.oddsFetches Bounded.set_footballOdds]. exact Hlog.
Qed.

Lemma nbaRefreshRound_closed event s :
  Bounded.gateOpen W E s = false ->
  Bounded.nbaRefreshRound W E event tt s
    = (Normal (tt, false), Bounded.afterGate W E s).
Proof.
  intros Hclosed. unfold Bounded.nbaRefreshRound.
  rewrite run_bind, checkRateLimit_gate, Hclosed. reflexivity.
Qed.

Lemma nbaRefreshRound_open event s :
  nullish event = false -> Bounded.gateOpen W E s = true ->
  exists s1,
    Bounded.nbaRefreshRound W E event tt s = (Normal (tt, true), s1)
    /\ Bounded.oddsFetches s1
       = Bounded.oddsFetches s
           ++ [(prop event "id", Bounded.apiCallsThisHour (Bounded.afterGate W E s))].
Proof.
  intros Hevent Hopen. unfold Bounded.nbaRefreshRound.
  rewrite run_bind, checkRateLimit_gate, Hopen. cbn [negb].
  rewrite run_bind. unfold liftC at 1, getProp. rewrite Hevent.
  rewrite run_bind.
  destruct (fetchNbaOddsForEvent_logs (prop event "id") (Bounded.afterGate W E s))
    as (eventOdds & s1 & Hrun & Hlog).
  rewrite Hrun. exists s1. split; [reflexivity|].
  rewrite Hlog, afterGate_oddsFetches. reflexivity.
Qed.

Lemma footballRefreshRound_closed event s :
  Bounded.gateOpen W E s = false ->
  Bounded.footballRefreshRound W E event tt s
    = (Normal (tt, false), Bounded.afterGate W E s).
Proof.
  intros Hclosed. unfold Bounded.footballRefreshRound.
  rewrite run_bind, checkRateLimit_gate, Hclosed. reflexivity.
Qed.

Lemma footballRefreshRound_open event s :
  True -> Bounded.gateOpen W E s = true ->
  exists s1,
    Bounded.footballRefreshRound W E event tt s = (Normal (tt, true), s1)
    /\ Bounded.oddsFetches s1
       = Bounded.oddsFetches s
           ++ [(Bounded.field event "id",
                Bounded.apiCallsThisHour (Bounded.afterGate W E s))].
Proof.
  intros _ Hopen. unfold Bounded.footballRefreshRound.
  rewrite run_bind, checkRateLimit_gate, Hopen. cbn [negb].
  rewrite run_bind.
  destruct (fetchFootballOddsForEvent_logs (Bounded.field event "id")
              Bounded.FOOTBALL_BOOKMAKERS (Bounded.afterGate W E s))
    as (eventOdds & s1 & Hrun & Hlog).
  rewrite Hrun. exists s1. split; [reflexivity|].
  rewrite Hlog, afterGate_oddsFetches. reflexivity.
Qed.

Lemma find_nullish_clean (l : list Value) :
  Forall (fun e => nullish e = false) l -> List.find nullish l = None.
Proof.
  induction 1 as [|e l He Hl IH]; simpl; [reflexivity|].
  rewrite He. exact IH.
Qed.

Lemma sortEvents_clean l :
  Forall (fun e => nullish e = false) l ->
  Bounded.sortEvents W l
  = Normal (sortBy (fun a b => compareDates (Bounded.eventDate W a)
                                 (Bounded.eventDate W b)) l).
Proof.
  intros Hl. unfold Bounded.sortEvents. rewrite (find_nullish_clean l Hl).
  reflexivity.
Qed.

Lemma filterUpcoming_clean limit l :
  Forall (fun e => nullish e = false) l ->
  Bounded.filterUpcoming W limit l
  = Normal (List.filter (fun e => dateAtMost (Bounded.eventDate W e) limit) l).
Proof.
  induction 1 as [|e l He Hl IH]; simpl; [reflexivity|].
  unfold getProp. rewrite He. simpl. rewrite IH. reflexivity.
Qed.

Lemma bounded_fetchNbaEvents_returns st :
  exists events, fst (Bounded.fetchNbaEvents W E st) = Normal events.
Proof.
  rewrite bounded_fetchNbaEvents_eq.
  destruct (fetchWithRateLimit_returns W E (Bounded.nbaEventsUrl W E st)
              (Bounded.afterClock st)) as (data & Hdata).
  destruct (Bounded.fetchWithRateLimit W E _ _) as [r st1]. simpl in Hdata.
  subst r. destruct (truthy data && isArray data); eauto.
Qed.

Lemma refreshNbaOdds_runs st :
  let st0 := Bounded.nbaOddsEntry W E st in
  Forall (fun e => nullish e = false) (Bounded.nbaEvents st0) ->
  Bounded.refreshNbaOdds W E st =
    match forOf (Bounded.upcomingNba W (clock W (Bounded.ticks st0))
                   (Bounded.nbaEvents st0))
            tt (Bounded.nbaRefreshRound W E) (Bounded.afterClock st0) with
    | (Normal _, s1) =>
        (Normal tt,
         Bounded.set_lastNbaOddsUpdate (Some (clock W (Bounded.ticks s1)))
           (Bounded.set_ticks (S (Bounded.ticks s1)) s1))
    | (Thrown e, s1) => (Thrown e, s1)
    end.
Proof.
  intros st0 Hclean. unfold Bounded.refreshNbaOdds.
  rewrite run_bind. unfold get at 1. rewrite run_bind.
  assert (Hentry : ((if (length (Bounded.nbaEvents st) =? 0)%nat
                     then Bounded.fetchNbaEvents W E;; mret tt else mret tt) st)
                   = (Normal tt, st0)).
  { subst st0. unfold Bounded.nbaOddsEntry.
    destruct (length (Bounded.nbaEvents st) =? 0)%nat; [|reflexivity].
    rewrite run_bind. destruct (bounded_fetchNbaEvents_returns st) as (l & Hl).
    destruct (Bounded.fetchNbaEvents W E st) as [r s']. simpl in Hl. subst r.
    reflexivity. }
  rewrite Hentry. rewrite run_bind. unfold get at 1.
  rewrite run_bind. unfold liftC at 1. rewrite (sortEvents_clean _ Hclean).
  rewrite run_bind. unfold Bounded.Date_now at 1.
  rewrite run_bind. unfold liftC at 1.
  rewrite filterUpcoming_clean.
  2:{ apply (Permutation_Forall
               (Permutation_sym (sortBy_Permutation (Bounded.eventDate W) _))).
      exact Hclean. }
  rewrite run_bind. fold (Bounded.afterClock st0).
  fold (Bounded.upcomingNba W (clock W (Bounded.ticks st0)) (Bounded.nbaEvents st0)).
  destruct (forOf _ tt (Bounded.nbaRefreshRound W E) _) as [[[]|e] s1];
    reflexivity.
Qed.

Lemma fetchFootballEvents_returns leagueSlug st :
  exists events s', Bounded.fetchFootballEvents W E leagueSlug st = (Normal events, s').
Proof.
  unfold Bounded.fetchFootballEvents.
  rewrite run_bind. unfold Bounded.Date_now at 1. rewrite run_bind.
  destruct (fetchWithRateLimit_returns W E
              (Bounded.eventsUrl W E "football" leagueSlug (clock W (Bounded.ticks st)))
              (Bounded.set_ticks (S (Bounded.ticks st)) st)) as (data & Hdata).
  destruct (Bounded.fetchWithRateLimit W E _ _) as [r st1]. simpl in Hdata.
  subst r. rewrite run_bind.
  destruct (truthy data && isArray data); do 2 eexists; reflexivity.
Qed.

Lemma leagueRound_returns leagueSlug u s :
  exists r s', Bounded.leagueRound W E leagueSlug u s = (Normal r, s').
Proof.
  unfold Bounded.leagueRound. rewrite run_bind, checkRateLimit_gate.
  destruct (Bounded.gateOpen W E s); cbn [negb]; [|do 2 eexists; reflexivity].
  rewrite run_bind.
  destruct (fetchFootballEvents_returns leagueSlug (Bounded.afterGate W E s))
    as (events & s' & Hrun).
  rewrite Hrun. do 2 eexists. reflexivity.
Qed.

Lemma refreshFootballOdds_runs st :
  let st0 := Bounded.footballOddsEntry W E st in
  Bounded.refreshFootballOdds W E st =
    match forOf (Bounded.upcomingFootball W (clock W (Bounded.ticks st0)) st0)
            tt (Bounded.footballRefreshRound W E) (Bounded.afterClock st0) with
    | (Normal _, s1) =>
        (Normal tt,
         Bounded.set_lastFootballOddsUpdate (Some (clock W (Bounded.ticks s1)))
           (Bounded.set_ticks (S (Bounded.ticks s1)) s1))
    | (Thrown e, s1) => (Thrown e, s1)
    end.
Proof.
  intros st0. unfold Bounded.refreshFootballOdds. rewrite run_bind.
  destruct (forOf_returns Bounded.FOOTBALL_LEAGUES tt (Bounded.leagueRound W E)
              leagueRound_returns st) as ([] & s0 & Hloop).
  assert (Hst0 : st0 = s0).
  { subst st0. unfold Bounded.footballOddsEntry. rewrite Hloop. reflexivity. }
  rewrite Hloop, <- Hst0. rewrite run_bind. unfold get at 1. cbv zeta.
  rewrite run_bind. unfold Bounded.Date_now at 1. rewrite run_bind.
  fold (Bounded.afterClock st0).
  fold (Bounded.upcomingFootball W (clock W (Bounded.ticks st0)) st0).
  destruct (forOf _ tt (Bounded.footballRefreshRound W E) _) as [[[]|e] s1];
    reflexivity.
Qed.

(** The odds refreshes of the bounded edition: what they fetch, in which
    order, and when they stop. *)
Lemma bounded_refreshNbaOdds_order st :
  let st0 := Bounded.nbaOddsEntry W E st in
  let now := clock W (Bounded.ticks st0) in
  let due := Bounded.upcomingNba W now (Bounded.nbaEvents st0) in
  Forall (fun e => nullish e = false) (Bounded.nbaEvents st0) ->
  exists fetched st',
    Bounded.refreshNbaOdds W E st = (Normal tt, st')
    /\ Bounded.oddsFetches st' = Bounded.oddsFetches st0 ++ fetched
    /\ List.map fst fetched
       = List.map (fun e => prop e "id") (take (length fetched) due)
    /\ Forall (fun f => snd f < Bounded.MAX_CALLS_PER_HOUR E) fetched
    /\ ((length fetched < length due)%nat ->
        Bounded.MAX_CALLS_PER_HOUR E <= Bounded.apiCallsThisHour st')
    /\ Permutation due
         (List.filter (fun e => dateAtMost (Bounded.eventDate W e) (now + 3 * dayMs))
            (Bounded.nbaEvents st0))
    /\ (Forall (fun e => is_Some (Bounded.eventDate W e)) (Bounded.nbaEvents st0) ->
        StronglySorted
          (fun a b => notLater (Bounded.eventDate W a) (Bounded.eventDate W b)) due).
Proof.
  intros st0 now due Hclean.
  rewrite (refreshNbaOdds_runs st Hclean). fold st0 now due.
  assert (Hdue : Forall (fun e => nullish e = false) due).
  { subst due. unfold Bounded.upcomingNba.
    apply List.Forall_forall. intros e He. apply List.filter_In in He.
    destruct He as [He _].
    apply (Permutation_in _ (sortBy_Permutation (Bounded.eventDate W) _)) in He.
    rewrite List.Forall_forall in Hclean. exact (Hclean e He). }
  destruct (gatedLoop_trace W E (fun e => prop e "id")
              (fun e => nullish e = false) (Bounded.nbaRefreshRound W E)
              nbaRefreshRound_closed nbaRefreshRound_open due
              (Bounded.afterClock st0) Hdue)
    as (fetched & s1 & Hloop & Hlog & Hids & Hlt & Hstop).
  rewrite Hloop. exists fetched. eexists. split; [reflexivity|].
  split; [exact Hlog|]. split; [exact Hids|]. split; [exact Hlt|].
  split; [exact Hstop|]. split.
  - subst due. unfold Bounded.upcomingNba. apply filter_Permutation.
    apply (sortBy_Permutation (Bounded.eventDate W)).
  - intros Hvalid. subst due. unfold Bounded.upcomingNba.
    apply (filter_sorted (Bounded.eventDate W)).
    apply (sortBy_sorted (Bounded.eventDate W)). exact Hvalid.
Qed.

Lemma bounded_refreshFootballOdds_order st :
  let st0 := Bounded.footballOddsEntry W E st in
  let now := clock W (Bounded.ticks st0) in
  let due := Bounded.upcomingFootball W now st0 in
  exists fetched st',
    Bounded.refreshFootballOdds W E st = (Normal tt, st')
    /\ Bounded.oddsFetches st' = Bounded.oddsFetches st0 ++ fetched
    /\ List.map fst fetched
       = List.map (fun e => Bounded.field e "id") (take (length fetched) due)
    /\ Forall (fun f => snd f < Bounded.MAX_CALLS_PER_HOUR E) fetched
    /\ ((length fetched < length due)%nat ->
        Bounded.MAX_CALLS_PER_HOUR E <= Bounded.apiCallsThisHour st')
    /\ Permutation due
         (List.filter (fun e => dateAtMost (Bounded.fieldDate W e) (now + 3 * dayMs))
            (Bounded.collectEvents st0))
    /\ (Forall (fun e => is_Some (Bounded.fieldDate W e)) (Bounded.collectEvents st0) ->
        StronglySorted
          (fun a b => notLater (Bounded.fieldDate W a) (Bounded.fieldDate W b)) due).
Proof.
  intros st0 now due.
  rewrite (refreshFootballOdds_runs st). fold st0 now due.
  assert (Hdue : Forall (fun _ : gmap string Value => True) due).
  { apply List.Forall_forall. auto. }
  destruct (gatedLoop_trace W E (fun e => Bounded.field e "id")
              (fun _ => True) (Bounded.footballRefreshRound W E)
              footballRefreshRound_closed footballRefreshRound_open due
              (Bounded.afterClock st0) Hdue)
    as (fetched & s1 & Hloop & Hlog & Hids & Hlt & Hstop).
  rewrite Hloop. exists fetched. eexists. split; [reflexivity|].
  split; [exact Hlog|]. split; [exact Hids|]. split; [exact Hlt|].
  split; [exact Hstop|]. split.
  - subst due. unfold Bounded.upcomingFootball. apply filter_Permutation.
    apply (sortBy_Permutation (Bounded.fieldDate W)).
  - intros Hvalid. subst due. unfold Bounded.upcomingFootball.
    apply (filter_sorted (Bounded.fieldDate W)).
    apply (sortBy_sorted (Bounded.fieldDate W)). exact Hvalid.
Qed.

End BoundedRefresh.

(** ** Refreshing the odds, without quota *)

Section OpticRefresh.
Context (W : World) (E : Optic.Env).

Lemma fetchApi_oddsFetches url st :
  exists data st1,
    Optic.fetchApi W E url st = (Normal data, st1)
    /\ Optic.oddsFetches st1 = Optic.oddsFetches st.
Proof.
  rewrite fetchApi_eq. destruct (String.eqb _ ""); [do 2 eexists; eauto|].
  cbv zeta.
  destruct (upstream W (length (Optic.requests st)) url);
    do 2 eexists; (split; [reflexivity|]); reflexivity.
Qed.

Lemma optic_fetchNbaOddsForEvent_logs eventId st :
  Optic.oddsFetches (snd (Optic.fetchNbaOddsForEvent W E eventId st))
  = Optic.oddsFetches st ++ [(eventId, Optic.apiCallCount st)].
Proof.
  rewrite optic_fetchNbaOddsForEvent_eq. cbv zeta.
  destruct (fetchApi_oddsFetches (Optic.oddsUrl eventId Optic.NBA_BOOKMAKERS)
              (Optic.set_ticks (S (Optic.ticks st))
                 (Optic.set_oddsFetches
                    (Optic.oddsFetches st ++ [(eventId, Optic.apiCallCount st)]) st)))
    as (data & st1 & Hrun & Hlog).
  rewrite Hrun. destruct (Optic.buildSnapshot W _ data); exact Hlog.
Qed.

Lemma optic_fetchFootballOddsForEvent_logs eventId bookmakers st :
  Optic.oddsFetches (snd (Optic.fetchFootballOddsForEvent W E eventId bookmakers st))
  = Optic.oddsFetches st ++ [(eventId, Optic.apiCallCount st)].
Proof.
  rewrite optic_fetchFootballOddsForEvent_eq. cbv zeta.
  destruct (fetchApi_oddsFetches (Optic.oddsUrl eventId bookmakers)
              (Optic.set_ticks (S (Optic.ticks st))
                 (Optic.set_oddsFetches
                    (Optic.oddsFetches st ++ [(eventId, Optic.apiCallCount st)]) st)))
    as (data & st1 & Hrun & Hlog).
  rewrite Hrun. destruct (Optic.buildSnapshot W _ data); exact Hlog.
Qed.

Lemma optic_nbaRefreshRound_logs : Optic.logsFetch (Optic.nbaRefreshRound W E).
Proof.
  intros event s. unfold Optic.nbaRefreshRound. rewrite run_bind.
  pose proof (optic_fetchNbaOddsForEvent_logs (Optic.id event) s) as Hlog.
  destruct (Optic.fetchNbaOddsForEvent W E (Optic.id event) s) as [[eo|e] s1];
    simpl in Hlog; [|exact Hlog].
  split; [reflexivity|exact Hlog].
Qed.

Lemma optic_footballRefreshRound_logs :
  Optic.logsFetch (Optic.footballRefreshRound W E).
Proof.
  intros event s. unfold Optic.footballRefreshRound. rewrite run_bind.
  pose proof (optic_fetchFootballOddsForEvent_logs (Optic.id event)
                Optic.FOOTBALL_BOOKMAKERS s) as Hlog.
  destruct (Optic.fetchFootballOddsForEvent W E (Optic.id event) _ s)
    as [[eo|e] s1]; simpl in Hlog; [|exact Hlog].
  split; [reflexivity|exact Hlog].
Qed.

(** The loop over all the events: every event is fetched, in the order
    of the list, unless a fetch throws and ends the loop. *)
Lemma optic_loop_trace round l s :
  Optic.logsFetch round ->
  match forOf l tt round s with
  | (Normal _, s') =>
      exists fetched,
        Optic.oddsFetches s' = Optic.oddsFetches s ++ fetched
        /\ List.map fst fetched = List.map Optic.id l
  | (Thrown _, s') =>
      exists fetched k,
        Optic.oddsFetches s' = Optic.oddsFetches s ++ fetched
        /\ List.map fst fetched = List.map Optic.id (take k l)
  end.
Proof.
  intros Hlogs. revert s. induction l as [|e l IH]; intros s.
  - simpl. exists []. rewrite app_nil_r. auto.
  - rewrite forOf_cons. pose proof (Hlogs e s) as Hround.
    destruct (round e tt s) as [[r|err] s1].
    + destruct Hround as [-> Hlog]. specialize (IH s1).
      destruct (forOf l tt round s1) as [[[]|err] s'].
      * destruct IH as (fetched & Htrace & Hids).
        exists ((Optic.id e, Optic.apiCallCount s) :: fetched).
        split; [rewrite Htrace, Hlog, <- app_assoc; reflexivity|].
        simpl. rewrite Hids. reflexivity.
      * destruct IH as (fetched & k & Htrace & Hids).
        exists ((Optic.id e, Optic.apiCallCount s) :: fetched), (S k).
        split; [rewrite Htrace, Hlog, <- app_assoc; reflexivity|].
        simpl. rewrite Hids. reflexivity.
    + exists [(Optic.id e, Optic.apiCallCount s)], 1%nat.
      split; [exact Hround|]. reflexivity.
Qed.

Lemma optic_refreshNbaOdds_order st :
  let st0 := Optic.nbaOddsEntry W E st in
  let sorted := Optic.sortEvents W (Optic.nbaEvents st0) in
  match Optic.refreshNbaOdds W E st with
  | (Normal _, st') =>
      exists fetched,
        Optic.oddsFetches st' = Optic.oddsFetches st0 ++ fetched
        /\ List.map fst fetched = List.map Optic.id sorted
  | (Thrown _, st') =>
      exists fetched k,
        Optic.oddsFetches st' = Optic.oddsFetches st0 ++ fetched
        /\ List.map fst fetched = List.map Optic.id (take k sorted)
  end.
Proof.
  intros st0 sorted. unfold Optic.refreshNbaOdds.
  rewrite run_bind. unfold get at 1. rewrite run_bind.
  assert (Hentry :
            match ((if (length (Optic.nbaEvents st) =? 0)%nat
                    then Optic.fetchNbaEvents W E;; mret tt else mret tt) st) with
            | (Normal _, s) => s = st0
            | (Thrown _, s) => s = st0
            end).
  { subst st0. unfold Optic.nbaOddsEntry.
    destruct (length (Optic.nbaEvents st) =? 0)%nat; [|reflexivity].
    rewrite run_bind.
    destruct (Optic.fetchNbaEvents W E st) as [[l|e] s']; reflexivity. }
  destruct ((if (length (Optic.nbaEvents st) =? 0)%nat
             then Optic.fetchNbaEvents W E;; mret tt else mret tt) st)
    as [[[]|e] s0]; subst s0.
  - rewrite run_bind. unfold get at 1. cbv zeta. rewrite run_bind.
    fold sorted.
    pose proof (optic_loop_trace _ sorted st0 optic_nbaRefreshRound_logs) as Hloop.
    destruct (forOf sorted tt (Optic.nbaRefreshRound W E) st0) as [[[]|e] s1].
    + destruct Hloop as (fetched & Htrace & Hids).
      exists fetched. split; [exact Htrace|exact Hids].
    + exact Hloop.
  - exists [], 0%nat. rewrite app_nil_r. split; reflexivity.
Qed.

Lemma optic_refreshFootballOdds_order st :
  let st0 := Optic.footballOddsEntry W E st in
  let sorted := Optic.sortEvents W (Optic.collectEvents st0) in
  match Optic.refreshFootballOdds W E st with
  | (Normal _, st') =>
      exists fetched,
        Optic.oddsFetches st' = Optic.oddsFetches st0 ++ fetched
        /\ List.map fst fetched = List.map Optic.id sorted
  | (Thrown _, st') =>
      exists fetched k,
        Optic.oddsFetches st' = Optic.oddsFetches st0 ++ fetched
        /\ List.map fst fetched = List.map Optic.id (take k sorted)
  end.
Proof.
  intros st0 sorted. unfold Optic.refreshFootballOdds. rewrite run_bind.
  subst sorted st0. unfold Optic.footballOddsEntry.
  destruct (forOf Optic.FOOTBALL_LEAGUES tt (Optic.leagueRound W E) st)
    as [[[]|e] s0]; cbn [snd].
  - rewrite run_bind. unfold get at 1. cbv zeta. rewrite run_bind.
    pose proof (optic_loop_trace _ (Optic.sortEvents W (Optic.collectEvents s0)) s0
                  optic_footballRefreshRound_logs) as Hloop.
    destruct (forOf _ tt (Optic.footballRefreshRound W E) s0) as [[[]|e] s1].
    + destruct Hloop as (fetched & Htrace & Hids).
      exists fetched. split; [exact Htrace|exact Hids].
    + exact Hloop.
  - exists [], 0%nat. rewrite app_nil_r. split; reflexivity.
Qed.

End OpticRefresh.

(** ** What an odds refresh fetches *)

Section RefreshOrder.
Context (W : World) (EB : Bounded.Env) (EO : Optic.Env).


End RefreshOrder.



(** * More of what the two editions do *)

(** ** Properties every method keeps *)

Section Leaves.
Context {W : World}.

Lemma preserves_bounded_Date_now (I : Bounded.State -> Prop) :
  (forall s, I s -> I (Bounded.set_ticks (S (Bounded.ticks s)) s)) ->
  preserves I (Bounded.Date_now W).
Proof. intros H s Hs. simpl. auto. Qed.

Lemma preserves_bounded_fetch (I : Bounded.State -> Prop) url :
  (forall s, I s ->
     I (Bounded.set_requests
          (Bounded.requests s ++ [(url, Bounded.apiCallsThisHour s)]) s)) ->
  preserves I (Bounded.fetch W url).
Proof. intros H s Hs. simpl. auto. Qed.

Lemma preserves_optic_Date_now (I : Optic.State -> Prop) :
  (forall s, I s -> I (Optic.set_ticks (S (Optic.ticks s)) s)) ->
  preserves I (Optic.Date_now W).
Proof. intros H s Hs. simpl. auto. Qed.

Lemma preserves_optic_fetch (I : Optic.State -> Prop) url :
  (forall s, I s ->
     I (Optic.set_requests
          (Optic.requests s ++ [(url, Optic.apiCallCount s)]) s)) ->
  preserves I (Optic.fetch W url).
Proof. intros H s Hs. simpl. auto. Qed.

End Leaves.

(** A method is opened up down to its assignments and its readings of
    the clock and of the provider; [leaf] shows that each of them keeps
    the property. *)
Ltac invariant_step leaf :=
  first
    [ pres_step
    | apply preserves_modify; solve [leaf]
    | apply preserves_bounded_Date_now; solve [leaf]
    | apply preserves_bounded_fetch; solve [leaf]
    | apply preserves_optic_Date_now; solve [leaf]
    | apply preserves_optic_fetch; solve [leaf]
    | match goal with
      | |- preserves _ (?f _ _ _ _ _) => unfold f
      | |- preserves _ (?f _ _ _ _) => unfold f
      | |- preserves _ (?f _ _ _) => unfold f
      | |- preserves _ (?f _ _) => unfold f
      | |- preserves _ (?f _) => unfold f
      end ].

Ltac invariant leaf := repeat invariant_step leaf.

(** The same with methods already dealt with, which [known] closes. *)
Ltac invariant_with known leaf :=
  repeat first [ solve [known] | invariant_step leaf ].

Section Sequences.
Context (W : World) (EB : Bounded.Env) (EO : Optic.Env).

Lemma bounded_statesAlong_keep (I : Bounded.State -> Prop) :
  (forall c s, I s -> I (Bounded.perform W EB c s)) ->
  forall calls st st',
    I st -> In st' (Bounded.statesAlong W EB calls st) -> I st'.
Proof.
  intros Hstep calls. induction calls as [|c calls IH]; intros st st' Hst Hin.
  - destruct Hin.
  - simpl in Hin. destruct Hin as [<-|Hin]; [apply Hstep; exact Hst|].
    apply (IH (Bounded.perform W EB c st)); [apply Hstep; exact Hst|exact Hin].
Qed.

Lemma optic_statesAlong_keep (I : Optic.State -> Prop) :
  (forall c s, I s -> I (Optic.perform W EO c s)) ->
  forall calls st st',
    I st -> In st' (Optic.statesAlong W EO calls st) -> I st'.
Proof.
  intros Hstep calls. induction calls as [|c calls IH]; intros st st' Hst Hin.
  - destruct Hin.
  - simpl in Hin. destruct Hin as [<-|Hin]; [apply Hstep; exact Hst|].
    apply (IH (Optic.perform W EO c st)); [apply Hstep; exact Hst|exact Hin].
Qed.

End Sequences.

(** ** Odds are never taken out of the cache *)

Section Retention.
Context (W : World) (EB : Bounded.Env) (EO : Optic.Env).

Ltac holds_leaf :=
  let s := fresh "s" in
  let H1 := fresh "H" in
  let H2 := fresh "H" in
  intros s [H1 H2]; split; simpl; try assumption;
  rewrite dom_insert_L; (etrans; [eassumption|apply union_subseteq_r]).

Lemma bounded_perform_holds (D D' : gset string) c st :
  D ⊆ dom (Bounded.nbaOdds st) /\ D' ⊆ dom (Bounded.footballOdds st) ->
  D ⊆ dom (Bounded.nbaOdds (Bounded.perform W EB c st))
  /\ D' ⊆ dom (Bounded.footballOdds (Bounded.perform W EB c st)).
Proof.
  intros Hst.
  destruct c; simpl;
    apply (run_preserves
             (fun s => D ⊆ dom (Bounded.nbaOdds s)
                       /\ D' ⊆ dom (Bounded.footballOdds s)));
    try exact Hst; invariant holds_leaf.
Qed.

Lemma optic_perform_holds (D D' : gset string) c st :
  D ⊆ dom (Optic.nbaOdds st) /\ D' ⊆ dom (Optic.footballOdds st) ->
  D ⊆ dom (Optic.nbaOdds (Optic.perform W EO c st))
  /\ D' ⊆ dom (Optic.footballOdds (Optic.perform W EO c st)).
Proof.
  intros Hst.
  destruct c; simpl;
    apply (run_preserves
             (fun s => D ⊆ dom (Optic.nbaOdds s)
                       /\ D' ⊆ dom (Optic.footballOdds s)));
    try exact Hst; invariant holds_leaf.
Qed.

(** X1: no method of either edition removes an entry of [nbaOdds] or of
    [footballOdds]: an event that has an entry in a state has one in
    every state that a sequence of calls leads to from it. *)
Theorem odds_entries_are_never_removed :
  (forall calls st st',
     In st' (Bounded.statesAlong W EB calls st) ->
     dom (Bounded.nbaOdds st) ⊆ dom (Bounded.nbaOdds st')
     /\ dom (Bounded.footballOdds st) ⊆ dom (Bounded.footballOdds st'))
  /\ (forall calls st st',
        In st' (Optic.statesAlong W EO calls st) ->
        dom (Optic.nbaOdds st) ⊆ dom (Optic.nbaOdds st')
        /\ dom (Optic.footballOdds st) ⊆ dom (Optic.footballOdds st')).
Proof.
  split; intros calls st st' Hin.
  - apply (bounded_statesAlong_keep W EB
             (fun s => dom (Bounded.nbaOdds st) ⊆ dom (Bounded.nbaOdds s)
                       /\ dom (Bounded.footballOdds st)
                            ⊆ dom (Bounded.footballOdds s)))
      with (calls := calls) (st := st); [|split; reflexivity|exact Hin].
    intros c s. apply bounded_perform_holds.
  - apply (optic_statesAlong_keep W EO
             (fun s => dom (Optic.nbaOdds st) ⊆ dom (Optic.nbaOdds s)
                       /\ dom (Optic.footballOdds st)
                            ⊆ dom (Optic.footballOdds s)))
      with (calls := calls) (st := st); [|split; reflexivity|exact Hin].
    intros c s. apply optic_perform_holds.
Qed.

End Retention.

(** ** The quota-free edition: the key, the counter, the leagues *)

Section OpticInvariants.
Context (W : World) (E : Optic.Env).

Lemma counted_fetchApi url : preserves Optic.counted (Optic.fetchApi W E url).
Proof.
  intros s [Hcount Hnth]. rewrite fetchApi_eq.
  assert (Hgrown :
            forall i r,
              (Optic.requests s ++ [(url, Optic.apiCallCount s + 1)]) !! i = Some r ->
              snd r = Z.of_nat (S i)).
  { intros i r Hi. apply lookup_app_Some in Hi.
    destruct Hi as [Hi|[Hlen Hi]]; [exact (Hnth i r Hi)|].
    apply list_lookup_singleton_Some in Hi. destruct Hi as [Hz <-]. simpl. lia. }
  destruct (String.eqb _ ""); [split; assumption|]. cbv zeta.
  destruct (upstream W _ url); split; simpl;
    try exact Hgrown; rewrite length_app; simpl; lia.
Qed.

Ltac counted_leaf :=
  let s := fresh "s" in
  let H := fresh "H" in
  intros s H; exact H.

Lemma counted_perform c s : Optic.counted s -> Optic.counted (Optic.perform W E c s).
Proof.
  intros Hs. destruct c; simpl; apply run_preserves; try exact Hs;
    invariant_with ltac:(apply counted_fetchApi) counted_leaf.
Qed.

(** X2: [apiCallCount] counts the requests sent.  In every state that a
    sequence of calls leads to from the fresh object, the counter is the
    number of requests sent so far, and the [n]-th request left when the
    counter had just become [n]. *)
Theorem apiCallCount_counts_the_requests calls st :
  In st (Optic.constructor :: Optic.statesAlong W E calls Optic.constructor) ->
  Optic.apiCallCount st = Z.of_nat (length (Optic.requests st))
  /\ forall i r, Optic.requests st !! i = Some r -> snd r = Z.of_nat (S i).
Proof.
  assert (Hfresh : Optic.counted Optic.constructor).
  { split; [reflexivity|]. intros i r Hi. destruct i; discriminate. }
  intros [<-|Hin]; [exact Hfresh|].
  exact (optic_statesAlong_keep W E Optic.counted counted_perform
           calls Optic.constructor st Hfresh Hin).
Qed.

Section Unkeyed.
Hypothesis no_key : Optic.OPTIC_API_KEY E = "".

Lemma unkeyed_fetchApi url st :
  Optic.fetchApi W E url st
  = (Normal VNull,
     Optic.set_lastError
       (Some {| time := clock W (Optic.ticks st);
                errMessage := "API key not configured"; url := None |})
       (Optic.set_ticks (S (Optic.ticks st)) st)).
Proof. rewrite fetchApi_eq, no_key. reflexivity. Qed.

Lemma unkeyed_fetchApi_keeps (I : Optic.State -> Prop) url :
  (forall s e, I s -> I (Optic.set_lastError e (Optic.set_ticks (S (Optic.ticks s)) s))) ->
  preserves I (Optic.fetchApi W E url).
Proof. intros H s Hs. rewrite unkeyed_fetchApi. apply H. exact Hs. Qed.

Lemma unkeyed_fetchNbaEvents_keeps (I : Optic.State -> Prop) :
  (forall s e, I s -> I (Optic.set_lastError e (Optic.set_ticks (S (Optic.ticks s)) s))) ->
  preserves I (Optic.fetchNbaEvents W E).
Proof.
  intros H s Hs. rewrite optic_fetchNbaEvents_eq, unkeyed_fetchApi. simpl.
  apply H. exact Hs.
Qed.

Lemma unkeyed_fetchFootballEvents_keeps (I : Optic.State -> Prop) leagueSlug :
  (forall s e, I s -> I (Optic.set_lastError e (Optic.set_ticks (S (Optic.ticks s)) s))) ->
  preserves I (Optic.fetchFootballEvents W E leagueSlug).
Proof.
  intros H s Hs. rewrite optic_fetchFootballEvents_eq, unkeyed_fetchApi. simpl.
  apply H. exact Hs.
Qed.

Ltac unkeyed_leaf :=
  let s := fresh "s" in
  let H := fresh "H" in
  intros s H; exact H.

Ltac unkeyed_known :=
  first [ apply unkeyed_fetchNbaEvents_keeps
        | apply unkeyed_fetchFootballEvents_keeps
        | apply unkeyed_fetchApi_keeps ];
  let s := fresh "s" in
  let e := fresh "e" in
  let H := fresh "H" in
  intros s e H; exact H.

Lemma unkeyed_perform st0 c s :
  (Optic.requests s = Optic.requests st0
   /\ Optic.apiCallCount s = Optic.apiCallCount st0
   /\ Optic.nbaEvents s = Optic.nbaEvents st0
   /\ Optic.footballEvents s = Optic.footballEvents st0) ->
  Optic.requests (Optic.perform W E c s) = Optic.requests st0
  /\ Optic.apiCallCount (Optic.perform W E c s) = Optic.apiCallCount st0
  /\ Optic.nbaEvents (Optic.perform W E c s) = Optic.nbaEvents st0
  /\ Optic.footballEvents (Optic.perform W E c s) = Optic.footballEvents st0.
Proof.
  intros Hs.
  destruct c; simpl;
    apply (run_preserves
             (fun s => Optic.requests s = Optic.requests st0
                       /\ Optic.apiCallCount s = Optic.apiCallCount st0
                       /\ Optic.nbaEvents s = Optic.nbaEvents st0
                       /\ Optic.footballEvents s = Optic.footballEvents st0));
    try exact Hs; invariant_with unkeyed_known unkeyed_leaf.
Qed.

(** X3: without [OPTIC_ODDS_API_KEY] nothing is ever requested.  Every
    [fetchApi] returns [null] at once and records the missing key in
    [lastError] (with no url); and whatever methods are called, in any
    order, no request is sent, the counter does not move, and the cached
    events stay as they were. *)
Theorem without_a_key_nothing_is_requested :
  (forall url st,
     exists st',
       Optic.fetchApi W E url st = (Normal VNull, st')
       /\ Optic.lastError st'
          = Some {| time := clock W (Optic.ticks st);
                    errMessage := "API key not configured"; url := None |})
  /\ (forall calls st st',
        In st' (Optic.statesAlong W E calls st) ->
        Optic.requests st' = Optic.requests st
        /\ Optic.apiCallCount st' = Optic.apiCallCount st
        /\ Optic.nbaEvents st' = Optic.nbaEvents st
        /\ Optic.footballEvents st' = Optic.footballEvents st).
Proof.
  split.
  - intros url st. eexists. rewrite unkeyed_fetchApi. split; reflexivity.
  - intros calls st st' Hin.
    apply (optic_statesAlong_keep W E
             (fun s => Optic.requests s = Optic.requests st
                       /\ Optic.apiCallCount s = Optic.apiCallCount st
                       /\ Optic.nbaEvents s = Optic.nbaEvents st
                       /\ Optic.footballEvents s = Optic.footballEvents st))
      with (calls := calls) (st := st); [|repeat split|exact Hin].
    intros c s. apply unkeyed_perform.
Qed.

End Unkeyed.

Lemma mapEvents_labelled leagueName l events :
  Optic.mapEvents leagueName l = Normal events ->
  Forall (fun e => Optic.league e = VStr leagueName) events.
Proof.
  revert events. induction l as [|x l IH]; intros events Hmap; simpl in Hmap.
  - inversion Hmap. constructor.
  - destruct (Optic.toEvent leagueName x) as [e|err] eqn:He; [|discriminate].
    simpl in Hmap.
    destruct (Optic.mapEvents leagueName l) as [es|err]; [|discriminate].
    simpl in Hmap. inversion Hmap; subst. constructor; [|apply IH; reflexivity].
    unfold Optic.toEvent in He.
    repeat match type of He with
           | context [getProp ?v ?k] => destruct (getProp v k); simpl in He;
                                        [|discriminate]
           end.
    inversion He. reflexivity.
Qed.

Ltac labelled_leaf :=
  let s := fresh "s" in
  let H := fresh "H" in
  intros s H; exact H.

Lemma labelled_fetchApi url : preserves Optic.labelled (Optic.fetchApi W E url).
Proof. invariant labelled_leaf. Qed.

Lemma labelled_fetchNbaEvents : preserves Optic.labelled (Optic.fetchNbaEvents W E).
Proof.
  intros s Hs. rewrite optic_fetchNbaEvents_eq.
  pose proof (labelled_fetchApi Optic.nbaEventsUrl s Hs) as Hfetch.
  destruct (Optic.fetchApi W E Optic.nbaEventsUrl s) as [[data|e] s1];
    [|exact Hfetch].
  destruct (truthy data && truthy (prop data "data") && isArray (prop data "data"));
    [|exact Hfetch].
  destruct (Optic.mapEvents "nba" (items (prop data "data"))) as [events|e]
    eqn:Hmap; [|exact Hfetch].
  destruct Hfetch as [_ Hfootball]. split; [|exact Hfootball].
  exact (mapEvents_labelled _ _ _ Hmap).
Qed.

Lemma labelled_fetchFootballEvents leagueSlug :
  preserves Optic.labelled (Optic.fetchFootballEvents W E leagueSlug).
Proof.
  intros s Hs. rewrite optic_fetchFootballEvents_eq.
  pose proof (labelled_fetchApi (Optic.footballEventsUrl leagueSlug) s Hs) as Hfetch.
  destruct (Optic.fetchApi W E (Optic.footballEventsUrl leagueSlug) s)
    as [[data|e] s1]; [|exact Hfetch].
  destruct (truthy data && truthy (prop data "data") && isArray (prop data "data"));
    [|exact Hfetch].
  destruct (Optic.mapEvents leagueSlug (items (prop data "data"))) as [events|e]
    eqn:Hmap; [|exact Hfetch].
  destruct Hfetch as [Hnba Hfootball]. cbv zeta. split; [exact Hnba|].
  intros l evs Hl. simpl in Hl.
  destruct (decide (leagueSlug = l)) as [->|Hne].
  - rewrite lookup_insert_eq in Hl. inversion Hl; subst.
    exact (mapEvents_labelled _ _ _ Hmap).
  - rewrite lookup_insert_ne in Hl by exact Hne. exact (Hfootball l evs Hl).
Qed.

Ltac labelled_known :=
  first [ apply labelled_fetchNbaEvents
        | apply labelled_fetchFootballEvents
        | apply labelled_fetchApi ].

Lemma labelled_perform c s :
  Optic.labelled s -> Optic.labelled (Optic.perform W E c s).
Proof.
  intros Hs. destruct c; simpl; apply run_preserves; try exact Hs;
    invariant_with labelled_known labelled_leaf.
Qed.

Lemma labelled_withLeague l evs :
  Forall (fun e => Optic.league e = VStr l) evs ->
  List.map (Optic.withLeague l) evs = evs.
Proof.
  induction 1 as [|e evs He Hevs IH]; simpl; [reflexivity|].
  rewrite IH. f_equal. destruct e. simpl in He. subst. reflexivity.
Qed.

(** X4: every cached event carries the league it is cached under.  In
    every state that a sequence of calls leads to from the fresh object,
    the NBA events have league ['nba'] and the events cached for a
    football league have that league; so the events that
    [refreshFootballOdds] collects, relabelled [{ ...e, league }], are
    the cached events themselves, league after league. *)
Theorem cached_events_carry_their_league calls st :
  In st (Optic.constructor :: Optic.statesAlong W E calls Optic.constructor) ->
  Forall (fun e => Optic.league e = VStr "nba") (Optic.nbaEvents st)
  /\ (forall l evs, Optic.footballEvents st !! l = Some evs ->
        Forall (fun e => Optic.league e = VStr l) evs)
  /\ Optic.collectEvents st
     = flat_map (fun l => default [] (Optic.footballEvents st !! l))
         Optic.FOOTBALL_LEAGUES.
Proof.
  intros Hin.
  assert (Hst : Optic.labelled st).
  { assert (Hfresh : Optic.labelled Optic.constructor).
    { split; [constructor|]. intros l evs Hl. simpl in Hl.
      rewrite lookup_empty in Hl. discriminate. }
    destruct Hin as [<-|Hin]; [exact Hfresh|].
    exact (optic_statesAlong_keep W E Optic.labelled labelled_perform
             calls Optic.constructor st Hfresh Hin). }
  destruct Hst as [Hnba Hfootball]. split; [exact Hnba|]. split; [exact Hfootball|].
  unfold Optic.collectEvents.
  induction Optic.FOOTBALL_LEAGUES as [|l ls IH]; simpl; [reflexivity|].
  rewrite IH. f_equal.
  destruct (Optic.footballEvents st !! l) as [evs|] eqn:Hl; simpl; [|reflexivity].
  apply labelled_withLeague. exact (Hfootball l evs Hl).
Qed.

End OpticInvariants.

(** ** An error, once recorded, is never cleared *)

Section Errors.
Context (W : World) (EB : Bounded.Env) (EO : Optic.Env).

Ltac recorded_leaf :=
  let s := fresh "s" in
  let H := fresh "H" in
  intros s H; simpl; first [exact H | discriminate].

Lemma bounded_error_stays c s :
  Bounded.lastError s <> None -> Bounded.lastError (Bounded.perform W EB c s) <> None.
Proof.
  intros Hs.
  destruct c; simpl;
    apply (run_preserves (fun s => Bounded.lastError s <> None));
    try exact Hs; invariant recorded_leaf.
Qed.

Lemma optic_error_stays c s :
  Optic.lastError s <> None -> Optic.lastError (Optic.perform W EO c s) <> None.
Proof.
  intros Hs.
  destruct c; simpl;
    apply (run_preserves (fun s => Optic.lastError s <> None));
    try exact Hs; invariant recorded_leaf.
Qed.

(** X5: [lastError] is only ever assigned an error.  Once a state has
    one, every state a sequence of calls leads to from it has one too:
    no method, and no successful request, sets it back to [null]. *)
Theorem lastError_is_never_cleared :
  (forall calls st st',
     Bounded.lastError st <> None ->
     In st' (Bounded.statesAlong W EB calls st) ->
     Bounded.lastError st' <> None)
  /\ (forall calls st st',
        Optic.lastError st <> None ->
        In st' (Optic.statesAlong W EO calls st) ->
        Optic.lastError st' <> None).
Proof.
  split; intros calls st st' Hst Hin.
  - exact (bounded_statesAlong_keep W EB (fun s => Bounded.lastError s <> None)
             bounded_error_stays calls st st' Hst Hin).
  - exact (optic_statesAlong_keep W EO (fun s => Optic.lastError s <> None)
             optic_error_stays calls st st' Hst Hin).
Qed.

End Errors.

(** ** How the quota-free edition groups the odds it is sent *)

Section Grouping.
Context (W : World).

Lemma getProp_defined v k : nullish v = false -> getProp v k = Normal (prop v k).
Proof. intros H. unfold getProp. rewrite H. reflexivity. Qed.

Lemma oddStep_outcomes odd eventOdds eventOdds' book market :
  Optic.oddStep odd eventOdds = Normal eventOdds' ->
  Optic.outcomesAt eventOdds' book market
  = Optic.outcomesAt eventOdds book market
      ++ (if Optic.quotedAt book market odd then [Optic.outcomeOf odd] else []).
Proof.
  unfold Optic.oddStep. intros Hstep.
  destruct (nullish odd) eqn:Hodd.
  { unfold getProp in Hstep. rewrite Hodd in Hstep. discriminate. }
  rewrite !(getProp_defined odd _ Hodd) in Hstep. simpl in Hstep.
  set (bk := toString (prop odd "sportsbook")) in *.
  set (mk := toString (prop odd "market")) in *.
  destruct (inherited bk); [discriminate|].
  destruct (inherited mk); [discriminate|].
  inversion Hstep; subst eventOdds'; clear Hstep.
  unfold Optic.outcomesAt, Optic.quotedAt. fold bk mk. simpl.
  destruct (String.eqb_spec bk book) as [Hb|Hb].
  - subst book. rewrite lookup_insert_eq. simpl.
    destruct (String.eqb_spec mk market) as [Hm|Hm].
    + subst market. rewrite lookup_insert_eq. simpl.
      destruct (Optic.bookmakers eventOdds !! bk) as [b|]; reflexivity.
    + rewrite lookup_insert_ne by exact Hm. rewrite app_nil_r.
      destruct (Optic.bookmakers eventOdds !! bk) as [b|]; reflexivity.
  - rewrite lookup_insert_ne by exact Hb. simpl. rewrite app_nil_r. reflexivity.
Qed.

Lemma mergeOdds_outcomes odds eventOdds eventOdds' book market :
  Optic.mergeOdds odds eventOdds = Normal eventOdds' ->
  Optic.outcomesAt eventOdds' book market
  = Optic.outcomesAt eventOdds book market
      ++ List.map Optic.outcomeOf (List.filter (Optic.quotedAt book market) odds).
Proof.
  revert eventOdds. induction odds as [|odd odds IH]; intros eventOdds Hmerge.
  - inversion Hmerge. simpl. rewrite app_nil_r. reflexivity.
  - simpl in Hmerge.
    destruct (Optic.oddStep odd eventOdds) as [eventOdds1|e] eqn:Hstep;
      [|discriminate].
    simpl in Hmerge. rewrite (IH _ Hmerge).
    rewrite (oddStep_outcomes _ _ _ book market Hstep). simpl.
    destruct (Optic.quotedAt book market odd); simpl.
    + rewrite <- app_assoc. reflexivity.
    + rewrite app_nil_r. reflexivity.
Qed.

Lemma oddStep_returns odd eventOdds :
  nullish odd = false ->
  inherited (toString (prop odd "sportsbook")) = false ->
  inherited (toString (prop odd "market")) = false ->
  exists eventOdds',
    Optic.oddStep odd eventOdds = Normal eventOdds'
    /\ Optic.cachedAt eventOdds' = Optic.cachedAt eventOdds.
Proof.
  intros Hodd Hb Hm. unfold Optic.oddStep.
  rewrite !(getProp_defined odd _ Hodd). simpl. rewrite Hb, Hm.
  eexists. split; reflexivity.
Qed.

Lemma mergeOdds_returns odds eventOdds :
  Forall (fun odd => nullish odd = false
                     /\ inherited (toString (prop odd "sportsbook")) = false
                     /\ inherited (toString (prop odd "market")) = false) odds ->
  exists eventOdds',
    Optic.mergeOdds odds eventOdds = Normal eventOdds'
    /\ Optic.cachedAt eventOdds' = Optic.cachedAt eventOdds.
Proof.
  intros Hodds. revert eventOdds.
  induction Hodds as [|odd odds (Hodd & Hb & Hm) _ IH]; intros eventOdds.
  - exists eventOdds. split; reflexivity.
  - destruct (oddStep_returns odd eventOdds Hodd Hb Hm) as (s1 & Hstep & Hat).
    destruct (IH s1) as (s2 & Hrest & Hat2).
    exists s2. simpl. rewrite Hstep. simpl. split; [exact Hrest|congruence].
Qed.

Lemma buildSnapshot_eq stamp data fixture rest odds :
  prop data "data" = VArr (fixture :: rest) ->
  prop fixture "odds" = VArr odds ->
  Optic.buildSnapshot W stamp data =
    match Optic.mergeOdds odds (Optic.emptySnapshot stamp) with
    | Normal merged =>
        Normal {| Optic.bookmakers := Optic.bookmakers merged;
                  Optic.cachedAt := Optic.cachedAt merged;
                  Optic.home := prop fixture "home_team";
                  Optic.away := prop fixture "away_team";
                  Optic.date := prop fixture "start_date" |}
    | Thrown e => Thrown e
    end.
Proof.
  intros Hdata Hodds.
  assert (Hd : nullish data = false /\ truthy data = true).
  { destruct data as [| | | |s| |]; try discriminate; try (split; reflexivity).
    destruct s; [discriminate|split; reflexivity]. }
  destruct Hd as [Hnull Htruthy].
  assert (Hf : nullish fixture = false).
  { destruct fixture; try discriminate; try reflexivity. }
  unfold Optic.buildSnapshot. rewrite Htruthy.
  rewrite (getProp_defined data _ Hnull), Hdata. simpl.
  rewrite !(getProp_defined fixture _ Hf), Hodds. simpl.
  destruct (Optic.mergeOdds odds (Optic.emptySnapshot stamp)); reflexivity.
Qed.


End Grouping.

(** ** The quota edition: what is left of the budget, and a budget used up *)

Section BoundedRange.
Import Bounded.
Context (W : World) (E : Env).
Hypothesis limit_positive : 0 < MAX_CALLS_PER_HOUR E.

Lemma inRange_checkRateLimit : preserves (inRange E) (checkRateLimit W E).
Proof.
  intros s Hs. unfold inRange in *. rewrite checkRateLimit_eq. simpl.
  destruct (hourMs <=? _); simpl; lia.
Qed.

Lemma inRange_fetchWithRateLimit url :
  preserves (inRange E) (fetchWithRateLimit W E url).
Proof.
  intros s Hs. rewrite fetchWithRateLimit_eq.
  pose proof (inRange_checkRateLimit s Hs) as Hg.
  rewrite checkRateLimit_gate in Hg.
  pose proof (gateOpen_spec W E s) as Hopen. cbv zeta.
  destruct (gateOpen W E s); [|exact Hg].
  symmetry in Hopen. apply Z.ltb_lt in Hopen. unfold inRange in *.
  destruct (upstream W _ url); simpl; lia.
Qed.

Ltac inRange_leaf :=
  let s := fresh "s" in
  let H := fresh "H" in
  intros s H; exact H.

Ltac inRange_known :=
  first [ apply inRange_fetchWithRateLimit | apply inRange_checkRateLimit ].

Lemma inRange_perform c s : inRange E s -> inRange E (perform W E c s).
Proof.
  intros Hs. destruct c; simpl; apply run_preserves; try exact Hs;
    invariant_with inRange_known inRange_leaf.
Qed.

(** X7: what [getRemainingCalls] reports is never negative and never more
    than the limit: in every state that a sequence of calls leads to from
    the fresh object it returns [MAX_CALLS_PER_HOUR] less the calls of
    the current hour, a number from [0] to [MAX_CALLS_PER_HOUR]. *)
Theorem remaining_calls_stay_within_the_limit calls st :
  In st (constructor W :: statesAlong W E calls (constructor W)) ->
  exists remaining st',
    getRemainingCalls W E st = (Normal remaining, st')
    /\ remaining = MAX_CALLS_PER_HOUR E - apiCallsThisHour st'
    /\ 0 <= remaining <= MAX_CALLS_PER_HOUR E.
Proof.
  intros Hin.
  assert (Hst : inRange E st).
  { assert (Hfresh : inRange E (constructor W)) by (unfold inRange; simpl; lia).
    destruct Hin as [<-|Hin]; [exact Hfresh|].
    exact (bounded_statesAlong_keep W E (inRange E) inRange_perform
             calls (constructor W) st Hfresh Hin). }
  pose proof (inRange_checkRateLimit st Hst) as Hg.
  rewrite checkRateLimit_gate in Hg. unfold inRange in Hg.
  rewrite bounded_getRemainingCalls_eq. do 2 eexists.
  split; [reflexivity|]. split; [reflexivity|lia].
Qed.

End BoundedRange.

Section Exhausted.
Import Bounded.
Context (W : World) (E : Env) (st : State).
Hypothesis used_up : MAX_CALLS_PER_HOUR E <= apiCallsThisHour st.
Hypothesis hour_goes_on :
  forall n, (ticks st <= n)%nat -> clock W n - hourStartTime st < hourMs.

Lemma frozen_gate s :
  frozen st s -> gateOpen W E s = false /\ frozen st (afterGate W E s).
Proof.
  intros (Hc & Hh & Ht & Hrest).
  assert (Hwin : clock W (ticks s) - hourStartTime s < hourMs).
  { rewrite Hh. apply hour_goes_on. exact Ht. }
  split.
  - apply gate_closed_when_exhausted; [rewrite Hc; exact used_up|exact Hwin].
  - unfold afterGate. rewrite checkRateLimit_eq. simpl.
    apply Z.leb_gt in Hwin. rewrite Hwin. simpl.
    unfold frozen. simpl. repeat split; try tauto. lia.
Qed.

Lemma frozen_checkRateLimit : preserves (frozen st) (checkRateLimit W E).
Proof.
  intros s Hs. rewrite checkRateLimit_gate. apply frozen_gate. exact Hs.
Qed.

Lemma frozen_fetchWithRateLimit url s :
  frozen st s ->
  fetchWithRateLimit W E url s = (Normal VNull, afterGate W E s).
Proof.
  intros Hs. rewrite fetchWithRateLimit_eq. cbv zeta.
  destruct (frozen_gate s Hs) as [-> _]. reflexivity.
Qed.

Lemma frozen_fetchWithRateLimit_keeps url :
  preserves (frozen st) (fetchWithRateLimit W E url).
Proof.
  intros s Hs. rewrite (frozen_fetchWithRateLimit url s Hs).
  apply frozen_gate. exact Hs.
Qed.

Lemma frozen_tick s : frozen st s -> frozen st (set_ticks (S (ticks s)) s).
Proof.
  intros (Hc & Hh & Ht & Hrest). unfold frozen. simpl.
  repeat split; try tauto. lia.
Qed.

Lemma frozen_fetchNbaEvents : preserves (frozen st) (fetchNbaEvents W E).
Proof.
  intros s Hs. rewrite bounded_fetchNbaEvents_eq.
  pose proof (frozen_tick s Hs) as Hs1. fold (afterClock s) in Hs1.
  rewrite (frozen_fetchWithRateLimit _ _ Hs1). simpl.
  apply frozen_gate. exact Hs1.
Qed.

Lemma frozen_fetchFootballEvents leagueSlug :
  preserves (frozen st) (fetchFootballEvents W E leagueSlug).
Proof.
  intros s Hs. rewrite bounded_fetchFootballEvents_eq.
  pose proof (frozen_tick s Hs) as Hs1. fold (afterClock s) in Hs1.
  rewrite (frozen_fetchWithRateLimit _ _ Hs1). simpl.
  apply frozen_gate. exact Hs1.
Qed.

Ltac frozen_leaf :=
  let s := fresh "s" in
  let H := fresh "H" in
  intros s H; first [exact H | apply frozen_tick; exact H].

Ltac frozen_known :=
  first [ apply frozen_fetchNbaEvents
        | apply frozen_fetchFootballEvents
        | apply frozen_fetchWithRateLimit_keeps
        | apply frozen_checkRateLimit ].

Lemma frozen_perform c s : frozen st s -> frozen st (perform W E c s).
Proof.
  intros Hs. destruct c; simpl; apply run_preserves; try exact Hs;
    invariant_with frozen_known frozen_leaf.
Qed.

(** With the odds of [st] as well. *)
Lemma still_nbaRefreshRound event u :
  preserves (fun s => frozen st s /\ nbaOdds s = nbaOdds st
                      /\ footballOdds s = footballOdds st)
    (nbaRefreshRound W E event u).
Proof.
  intros s (Hs & Hn & Hf). destruct u.
  destruct (frozen_gate s Hs) as [Hclosed Hafter].
  rewrite (nbaRefreshRound_closed W E event s Hclosed).
  split; [exact Hafter|]. unfold afterGate. rewrite checkRateLimit_eq. simpl.
  destruct (hourMs <=? _); simpl; split; assumption.
Qed.

Lemma still_footballRefreshRound event u :
  preserves (fun s => frozen st s /\ nbaOdds s = nbaOdds st
                      /\ footballOdds s = footballOdds st)
    (footballRefreshRound W E event u).
Proof.
  intros s (Hs & Hn & Hf). destruct u.
  destruct (frozen_gate s Hs) as [Hclosed Hafter].
  rewrite (footballRefreshRound_closed W E event s Hclosed).
  split; [exact Hafter|]. unfold afterGate. rewrite checkRateLimit_eq. simpl.
  destruct (hourMs <=? _); simpl; split; assumption.
Qed.

Lemma still_lift {A} (m : M State A) :
  preserves (frozen st) m ->
  preserves (fun s => nbaOdds s = nbaOdds st /\ footballOdds s = footballOdds st) m ->
  preserves (fun s => frozen st s /\ nbaOdds s = nbaOdds st
                      /\ footballOdds s = footballOdds st) m.
Proof.
  intros H1 H2 s (Hs & Ho). specialize (H1 s Hs). specialize (H2 s Ho).
  destruct (m s) as [[a|e] s']; split; assumption.
Qed.

Ltac still_leaf :=
  let s := fresh "s" in
  let H := fresh "H" in
  let H' := fresh "H" in
  intros s [H H']; split; [first [exact H | apply frozen_tick; exact H]|exact H'].

Ltac odds_leaf :=
  let s := fresh "s" in
  let H := fresh "H" in
  intros s H; exact H.

Ltac still_known :=
  first [ apply still_nbaRefreshRound
        | apply still_footballRefreshRound
        | apply still_lift; [solve [frozen_known]|invariant odds_leaf] ].

Lemma still_perform c s :
  isOddsFetch c = false ->
  frozen st s /\ nbaOdds s = nbaOdds st /\ footballOdds s = footballOdds st ->
  frozen st (perform W E c s)
  /\ nbaOdds (perform W E c s) = nbaOdds st
  /\ footballOdds (perform W E c s) = footballOdds st.
Proof.
  intros Hc Hs.
  destruct c; try discriminate; simpl;
    apply (run_preserves
             (fun s => frozen st s /\ nbaOdds s = nbaOdds st
                       /\ footballOdds s = footballOdds st));
    try exact Hs; invariant_with still_known still_leaf.
Qed.

Lemma frozen_refl : frozen st st.
Proof. unfold frozen. repeat split; reflexivity || lia. Qed.

(** X8: a budget that is used up freezes the cache.  From a state whose
    counter has reached the limit, and for as long as its hour goes on,
    no sequence of calls sends a request, moves the counter or changes
    the cached events and their timestamps; and unless
    [fetchNbaOddsForEvent] or [fetchFootballOddsForEvent] is called
    directly, the cached odds stay as they are too: the refreshes stop
    before their first odds fetch. *)
Theorem a_budget_used_up_freezes_the_cache calls st' :
  In st' (statesAlong W E calls st) ->
  (requests st' = requests st
   /\ apiCallsThisHour st' = apiCallsThisHour st
   /\ nbaEvents st' = nbaEvents st
   /\ footballEvents st' = footballEvents st
   /\ lastNbaEventsUpdate st' = lastNbaEventsUpdate st
   /\ lastFootballEventsUpdate st' = lastFootballEventsUpdate st)
  /\ (Forall (fun c => isOddsFetch c = false) calls ->
      nbaOdds st' = nbaOdds st /\ footballOdds st' = footballOdds st).
Proof.
  intros Hin. split.
  - pose proof (bounded_statesAlong_keep W E (frozen st) frozen_perform
                  calls st st' frozen_refl Hin) as H.
    unfold frozen in H. tauto.
  - intros Hcalls.
    assert (H : forall s,
               (frozen st s /\ nbaOdds s = nbaOdds st
                /\ footballOdds s = footballOdds st) ->
               In st' (statesAlong W E calls s) ->
               nbaOdds st' = nbaOdds st /\ footballOdds st' = footballOdds st).
    { clear Hin. induction Hcalls as [|c calls Hc _ IH]; intros s Hs Hin.
      - destruct Hin.
      - pose proof (still_perform c s Hc Hs) as Hnext. simpl in Hin.
        destruct Hin as [<-|Hin]; [tauto|exact (IH _ Hnext Hin)]. }
    apply (H st); [|exact Hin].
    split; [exact frozen_refl|split; reflexivity].
Qed.

End Exhausted.

(** ** The status, and the timestamps of the odds *)

Section BoundedStatus.
Import Bounded.
Context (W : World) (E : Env).

Lemma afterGate_frame st :
  let st' := afterGate W E st in
  nbaEvents st' = nbaEvents st
  /\ nbaOdds st' = nbaOdds st
  /\ footballEvents st' = footballEvents st
  /\ footballOdds st' = footballOdds st
  /\ lastNbaEventsUpdate st' = lastNbaEventsUpdate st
  /\ lastNbaOddsUpdate st' = lastNbaOddsUpdate st
  /\ lastFootballEventsUpdate st' = lastFootballEventsUpdate st
  /\ lastFootballOddsUpdate st' = lastFootballOddsUpdate st
  /\ isRefreshing st' = isRefreshing st
  /\ lastError st' = lastError st
  /\ requests st' = requests st.
Proof.
  unfold afterGate. rewrite checkRateLimit_eq. simpl.
  destruct (hourMs <=? _); simpl; repeat split; reflexivity.
Qed.

Lemma getStatus_eq st :
  let st' := afterGate W E st in
  getStatus W E st =
    (Normal
       {| statusApiCallsThisHour := apiCallsThisHour st;
          maxCallsPerHour := MAX_CALLS_PER_HOUR E;
          remainingCalls := MAX_CALLS_PER_HOUR E - apiCallsThisHour st';
          statusIsRefreshing := isRefreshing st';
          statusLastError := lastError st';
          nba := {| nbaEventsCount := length (nbaEvents st');
                    nbaOddsCount := size (nbaOdds st');
                    nbaLastEventsUpdate := lastNbaEventsUpdate st';
                    nbaLastOddsUpdate := lastNbaOddsUpdate st' |};
          football := {| footballLeagues := dom (footballEvents st');
                         footballEventsCount := countEvents (footballEvents st');
                         footballOddsCount := size (footballOdds st');
                         footballLastOddsUpdate := lastFootballOddsUpdate st' |} |},
     st').
Proof.
  unfold getStatus. rewrite run_bind. unfold get at 1.
  rewrite run_bind, bounded_getRemainingCalls_eq. reflexivity.
Qed.

(** X9: [getStatus] is a getter that runs the check of the rate window,
    and reads [apiCallsThisHour] before it does.  Of the object it
    changes the window at most (events, odds, timestamps, the flag, the
    error and the requests sent stay); when the hour has not elapsed the
    count and the remaining calls it reports add up to the limit; when it
    has, the status still shows the count of the past hour, beside
    remaining calls that are the whole limit. *)
Theorem getStatus_reads_the_count_before_the_window_check st :
  exists status st',
    getStatus W E st = (Normal status, st')
    /\ statusApiCallsThisHour status = apiCallsThisHour st
    /\ remainingCalls status = MAX_CALLS_PER_HOUR E - apiCallsThisHour st'
    /\ (if hourMs <=? clock W (ticks st) - hourStartTime st
        then remainingCalls status = MAX_CALLS_PER_HOUR E
             /\ apiCallsThisHour st' = 0
             /\ hourStartTime st' = clock W (ticks st)
        else statusApiCallsThisHour status + remainingCalls status
             = MAX_CALLS_PER_HOUR E
             /\ apiCallsThisHour st' = apiCallsThisHour st
             /\ hourStartTime st' = hourStartTime st)
    /\ nbaEvents st' = nbaEvents st
    /\ nbaOdds st' = nbaOdds st
    /\ footballEvents st' = footballEvents st
    /\ footballOdds st' = footballOdds st
    /\ lastNbaEventsUpdate st' = lastNbaEventsUpdate st
    /\ lastNbaOddsUpdate st' = lastNbaOddsUpdate st
    /\ lastFootballEventsUpdate st' = lastFootballEventsUpdate st
    /\ lastFootballOddsUpdate st' = lastFootballOddsUpdate st
    /\ isRefreshing st' = isRefreshing st
    /\ lastError st' = lastError st
    /\ requests st' = requests st.
Proof.
  rewrite getStatus_eq. cbv zeta. do 2 eexists. split; [reflexivity|].
  cbn [statusApiCallsThisHour remainingCalls].
  split; [reflexivity|]. split; [reflexivity|].
  split; [|exact (afterGate_frame st)].
  pose proof (afterGate_window W E st) as [Hwin _]. cbv zeta in Hwin.
  destruct (hourMs <=? _); destruct Hwin as [Hc Hh]; rewrite Hc;
    repeat split; try assumption; lia.
Qed.

Lemma plain_events_not_null (l : list Value) :
  Forall (fun e => plainEvent e = true) l -> Forall (fun e => nullish e = false) l.
Proof.
  intros H. eapply Forall_impl; [exact H|]. intros e He.
  unfold plainEvent in He. repeat (apply andb_true_iff in He as [He ?]).
  apply negb_true_iff. exact He.
Qed.

(** X10: the timestamp of the odds says when a refresh ended, not that it
    fetched anything.  When the stored events are plain (none is
    [null], dates and ids convert), [refreshNbaOdds] and
    [refreshFootballOdds] return, and each leaves in its timestamp the
    time of its last reading of the clock, whatever its loop over the
    events did, also when the budget let no odds be fetched. *)
Theorem every_odds_refresh_is_stamped_when_it_ends :
  (forall st,
     Forall (fun e => plainEvent e = true) (nbaEvents (nbaOddsEntry W E st)) ->
     exists st',
       refreshNbaOdds W E st = (Normal tt, st')
       /\ (0 < ticks st')%nat
       /\ lastNbaOddsUpdate st' = Some (clock W (pred (ticks st'))))
  /\ (forall st,
        Forall (fun e => plainFields e = true)
          (collectEvents (footballOddsEntry W E st)) ->
        exists st',
          refreshFootballOdds W E st = (Normal tt, st')
          /\ (0 < ticks st')%nat
          /\ lastFootballOddsUpdate st' = Some (clock W (pred (ticks st')))).
Proof.
  split.
  - intros st Hplain. pose proof (plain_events_not_null _ Hplain) as Hclean.
    rewrite (refreshNbaOdds_runs W E st Hclean).
    set (st0 := nbaOddsEntry W E st) in *.
    assert (Hdue : Forall (fun e => nullish e = false)
                     (upcomingNba W (clock W (ticks st0)) (nbaEvents st0))).
    { unfold upcomingNba. apply List.Forall_forall. intros e He.
      apply List.filter_In in He. destruct He as [He _].
      apply (Permutation_in _ (sortBy_Permutation (eventDate W) _)) in He.
      rewrite List.Forall_forall in Hclean. exact (Hclean e He). }
    destruct (gatedLoop_trace W E (fun e => prop e "id")
                (fun e => nullish e = false) (nbaRefreshRound W E)
                (nbaRefreshRound_closed W E) (nbaRefreshRound_open W E) _
                (afterClock st0) Hdue)
      as (fetched & s1 & Hloop & _).
    rewrite Hloop. eexists. split; [reflexivity|]. simpl. split; [lia|reflexivity].
  - intros st _. rewrite (refreshFootballOdds_runs W E st).
    set (st0 := footballOddsEntry W E st) in *. cbv zeta.
    destruct (gatedLoop_trace W E (fun e => field e "id") (fun _ => True)
                (footballRefreshRound W E)
                (footballRefreshRound_closed W E) (footballRefreshRound_open W E)
                (upcomingFootball W (clock W (ticks st0)) st0)
                (afterClock st0))
      as (fetched & s1 & Hloop & _).
    { apply List.Forall_forall. intros. exact I. }
    rewrite Hloop. eexists. split; [reflexivity|]. simpl. split; [lia|reflexivity].
Qed.

End BoundedStatus.

(** * Two runs side by side: the rules *)

Section RelationalRules.
Context {S1 S2 : Type} (R : S1 -> S2 -> Prop).

Lemma related_ret {A1 A2} (Q : A1 -> A2 -> Prop) a1 a2 :
  Q a1 a2 -> related R Q (mret a1) (mret a2).
Proof. intros H s1 s2 Hs. simpl. auto. Qed.

Lemma related_bind {A1 A2 B1 B2} (Q' : A1 -> A2 -> Prop) (Q : B1 -> B2 -> Prop)
    (m1 : M S1 A1) (m2 : M S2 A2) k1 k2 :
  related R Q' m1 m2 ->
  (forall a1 a2, Q' a1 a2 -> related R Q (k1 a1) (k2 a2)) ->
  related R Q (m1 ≫= k1) (m2 ≫= k2).
Proof.
  intros Hm Hk s1 s2 Hs. specialize (Hm s1 s2 Hs). rewrite !run_bind.
  destruct (m1 s1) as [[a1|e1] s1'], (m2 s2) as [[a2|e2] s2'];
    try contradiction; [|exact Hm].
  destruct Hm as [Ha Hs']. exact (Hk a1 a2 Ha s1' s2' Hs').
Qed.

Lemma related_bind_ret {A1 A2 B1} (Q' : A1 -> A2 -> Prop) (Q : B1 -> A2 -> Prop)
    (m1 : M S1 A1) (m2 : M S2 A2) k1 :
  related R Q' m1 m2 ->
  (forall a1 a2, Q' a1 a2 -> related R Q (k1 a1) (mret a2)) ->
  related R Q (m1 ≫= k1) m2.
Proof.
  intros Hm Hk s1 s2 Hs. specialize (Hm s1 s2 Hs). rewrite run_bind.
  destruct (m1 s1) as [[a1|e1] s1'], (m2 s2) as [[a2|e2] s2'];
    try contradiction; [|exact Hm].
  destruct Hm as [Ha Hs']. exact (Hk a1 a2 Ha s1' s2' Hs').
Qed.

Lemma related_aside {A1 B1 B2} (Q : B1 -> B2 -> Prop)
    (m1 : M S1 A1) k1 (m2 : M S2 B2) :
  aside R m1 -> (forall a, related R Q (k1 a) m2) ->
  related R Q (m1 ≫= k1) m2.
Proof.
  intros Hm Hk s1 s2 Hs. rewrite run_bind.
  destruct (Hm s1) as (a & s1' & Hrun & Hkeep). rewrite Hrun.
  exact (Hk a s1' s2 (Hkeep s2 Hs)).
Qed.

Lemma related_aside_last {A1 B2} (Q : A1 -> B2 -> Prop)
    (m1 : M S1 A1) (b : B2) :
  aside R m1 -> (forall a, Q a b) -> related R Q m1 (mret b).
Proof.
  intros Hm HQ s1 s2 Hs. destruct (Hm s1) as (a & s1' & Hrun & Hkeep).
  rewrite Hrun. simpl. split; [apply HQ|exact (Hkeep s2 Hs)].
Qed.

Lemma related_throw {A1 A2} (Q : A1 -> A2 -> Prop) e :
  related R Q (throw e) (throw e).
Proof. intros s1 s2 Hs. simpl. auto. Qed.

Lemma related_liftC {A} (c : Completion A) : related R eq (liftC c) (liftC c).
Proof. intros s1 s2 Hs. unfold liftC. destruct c; auto. Qed.

Lemma related_sleep ms : related R eq (sleep ms) (sleep ms).
Proof. apply related_ret. reflexivity. Qed.

Lemma related_modify f1 f2 :
  (forall s1 s2, R s1 s2 -> R (f1 s1) (f2 s2)) ->
  related R eq (modify f1) (modify f2).
Proof. intros H s1 s2 Hs. simpl. auto. Qed.

Lemma related_tryCatch {A1 A2} (Q : A1 -> A2 -> Prop)
    (m1 : M S1 A1) (m2 : M S2 A2) h1 h2 :
  related R Q m1 m2 -> (forall e, related R Q (h1 e) (h2 e)) ->
  related R Q (tryCatch m1 h1) (tryCatch m2 h2).
Proof.
  intros Hm Hh s1 s2 Hs. specialize (Hm s1 s2 Hs). unfold tryCatch.
  destruct (m1 s1) as [[a1|e1] s1'], (m2 s2) as [[a2|e2] s2'];
    try contradiction; [exact Hm|].
  destruct Hm as [<- Hs']. exact (Hh e1 s1' s2' Hs').
Qed.

Lemma related_tryFinally {A1 A2} (Q : A1 -> A2 -> Prop)
    (m1 : M S1 A1) (m2 : M S2 A2) f1 f2 :
  related R Q m1 m2 -> related R eq f1 f2 ->
  related R Q (tryFinally m1 f1) (tryFinally m2 f2).
Proof.
  intros Hm Hf s1 s2 Hs. specialize (Hm s1 s2 Hs). unfold tryFinally.
  destruct (m1 s1) as [[a1|e1] s1'], (m2 s2) as [[a2|e2] s2'];
    try contradiction; destruct Hm as [Ha Hs'];
    specialize (Hf s1' s2' Hs');
    destruct (f1 s1') as [[[]|e1'] s1''], (f2 s2') as [[[]|e2'] s2''];
    try contradiction; destruct Hf as [He Hs'']; auto.
Qed.

Lemma related_forOf {A B} (l : list A) (acc : B) body1 body2 :
  (forall x b, related R eq (body1 x b) (body2 x b)) ->
  related R eq (forOf l acc body1) (forOf l acc body2).
Proof.
  intros Hb. revert acc. induction l as [|x l IH]; intros acc; simpl.
  - apply related_ret. reflexivity.
  - eapply related_bind; [apply Hb|]. intros r ? <-.
    destruct (snd r); [apply IH|apply related_ret; reflexivity].
Qed.

Lemma aside_ret {A} (a : A) : aside R (mret a).
Proof. intros s1. exists a, s1. split; [reflexivity|auto]. Qed.

Lemma aside_bind {A B} (m : M S1 A) (k : A -> M S1 B) :
  aside R m -> (forall a, aside R (k a)) -> aside R (m ≫= k).
Proof.
  intros Hm Hk s1. destruct (Hm s1) as (a & s1' & Hrun & Hkeep).
  destruct (Hk a s1') as (b & s1'' & Hrun' & Hkeep').
  exists b, s1''. rewrite run_bind, Hrun. split; [exact Hrun'|].
  intros s2 Hs. apply Hkeep'. apply Hkeep. exact Hs.
Qed.

Lemma related_run {A1 A2} (Q : A1 -> A2 -> Prop) m1 m2 s1 s2 :
  related R Q m1 m2 -> R s1 s2 ->
  R (snd (m1 s1)) (snd (m2 s2))
  /\ match fst (m1 s1), fst (m2 s2) with
     | Normal a1, Normal a2 => Q a1 a2
     | Thrown e1, Thrown e2 => e1 = e2
     | _, _ => False
     end.
Proof.
  intros Hm Hs. specialize (Hm s1 s2 Hs).
  destruct (m1 s1) as [[a1|e1] s1'], (m2 s2) as [[a2|e2] s2'];
    try contradiction; simpl; tauto.
Qed.

End RelationalRules.

(** * The server *)

(** ** The wrappers and the cache *)

Section Wrappers.
Context (W : World) (E : Optic.Env) (serverClock : nat -> Z).

Lemma related_onCache {A} (m : M Optic.State A) :
  related sameCache eq (Server.onCache m) m.
Proof.
  intros s c <-. unfold Server.onCache.
  destruct (m (Server.cache s)) as [[a|e] c']; split; reflexivity.
Qed.

Lemma aside_newDate : aside sameCache (Server.newDate serverClock).
Proof. intros s. do 2 eexists. split; [reflexivity|]. intros c <-. reflexivity. Qed.

Lemma aside_emit to name payload : aside sameCache (Server.emit to name payload).
Proof. intros s. do 2 eexists. split; [reflexivity|]. intros c <-. reflexivity. Qed.

Lemma aside_onCache {A} (m : M Optic.State A) :
  (forall c, exists a, m c = (Normal a, c)) -> aside sameCache (Server.onCache m).
Proof.
  intros Hm s. destruct (Hm (Server.cache s)) as (a & Hrun).
  exists a, s. unfold Server.onCache. rewrite Hrun. split.
  - destruct s; reflexivity.
  - auto.
Qed.

Lemma aside_emitStatus : aside sameCache Server.emitStatus.
Proof.
  apply aside_bind.
  - apply aside_onCache. intros c. eexists. reflexivity.
  - intros status. apply aside_emit.
Qed.

(** One step of a proof that a wrapped method and the method of the
    class end alike. *)
Ltac aside_step :=
  match goal with
  | |- aside _ (Server.newDate _) => apply aside_newDate
  | |- aside _ (Server.emit _ _ _) => apply aside_emit
  | |- aside _ (Server.broadcast _ _) => apply aside_emit
  | |- aside _ (Server.broadcastToSport _ _ _) => apply aside_emit
  | |- aside _ Server.emitStatus => apply aside_emitStatus
  | |- aside _ (Server.onCache _) =>
      apply aside_onCache; intros ?; eexists; reflexivity
  | |- aside _ (mret _) => apply aside_ret
  | |- aside _ (_ ≫= _) => apply aside_bind; [|intros ?]
  end.

Ltac asides := repeat aside_step.

Ltac alike known :=
  first
    [ solve [known]
    | match goal with
      | |- related _ _ (mret _) (mret _) => apply related_ret; reflexivity
      | |- related _ _ (Server.onCache _) _ => apply related_onCache
      | |- related _ _ (sleep _) (sleep _) => apply related_sleep
      | |- related _ _ (forOf _ _ _) (forOf _ _ _) =>
          apply related_forOf; intros ? ?; alike known
      | |- related _ _ (tryCatch _ _) (tryCatch _ _) =>
          apply related_tryCatch; [alike known|intros ?; alike known]
      | |- related _ _ (tryFinally _ _) (tryFinally _ _) =>
          apply related_tryFinally; alike known
      | |- related _ _ (if ?b then _ else _) (if ?b then _ else _) =>
          destruct b; alike known
      | |- related _ _ (_ ≫= _) (_ ≫= _) =>
          apply related_bind with (Q' := eq);
          [alike known|intros ? ? <-; alike known]
      end ].

Lemma wrapped_fetchNbaOddsForEvent eventId :
  related sameCache eq (Server.fetchNbaOddsForEvent W E serverClock eventId)
    (Optic.fetchNbaOddsForEvent W E eventId).
Proof.
  unfold Server.fetchNbaOddsForEvent.
  eapply related_bind_ret; [apply related_onCache|]. intros result ? <-.
  apply related_aside; [asides|]. intros timestamp.
  apply related_aside; [asides|]. intros _.
  apply related_ret. reflexivity.
Qed.

Lemma wrapped_fetchFootballOddsForEvent eventId bookmakers :
  related sameCache eq
    (Server.fetchFootballOddsForEvent W E serverClock eventId bookmakers)
    (Optic.fetchFootballOddsForEvent W E eventId bookmakers).
Proof.
  unfold Server.fetchFootballOddsForEvent.
  eapply related_bind_ret; [apply related_onCache|]. intros result ? <-.
  apply related_aside; [asides|]. intros timestamp.
  apply related_aside; [asides|]. intros _.
  apply related_ret. reflexivity.
Qed.

Ltac fetches_known :=
  idtac;
  match goal with
  | |- related _ _ (Server.fetchNbaOddsForEvent _ _ _ _) _ =>
      apply wrapped_fetchNbaOddsForEvent
  | |- related _ _ (Server.fetchFootballOddsForEvent _ _ _ _ _) _ =>
      apply wrapped_fetchFootballOddsForEvent
  end.

Lemma original_refreshNbaOdds :
  related sameCache eq (Server.originalRefreshNbaOdds W E serverClock)
    (Optic.refreshNbaOdds W E).
Proof.
  unfold Server.originalRefreshNbaOdds, Optic.refreshNbaOdds,
    Server.nbaRefreshRound, Optic.nbaRefreshRound.
  alike fetches_known.
Qed.

Lemma original_refreshFootballOdds :
  related sameCache eq (Server.originalRefreshFootballOdds W E serverClock)
    (Optic.refreshFootballOdds W E).
Proof.
  unfold Server.originalRefreshFootballOdds, Optic.refreshFootballOdds,
    Server.footballRefreshRound, Optic.footballRefreshRound,
    Server.leagueRound, Optic.leagueRound.
  alike fetches_known.
Qed.

Lemma wrapped_refreshNbaOdds :
  related sameCache eq (Server.refreshNbaOdds W E serverClock)
    (Optic.refreshNbaOdds W E).
Proof.
  unfold Server.refreshNbaOdds.
  apply related_aside; [asides|]. intros timestamp.
  apply related_aside; [asides|]. intros _.
  eapply related_bind_ret; [apply original_refreshNbaOdds|]. intros [] ? <-.
  apply related_aside_last; [asides|]. intros []. reflexivity.
Qed.

Lemma wrapped_refreshFootballOdds :
  related sameCache eq (Server.refreshFootballOdds W E serverClock)
    (Optic.refreshFootballOdds W E).
Proof.
  unfold Server.refreshFootballOdds.
  apply related_aside; [asides|]. intros timestamp.
  apply related_aside; [asides|]. intros _.
  eapply related_bind_ret; [apply original_refreshFootballOdds|]. intros [] ? <-.
  apply related_aside_last; [asides|]. intros []. reflexivity.
Qed.

Ltac refreshes_known :=
  idtac;
  match goal with
  | |- related _ _ (Server.refreshNbaOdds _ _ _) _ => apply wrapped_refreshNbaOdds
  | |- related _ _ (Server.refreshFootballOdds _ _ _) _ =>
      apply wrapped_refreshFootballOdds
  end.

Lemma original_refreshAll :
  related sameCache eq (Server.originalRefreshAll W E serverClock)
    (Optic.refreshAll W E).
Proof.
  unfold Server.originalRefreshAll, Optic.refreshAll,
    Server.refreshCycle, Optic.refreshCycle.
  alike refreshes_known.
Qed.

Lemma wrapped_refreshAll :
  related sameCache eq (Server.refreshAll W E serverClock) (Optic.refreshAll W E).
Proof.
  unfold Server.refreshAll.
  apply related_aside; [asides|]. intros started.
  apply related_aside; [asides|]. intros _.
  eapply related_bind_ret; [apply original_refreshAll|]. intros [] ? <-.
  apply related_aside_last; [asides|]. intros []. reflexivity.
Qed.

Lemma related_mirrors {A} (m1 : M Server.State A) (m2 : M Optic.State A) :
  related sameCache eq m1 m2 -> mirrors m1 m2.
Proof.
  intros H s. specialize (H s (Server.cache s) eq_refl).
  destruct (m1 s) as [[a1|e1] s1'], (m2 (Server.cache s)) as [[a2|e2] s2'];
    try contradiction; destruct H as [<- H]; split; auto.
Qed.

Lemma handled_requestRefresh payload :
  related sameCache eq (Server.requestRefresh W E serverClock payload)
    (if Server.typeIs payload "nba"
     then Optic.fetchNbaEvents W E;; Optic.refreshNbaOdds W E
     else if Server.typeIs payload "football" then Optic.refreshFootballOdds W E
          else Optic.refreshAll W E).
Proof.
  unfold Server.requestRefresh.
  destruct (Server.typeIs payload "nba").
  - apply related_bind with (Q' := eq); [apply related_onCache|].
    intros ? ? _. apply wrapped_refreshNbaOdds.
  - destruct (Server.typeIs payload "football");
      [apply wrapped_refreshFootballOdds|apply wrapped_refreshAll].
Qed.

Lemma scheduled_refreshAll :
  related sameCache eq (Server.scheduledRefresh W E serverClock)
    (Optic.refreshAll W E).
Proof.
  unfold Server.scheduledRefresh.
  apply related_aside; [asides|]. intros logged.
  apply related_aside; [asides|]. intros timestamp.
  apply related_aside; [asides|]. intros _. apply wrapped_refreshAll.
Qed.

(** X11: the wrappers of [server.js] publish, and do nothing else to the
    cache.  Each wrapped method, with the methods it calls wrapped in
    turn, returns or throws what the method of the class does alone, and
    leaves the cache in the state the method alone leaves it in; the
    job of the scheduler, and the handler of [requestRefresh] for a
    payload whose type can be printed in the line it logs, do to the
    cache what the methods they pick do. *)
Theorem the_wrappers_only_add_messages :
  (forall eventId,
     mirrors (Server.fetchNbaOddsForEvent W E serverClock eventId)
       (Optic.fetchNbaOddsForEvent W E eventId))
  /\ (forall eventId bookmakers,
        mirrors (Server.fetchFootballOddsForEvent W E serverClock eventId bookmakers)
          (Optic.fetchFootballOddsForEvent W E eventId bookmakers))
  /\ mirrors (Server.refreshNbaOdds W E serverClock) (Optic.refreshNbaOdds W E)
  /\ mirrors (Server.refreshFootballOdds W E serverClock)
       (Optic.refreshFootballOdds W E)
  /\ mirrors (Server.refreshAll W E serverClock) (Optic.refreshAll W E)
  /\ (forall payload,
        printable (Server.refreshLabel payload) = true ->
        mirrors (Server.requestRefresh W E serverClock payload)
          (if Server.typeIs payload "nba"
           then Optic.fetchNbaEvents W E;; Optic.refreshNbaOdds W E
           else if Server.typeIs payload "football"
                then Optic.refreshFootballOdds W E
                else Optic.refreshAll W E))
  /\ mirrors (Server.scheduledRefresh W E serverClock) (Optic.refreshAll W E).
Proof.
  split; [intros; apply related_mirrors, wrapped_fetchNbaOddsForEvent|].
  split; [intros; apply related_mirrors, wrapped_fetchFootballOddsForEvent|].
  split; [apply related_mirrors, wrapped_refreshNbaOdds|].
  split; [apply related_mirrors, wrapped_refreshFootballOdds|].
  split; [apply related_mirrors, wrapped_refreshAll|].
  split; [intros payload _; apply related_mirrors, handled_requestRefresh|].
  apply related_mirrors, scheduled_refreshAll.
Qed.

(** *** What is published *)

Lemma preserves_onCache {A} (I : Server.State -> Prop) (m : M Optic.State A) :
  (forall s c, I s -> I (Server.set_cache c s)) ->
  preserves I (Server.onCache m).
Proof.
  intros H s Hs. unfold Server.onCache.
  destruct (m (Server.cache s)) as [[a|e] c]; apply H; exact Hs.
Qed.

Lemma preserves_newDate (I : Server.State -> Prop) :
  (forall s, I s -> I (Server.set_readings (S (Server.readings s)) s)) ->
  preserves I (Server.newDate serverClock).
Proof. intros H s Hs. simpl. auto. Qed.

(** The messages emitted so far stay: a method adds to them. *)
Ltac grows_leaf :=
  let s := fresh "s" in
  let more := fresh "more" in
  let H := fresh "H" in
  intros s [more H]; simpl;
  first [ exists more; exact H
        | eexists; rewrite H, <- app_assoc; reflexivity ].

Ltac grows_cache_leaf :=
  let s := fresh "s" in
  let c := fresh "c" in
  let more := fresh "more" in
  let H := fresh "H" in
  intros s c [more H]; exists more; exact H.

Ltac grows_step :=
  first
    [ pres_step
    | apply preserves_modify; solve [grows_leaf]
    | apply preserves_newDate; solve [grows_leaf]
    | apply preserves_onCache; solve [grows_cache_leaf]
    | match goal with
      | |- preserves _ (?f _ _ _ _ _) => unfold f
      | |- preserves _ (?f _ _ _ _) => unfold f
      | |- preserves _ (?f _ _ _) => unfold f
      | |- preserves _ (?f _ _) => unfold f
      | |- preserves _ (?f _) => unfold f
      | |- preserves _ ?f => unfold f
      end ].

Lemma grows_originalRefreshAll before :
  preserves (fun s => exists more, Server.emitted s = before ++ more)
    (Server.originalRefreshAll W E serverClock).
Proof. repeat grows_step. Qed.

Lemma optic_refreshAll_returns c :
  fst (Optic.refreshAll W E c) = Normal tt.
Proof.
  rewrite optic_refreshAll_eq. destruct (Optic.isRefreshing c); [reflexivity|].
  destruct (Optic.refreshCycle W E _) as [[[]|e] c1]; reflexivity.
Qed.

Lemma originalRefreshAll_skips s :
  Optic.isRefreshing (Server.cache s) = true ->
  Server.originalRefreshAll W E serverClock s = (Normal tt, s).
Proof.
  intros Hflag. unfold Server.originalRefreshAll.
  rewrite run_bind. unfold Server.onCache at 1, get at 1. simpl.
  rewrite Hflag. destruct s; reflexivity.
Qed.

(** X12: every call of the wrapped [refreshAll] is announced, also one
    that finds a refresh running and does nothing.  It returns, having
    emitted to every client [refreshStart] first and, last,
    [refreshComplete], [nbaUpdate] and [footballUpdate], which carry the
    status and the contents of the cache as the call leaves it; a call
    that is skipped emits these four messages and nothing else, and
    leaves the cache as it was. *)
Theorem every_refreshAll_is_announced s :
  exists s' during status,
    Server.refreshAll W E serverClock s = (Normal tt, s')
    /\ Optic.getStatus (Server.cache s') = (Normal status, Server.cache s')
    /\ Server.emitted s'
       = Server.emitted s
           ++ [{| Server.target := Server.Everyone;
                  Server.event := "refreshStart";
                  Server.data :=
                    Server.RefreshStartData "all" (serverClock (Server.readings s)) |}]
           ++ during
           ++ [{| Server.target := Server.Everyone;
                  Server.event := "refreshComplete";
                  Server.data :=
                    Server.RefreshCompleteData "all"
                      (serverClock (pred (Server.readings s'))) status |};
               {| Server.target := Server.Everyone;
                  Server.event := "nbaUpdate";
                  Server.data :=
                    Server.NbaUpdateData
                      {| Optic.events := Optic.nbaEvents (Server.cache s');
                         Optic.lastUpdate :=
                           Optic.lastNbaEventsUpdate (Server.cache s');
                         Optic.count := length (Optic.nbaEvents (Server.cache s')) |}
                      {| Optic.odds := Optic.nbaOdds (Server.cache s');
                         Optic.oddsLastUpdate :=
                           Optic.lastNbaOddsUpdate (Server.cache s');
                         Optic.eventCount := size (Optic.nbaOdds (Server.cache s')) |} |};
               {| Server.target := Server.Everyone;
                  Server.event := "footballUpdate";
                  Server.data :=
                    Server.FootballUpdateData
                      (Optic.EveryLeague (Optic.footballEvents (Server.cache s'))
                         (Optic.lastFootballEventsUpdate (Server.cache s'))
                         (dom (Optic.footballEvents (Server.cache s'))))
                      {| Optic.odds := Optic.footballOdds (Server.cache s');
                         Optic.oddsLastUpdate :=
                           Optic.lastFootballOddsUpdate (Server.cache s');
                         Optic.eventCount :=
                           size (Optic.footballOdds (Server.cache s')) |} |}]
    /\ Optic.isRefreshing (Server.cache s') = Optic.isRefreshing (Server.cache s)
    /\ (Optic.isRefreshing (Server.cache s) = true ->
        during = [] /\ Server.cache s' = Server.cache s).
Proof.
  unfold Server.refreshAll.
  rewrite run_bind. unfold Server.newDate at 1.
  rewrite run_bind. unfold Server.broadcast at 1, Server.emit at 1, modify at 1.
  cbn [Server.emitted Server.set_readings Server.set_emitted Server.readings
       Server.cache Server.connectedClients].
  set (start := {| Server.target := Server.Everyone;
                   Server.event := "refreshStart";
                   Server.data := Server.RefreshStartData "all"
                                    (serverClock (Server.readings s)) |}).
  set (s1 := Server.set_emitted _ _).
  rewrite run_bind.
  pose proof (original_refreshAll s1 (Server.cache s1) eq_refl) as Hsame.
  pose proof (optic_refreshAll_returns (Server.cache s1)) as Hreturns.
  pose proof (grows_originalRefreshAll (Server.emitted s1) s1) as Hgrows.
  assert (Hskip : Optic.isRefreshing (Server.cache s) = true ->
                  Server.originalRefreshAll W E serverClock s1 = (Normal tt, s1)).
  { intros Hflag. apply originalRefreshAll_skips. exact Hflag. }
  assert (Hflag : Optic.isRefreshing (snd (Optic.refreshAll W E (Server.cache s1)))
                  = Optic.isRefreshing (Server.cache s)).
  { rewrite optic_refreshAll_eq. change (Server.cache s1) with (Server.cache s).
    destruct (Optic.isRefreshing (Server.cache s)) eqn:Hf; [exact Hf|].
    destruct (Optic.refreshCycle W E _) as [[[]|e] c1]; reflexivity. }
  destruct (Server.originalRefreshAll W E serverClock s1) as [[[]|e] s2] eqn:Hrun.
  2:{ destruct (Optic.refreshAll W E (Server.cache s1)) as [[[]|e'] c'];
        [contradiction|discriminate]. }
  destruct (Optic.refreshAll W E (Server.cache s1)) as [[[]|e'] c'];
    [|contradiction].
  destruct Hsame as [_ Hcache]. unfold sameCache in Hcache.
  simpl in Hflag. subst c'.
  destruct Hgrows as [during Hduring]; [exists []; rewrite app_nil_r; reflexivity|].
  eexists. exists during. eexists. split; [reflexivity|].
  cbn [Server.cache Server.set_emitted Server.set_readings Server.set_cache
       Server.emitted Server.readings snd fst].
  split; [reflexivity|]. split.
  - cbn. rewrite Hduring. subst s1. cbn. rewrite <- !app_assoc. reflexivity.
  - split; [exact Hflag|]. intros Hf. specialize (Hskip Hf).
    inversion Hskip; subst s2. split; [|reflexivity].
    apply (app_inv_head (Server.emitted s1)). rewrite app_nil_r.
    symmetry. exact Hduring.
Qed.

Lemma wrapped_fetchNbaOddsForEvent_eq s eventId :
  Server.fetchNbaOddsForEvent W E serverClock eventId s =
    match Optic.fetchNbaOddsForEvent W E eventId (Server.cache s) with
    | (Normal result, c) =>
        (Normal result,
         Server.set_emitted
           (Server.emitted s
              ++ [{| Server.target := Server.Room "nba";
                     Server.event := "oddsUpdate";
                     Server.data :=
                       Server.OddsUpdateData "nba" eventId result
                         (serverClock (Server.readings s)) |}])
           (Server.set_readings (S (Server.readings s)) (Server.set_cache c s)))
    | (Thrown e, c) => (Thrown e, Server.set_cache c s)
    end.
Proof.
  unfold Server.fetchNbaOddsForEvent. rewrite run_bind. unfold Server.onCache.
  destruct (Optic.fetchNbaOddsForEvent W E eventId (Server.cache s))
    as [[result|e] c]; reflexivity.
Qed.

Lemma wrapped_fetchFootballOddsForEvent_eq s eventId bookmakers :
  Server.fetchFootballOddsForEvent W E serverClock eventId bookmakers s =
    match Optic.fetchFootballOddsForEvent W E eventId bookmakers (Server.cache s) with
    | (Normal result, c) =>
        (Normal result,
         Server.set_emitted
           (Server.emitted s
              ++ [{| Server.target := Server.Room "football";
                     Server.event := "oddsUpdate";
                     Server.data :=
                       Server.OddsUpdateData "football" eventId result
                         (serverClock (Server.readings s)) |}])
           (Server.set_readings (S (Server.readings s)) (Server.set_cache c s)))
    | (Thrown e, c) => (Thrown e, Server.set_cache c s)
    end.
Proof.
  unfold Server.fetchFootballOddsForEvent. rewrite run_bind. unfold Server.onCache.
  destruct (Optic.fetchFootballOddsForEvent W E eventId bookmakers (Server.cache s))
    as [[result|e] c]; reflexivity.
Qed.

(** X13: an odds fetch is published when it returns, once, and what is
    published is what is stored.  The wrapped [fetchNbaOddsForEvent] and
    [fetchFootballOddsForEvent] emit one [oddsUpdate] to the room of
    their sport, with the id they were called with and the snapshot they
    return, which is then the entry of that id in the cache, for an id
    that names an own property; when the fetch throws, nothing is
    emitted. *)
Theorem every_odds_fetch_is_published s eventId :
  match Optic.fetchNbaOddsForEvent W E eventId (Server.cache s) with
  | (Normal result, c) =>
      exists s',
        Server.fetchNbaOddsForEvent W E serverClock eventId s = (Normal result, s')
        /\ Server.cache s' = c
        /\ Server.emitted s'
           = Server.emitted s
               ++ [{| Server.target := Server.Room "nba";
                      Server.event := "oddsUpdate";
                      Server.data :=
                        Server.OddsUpdateData "nba" eventId result
                          (serverClock (Server.readings s)) |}]
        /\ (ownKey eventId = true ->
            Optic.nbaOdds c !! toString eventId = Some result)
  | (Thrown e, c) =>
      exists s',
        Server.fetchNbaOddsForEvent W E serverClock eventId s = (Thrown e, s')
        /\ Server.cache s' = c
        /\ Server.emitted s' = Server.emitted s
  end
  /\ forall bookmakers,
       match Optic.fetchFootballOddsForEvent W E eventId bookmakers
               (Server.cache s) with
       | (Normal result, c) =>
           exists s',
             Server.fetchFootballOddsForEvent W E serverClock eventId bookmakers s
               = (Normal result, s')
             /\ Server.cache s' = c
             /\ Server.emitted s'
                = Server.emitted s
                    ++ [{| Server.target := Server.Room "football";
                           Server.event := "oddsUpdate";
                           Server.data :=
                             Server.OddsUpdateData "football" eventId result
                               (serverClock (Server.readings s)) |}]
             /\ (ownKey eventId = true ->
                 Optic.footballOdds c !! toString eventId = Some result)
       | (Thrown e, c) =>
           exists s',
             Server.fetchFootballOddsForEvent W E serverClock eventId bookmakers s
               = (Thrown e, s')
             /\ Server.cache s' = c
             /\ Server.emitted s' = Server.emitted s
       end.
Proof.
  split; [|intros bookmakers].
  - pose proof (optic_fetchNbaOddsForEvent_stores W E eventId (Server.cache s))
      as Hstored.
    rewrite wrapped_fetchNbaOddsForEvent_eq.
    destruct (Optic.fetchNbaOddsForEvent W E eventId (Server.cache s))
      as [[result|e] c].
    + eexists. split; [reflexivity|]. split; [reflexivity|].
      split; [reflexivity|]. intros _.
      destruct Hstored as [-> _]. apply lookup_insert_eq.
    + eexists. split; [reflexivity|]. split; reflexivity.
  - pose proof (optic_fetchFootballOddsForEvent_stores W E eventId bookmakers
                  (Server.cache s)) as Hstored.
    rewrite wrapped_fetchFootballOddsForEvent_eq.
    destruct (Optic.fetchFootballOddsForEvent W E eventId bookmakers
                (Server.cache s)) as [[result|e] c].
    + eexists. split; [reflexivity|]. split; [reflexivity|].
      split; [reflexivity|]. intros _.
      destruct Hstored as [-> _]. apply lookup_insert_eq.
    + eexists. split; [reflexivity|]. split; reflexivity.
Qed.

End Wrappers.

(** ** After a refresh of the quota-free edition every event has odds *)

Section Coverage.
Context (W : World) (E : Optic.Env).

Ltac same_leaf :=
  let s := fresh "s" in
  let H := fresh "H" in
  intros s H; exact H.

Lemma nbaEvents_fetchNbaOddsForEvent eventId l :
  preserves (fun s => Optic.nbaEvents s = l) (Optic.fetchNbaOddsForEvent W E eventId).
Proof. invariant same_leaf. Qed.

Lemma footballEvents_fetchFootballOddsForEvent eventId bookmakers m :
  preserves (fun s => Optic.footballEvents s = m)
    (Optic.fetchFootballOddsForEvent W E eventId bookmakers).
Proof. invariant same_leaf. Qed.

Lemma nba_loop_covers l s s' :
  forOf l tt (Optic.nbaRefreshRound W E) s = (Normal tt, s') ->
  (forall e, In e l -> is_Some (Optic.nbaOdds s' !! toString (Optic.id e)))
  /\ dom (Optic.nbaOdds s) ⊆ dom (Optic.nbaOdds s')
  /\ Optic.nbaEvents s' = Optic.nbaEvents s.
Proof.
  revert s. induction l as [|e l IH]; intros s Hloop.
  - inversion Hloop; subst. split; [intros e []|]. split; reflexivity.
  - rewrite forOf_cons in Hloop. unfold Optic.nbaRefreshRound at 1 in Hloop.
    rewrite run_bind in Hloop.
    pose proof (optic_fetchNbaOddsForEvent_stores W E (Optic.id e) s) as Hstored.
    pose proof (nbaEvents_fetchNbaOddsForEvent (Optic.id e) (Optic.nbaEvents s) s
                  eq_refl) as Hevents.
    destruct (Optic.fetchNbaOddsForEvent W E (Optic.id e) s) as [[eo|err] s1];
      [|discriminate].
    simpl in Hloop. destruct Hstored as [Hodds _].
    destruct (IH s1 Hloop) as (Hcovered & Hdom & Hsame).
    assert (He : toString (Optic.id e) ∈ dom (Optic.nbaOdds s1)).
    { rewrite Hodds, dom_insert_L. apply elem_of_union_l, elem_of_singleton.
      reflexivity. }
    split; [|split].
    + intros e' [<-|Hin]; [|exact (Hcovered e' Hin)].
      apply elem_of_dom, Hdom, He.
    + etrans; [|exact Hdom]. rewrite Hodds, dom_insert_L. apply union_subseteq_r.
    + rewrite Hsame. exact Hevents.
Qed.

Lemma football_loop_covers l s s' :
  forOf l tt (Optic.footballRefreshRound W E) s = (Normal tt, s') ->
  (forall e, In e l -> is_Some (Optic.footballOdds s' !! toString (Optic.id e)))
  /\ dom (Optic.footballOdds s) ⊆ dom (Optic.footballOdds s')
  /\ Optic.footballEvents s' = Optic.footballEvents s.
Proof.
  revert s. induction l as [|e l IH]; intros s Hloop.
  - inversion Hloop; subst. split; [intros e []|]. split; reflexivity.
  - rewrite forOf_cons in Hloop. unfold Optic.footballRefreshRound at 1 in Hloop.
    rewrite run_bind in Hloop.
    pose proof (optic_fetchFootballOddsForEvent_stores W E (Optic.id e)
                  Optic.FOOTBALL_BOOKMAKERS s) as Hstored.
    pose proof (footballEvents_fetchFootballOddsForEvent (Optic.id e)
                  Optic.FOOTBALL_BOOKMAKERS (Optic.footballEvents s) s eq_refl)
      as Hevents.
    destruct (Optic.fetchFootballOddsForEvent W E (Optic.id e) _ s)
      as [[eo|err] s1]; [|discriminate].
    simpl in Hloop. destruct Hstored as [Hodds _].
    destruct (IH s1 Hloop) as (Hcovered & Hdom & Hsame).
    assert (He : toString (Optic.id e) ∈ dom (Optic.footballOdds s1)).
    { rewrite Hodds, dom_insert_L. apply elem_of_union_l, elem_of_singleton.
      reflexivity. }
    split; [|split].
    + intros e' [<-|Hin]; [|exact (Hcovered e' Hin)].
      apply elem_of_dom, Hdom, He.
    + etrans; [|exact Hdom]. rewrite Hodds, dom_insert_L. apply union_subseteq_r.
    + rewrite Hsame. exact Hevents.
Qed.

Lemma refreshNbaOdds_covers st st' :
  Optic.refreshNbaOdds W E st = (Normal tt, st') ->
  Forall (fun e => is_Some (Optic.nbaOdds st' !! toString (Optic.id e)))
    (Optic.nbaEvents st').
Proof.
  unfold Optic.refreshNbaOdds. rewrite run_bind. unfold get at 1.
  rewrite run_bind.
  destruct ((if (length (Optic.nbaEvents st) =? 0)%nat
             then Optic.fetchNbaEvents W E;; mret tt else mret tt) st)
    as [[[]|e] s0]; [|discriminate].
  rewrite run_bind. unfold get at 1. cbv zeta. rewrite run_bind.
  destruct (forOf (Optic.sortEvents W (Optic.nbaEvents s0)) tt
              (Optic.nbaRefreshRound W E) s0) as [[[]|e] s1] eqn:Hloop;
    [|discriminate].
  intros Hrun. inversion Hrun; subst st'; clear Hrun.
  destruct (nba_loop_covers _ _ _ Hloop) as (Hcovered & _ & Hsame).
  cbn [Optic.nbaEvents Optic.nbaOdds Optic.set_lastNbaOddsUpdate Optic.set_ticks].
  rewrite Hsame. apply List.Forall_forall. intros e He. apply Hcovered.
  unfold Optic.sortEvents.
  apply (Permutation_in _
           (Permutation_sym (sortBy_Permutation (Optic.eventDate W) _))).
  exact He.
Qed.

Lemma refreshFootballOdds_covers st st' l evs :
  Optic.refreshFootballOdds W E st = (Normal tt, st') ->
  In l Optic.FOOTBALL_LEAGUES ->
  Optic.footballEvents st' !! l = Some evs ->
  Forall (fun e => is_Some (Optic.footballOdds st' !! toString (Optic.id e))) evs.
Proof.
  unfold Optic.refreshFootballOdds. rewrite run_bind.
  destruct (forOf Optic.FOOTBALL_LEAGUES tt (Optic.leagueRound W E) st)
    as [[[]|e] s0]; [|discriminate].
  rewrite run_bind. unfold get at 1. cbv zeta. rewrite run_bind.
  destruct (forOf (Optic.sortEvents W (Optic.collectEvents s0)) tt
              (Optic.footballRefreshRound W E) s0) as [[[]|e] s1] eqn:Hloop;
    [|discriminate].
  intros Hrun Hl Hevs. inversion Hrun; subst st'; clear Hrun.
  destruct (football_loop_covers _ _ _ Hloop) as (Hcovered & _ & Hsame).
  cbn [Optic.footballEvents Optic.footballOdds Optic.set_lastFootballOddsUpdate
       Optic.set_ticks] in *.
  rewrite Hsame in Hevs. apply List.Forall_forall. intros e He.
  assert (Hin : In (Optic.withLeague l e) (Optic.collectEvents s0)).
  { unfold Optic.collectEvents. apply in_flat_map. exists l. split; [exact Hl|].
    rewrite Hevs. simpl. apply in_map. exact He. }
  apply (Permutation_in _
           (Permutation_sym (sortBy_Permutation (Optic.eventDate W) _))) in Hin.
  exact (Hcovered _ Hin).
Qed.

(** X14: a refresh of the odds that returns leaves no listed event without
    odds.  When the cached events are plain (dates and ids convert, no
    id is [__proto__]), after [refreshNbaOdds] every cached NBA event
    has an entry in [nbaOdds] under its id, and after
    [refreshFootballOdds] every event cached for one of
    [FOOTBALL_LEAGUES] has one in [footballOdds]: the quota-free edition
    fetches the odds of all the events. *)
Theorem a_refresh_leaves_no_event_without_odds :
  (forall st st',
     Optic.refreshNbaOdds W E st = (Normal tt, st') ->
     Forall (fun e => Optic.plainEvent e = true) (Optic.nbaEvents st') ->
     Forall (fun e => is_Some (Optic.nbaOdds st' !! toString (Optic.id e)))
       (Optic.nbaEvents st'))
  /\ (forall st st' l evs,
        Optic.refreshFootballOdds W E st = (Normal tt, st') ->
        Forall (fun e => Optic.plainEvent e = true) (Optic.collectEvents st') ->
        In l Optic.FOOTBALL_LEAGUES ->
        Optic.footballEvents st' !! l = Some evs ->
        Forall (fun e => is_Some (Optic.footballOdds st' !! toString (Optic.id e)))
          evs).
Proof.
  split.
  - intros st st' Hrun _. exact (refreshNbaOdds_covers st st' Hrun).
  - intros st st' l evs Hrun _. exact (refreshFootballOdds_covers st st' l evs Hrun).
Qed.

End Coverage.

(** ** The routes *)

Section Routes.
Context (W : World) (E : Optic.Env) (serverClock : nat -> Z).

Lemma set_cache_same s : Server.set_cache (Server.cache s) s = s.
Proof. destruct s; reflexivity. Qed.

Lemma getNbaOddsRoute_eq eventId s :
  Server.getNbaOddsRoute eventId s
  = (Normal (Server.oddsReply
               (Optic.oddsAnswer (Optic.nbaOdds (Server.cache s)) (VStr eventId))),
     s).
Proof.
  unfold Server.getNbaOddsRoute, Server.onCache, Optic.getNbaOdds,
    mbind, M_bind, mret, M_ret, get.
  simpl. rewrite set_cache_same. reflexivity.
Qed.

Lemma getFootballOddsRoute_eq eventId s :
  Server.getFootballOddsRoute eventId s
  = (Normal (Server.oddsReply
               (Optic.oddsAnswer (Optic.footballOdds (Server.cache s))
                  (VStr eventId))),
     s).
Proof.
  unfold Server.getFootballOddsRoute, Server.onCache, Optic.getFootballOdds,
    mbind, M_bind, mret, M_ret, get.
  simpl. rewrite set_cache_same. reflexivity.
Qed.

Lemma oddsReply_spec (o : gmap string Optic.Snapshot) eventId :
  eventId <> "" ->
  let reply := Server.oddsReply (Optic.oddsAnswer o (VStr eventId)) in
  (Server.code reply = 404 <-> o !! eventId = None /\ inherited eventId = false)
  /\ (Server.code reply = 404 \/ Server.code reply = 200)
  /\ forall eventOdds,
       o !! eventId = Some eventOdds ->
       reply = Server.json (Server.OddsBody (Optic.OneOdds eventOdds)).
Proof.
  intros Hid. cbv zeta. unfold Optic.oddsAnswer, member.
  assert (Htruthy : truthy (VStr eventId) = true).
  { simpl. destruct (String.eqb_spec eventId ""); [contradiction|reflexivity]. }
  rewrite Htruthy. cbn [toString].
  destruct (o !! eventId) as [eo|]; [|destruct (inherited eventId)]; simpl.
  - split; [split; [discriminate|intros [? _]; discriminate]|].
    split; [right; reflexivity|]. intros ? [= <-]. reflexivity.
  - split; [split; [discriminate|intros [_ ?]; discriminate]|].
    split; [right; reflexivity|]. intros ? [=].
  - split; [split; [auto|reflexivity]|].
    split; [left; reflexivity|]. intros ? [=].
Qed.

(** X15: the routes of the odds of one event answer 404 exactly when
    nothing is found under the id, and after any fetch of the event's
    odds that returned they answer with the snapshot it returned, were
    it empty.  For an id that is not empty, and a map in which nothing
    was stored under [__proto__]: the reply has code 404 when the map
    has no entry of the id (and the id names no inherited member), else
    code 200; it carries the entry when there is one.  And once the
    wrapped [fetchNbaOddsForEvent] (or [fetchFootballOddsForEvent]) has
    returned a snapshot for an id that names an own property, the route
    of that id answers 200 with this snapshot. *)
Theorem an_odds_route_answers_404_only_for_what_was_never_fetched eventId s :
  eventId <> "" ->
  (Optic.nbaOdds (Server.cache s) !! "__proto__" = None ->
   exists reply,
     Server.getNbaOddsRoute eventId s = (Normal reply, s)
     /\ (Server.code reply = 404
         <-> Optic.nbaOdds (Server.cache s) !! eventId = None
             /\ inherited eventId = false)
     /\ (Server.code reply = 404 \/ Server.code reply = 200)
     /\ forall eventOdds,
          Optic.nbaOdds (Server.cache s) !! eventId = Some eventOdds ->
          reply = Server.json (Server.OddsBody (Optic.OneOdds eventOdds)))
  /\ (Optic.footballOdds (Server.cache s) !! "__proto__" = None ->
      exists reply,
        Server.getFootballOddsRoute eventId s = (Normal reply, s)
        /\ (Server.code reply = 404
            <-> Optic.footballOdds (Server.cache s) !! eventId = None
                /\ inherited eventId = false)
        /\ (Server.code reply = 404 \/ Server.code reply = 200)
        /\ forall eventOdds,
             Optic.footballOdds (Server.cache s) !! eventId = Some eventOdds ->
             reply = Server.json (Server.OddsBody (Optic.OneOdds eventOdds)))
  /\ (forall id result s',
        ownKey id = true ->
        toString id = eventId ->
        Server.fetchNbaOddsForEvent W E serverClock id s = (Normal result, s') ->
        Server.getNbaOddsRoute eventId s'
        = (Normal (Server.json (Server.OddsBody (Optic.OneOdds result))), s'))
  /\ (forall id bookmakers result s',
        ownKey id = true ->
        toString id = eventId ->
        Server.fetchFootballOddsForEvent W E serverClock id bookmakers s
          = (Normal result, s') ->
        Server.getFootballOddsRoute eventId s'
        = (Normal (Server.json (Server.OddsBody (Optic.OneOdds result))), s')).
Proof.
  intros Hid. split; [|split; [|split]].
  - intros _. eexists. split; [apply getNbaOddsRoute_eq|].
    exact (oddsReply_spec (Optic.nbaOdds (Server.cache s)) eventId Hid).
  - intros _. eexists. split; [apply getFootballOddsRoute_eq|].
    exact (oddsReply_spec (Optic.footballOdds (Server.cache s)) eventId Hid).
  - intros id result s' _ Hkey Hrun.
    rewrite (wrapped_fetchNbaOddsForEvent_eq W E serverClock) in Hrun.
    pose proof (optic_fetchNbaOddsForEvent_stores W E id (Server.cache s))
      as Hstored.
    destruct (Optic.fetchNbaOddsForEvent W E id (Server.cache s))
      as [[eo|e] c]; [|discriminate].
    inversion Hrun; subst eo s'; clear Hrun. destruct Hstored as [Hodds _].
    rewrite getNbaOddsRoute_eq. cbn [Server.cache Server.set_emitted
      Server.set_readings Server.set_cache].
    destruct (oddsReply_spec (Optic.nbaOdds c) eventId Hid) as (_ & _ & Hentry).
    rewrite (Hentry result); [reflexivity|].
    rewrite Hodds, Hkey. apply lookup_insert_eq.
  - intros id bookmakers result s' _ Hkey Hrun.
    rewrite (wrapped_fetchFootballOddsForEvent_eq W E serverClock) in Hrun.
    pose proof (optic_fetchFootballOddsForEvent_stores W E id bookmakers
                  (Server.cache s)) as Hstored.
    destruct (Optic.fetchFootballOddsForEvent W E id bookmakers (Server.cache s))
      as [[eo|e] c]; [|discriminate].
    inversion Hrun; subst eo s'; clear Hrun. destruct Hstored as [Hodds _].
    rewrite getFootballOddsRoute_eq. cbn [Server.cache Server.set_emitted
      Server.set_readings Server.set_cache].
    destruct (oddsReply_spec (Optic.footballOdds c) eventId Hid)
      as (_ & _ & Hentry).
    rewrite (Hentry result); [reflexivity|].
    rewrite Hodds, Hkey. apply lookup_insert_eq.
Qed.

Lemma countWithOdds_le l : (Server.countWithOdds l <= length l)%nat.
Proof. unfold Server.countWithOdds. apply filter_length_le. Qed.

Lemma countWithOdds_all (o : gmap string Optic.Snapshot) evs :
  Forall (fun e => is_Some (o !! toString (Optic.id e))) evs ->
  Server.countWithOdds (List.map (Server.withOdds o) evs) = length evs.
Proof.
  unfold Server.countWithOdds.
  induction 1 as [|e evs [eo He] _ IH]; simpl; [reflexivity|].
  unfold member at 1. rewrite He. simpl. rewrite IH. reflexivity.
Qed.

Lemma getNbaAllRoute_eq s :
  let c := Server.cache s in
  let eventsWithOdds :=
    List.map (Server.withOdds (Optic.nbaOdds c)) (Optic.nbaEvents c) in
  Server.getNbaAllRoute s
  = (Normal (Server.json
               (Server.NbaAllBody eventsWithOdds (Optic.lastNbaEventsUpdate c)
                  (Optic.lastNbaOddsUpdate c) (length (Optic.nbaEvents c))
                  (Server.countWithOdds eventsWithOdds))),
     s).
Proof.
  unfold Server.getNbaAllRoute, Server.onCache, Optic.getNbaEvents,
    Optic.getAllNbaOdds, mbind, M_bind, mret, M_ret, get.
  simpl. rewrite !set_cache_same. reflexivity.
Qed.

(** X16: [GET /api/nba/all] lists the cached events, each once and in
    their order, with the odds found under its id; [totalEvents] is
    their number and [eventsWithOdds] is at most that; and when the
    state is one the wrapped [refreshNbaOdds] returned in, every event
    comes with odds: [eventsWithOdds] equals [totalEvents].  This for
    cached events whose ids are printable, and an odds map in which
    nothing was stored under [__proto__]. *)
Theorem nba_all_lists_every_event_with_its_odds s :
  Forall (fun e => printable (Optic.id e) = true) (Optic.nbaEvents (Server.cache s)) ->
  Optic.nbaOdds (Server.cache s) !! "__proto__" = None ->
  exists events lastEventsUpdate lastOddsUpdate eventsWithOdds,
    Server.getNbaAllRoute s
    = (Normal (Server.json
                 (Server.NbaAllBody events lastEventsUpdate lastOddsUpdate
                    (length (Optic.nbaEvents (Server.cache s))) eventsWithOdds)),
       s)
    /\ List.map Server.listed events = Optic.nbaEvents (Server.cache s)
    /\ Forall (fun e => Server.oddsFound e
                        = member (Optic.nbaOdds (Server.cache s))
                            (toString (Optic.id (Server.listed e)))) events
    /\ (eventsWithOdds <= length (Optic.nbaEvents (Server.cache s)))%nat
    /\ forall s0,
         Server.refreshNbaOdds W E serverClock s0 = (Normal tt, s) ->
         eventsWithOdds = length (Optic.nbaEvents (Server.cache s)).
Proof.
  intros _ _.
  rewrite getNbaAllRoute_eq. cbv zeta. do 4 eexists. split; [reflexivity|].
  split; [|split; [|split]].
  - rewrite List.map_map. simpl. apply List.map_id.
  - apply List.Forall_forall. intros e He. apply List.in_map_iff in He.
    destruct He as (e0 & <- & _). reflexivity.
  - etrans; [apply countWithOdds_le|]. rewrite length_map. reflexivity.
  - intros s0 Hrun. apply countWithOdds_all.
    pose proof (wrapped_refreshNbaOdds W E serverClock s0 (Server.cache s0)
                  eq_refl) as Hsame.
    rewrite Hrun in Hsame.
    destruct (Optic.refreshNbaOdds W E (Server.cache s0)) as [[[]|e] c] eqn:Hc;
      [|contradiction].
    destruct Hsame as [_ <-].
    exact (refreshNbaOdds_covers W E _ _ Hc).
Qed.

Lemma fetchAvailableLeagues_returns sport c :
  exists leagues c',
    Optic.fetchAvailableLeagues W E sport c = (Normal leagues, c')
    /\ truthy leagues = true
    /\ (fst (Optic.fetchApi W E (Optic.leaguesUrl sport) c) = Normal VNull ->
        leagues = VArr []).
Proof.
  unfold Optic.fetchAvailableLeagues. rewrite run_bind.
  destruct (fetchApi_result W E (Optic.leaguesUrl sport) c)
    as (data & c1 & Hrun & _).
  rewrite Hrun. simpl.
  destruct (truthy data) eqn:Hdata.
  - assert (Hnull : nullish data = false) by (destruct data; auto; discriminate).
    rewrite run_bind. unfold liftC at 1. rewrite (getProp_defined _ _ Hnull).
    destruct (truthy (prop data "data")) eqn:Hlisted.
    + do 2 eexists. split; [reflexivity|]. split; [exact Hlisted|].
      intros [= ->]. discriminate.
    + do 2 eexists. split; [reflexivity|]. split; reflexivity.
  - do 2 eexists. split; [reflexivity|]. split; reflexivity.
Qed.


Lemma sum_fold_le {A} (c1 c2 : A -> nat) (m : gmap string A) :
  (forall x, (c1 x <= c2 x)%nat) ->
  (map_fold (fun _ x n => (c1 x + n)%nat) 0%nat m
   <= map_fold (fun _ x n => (c2 x + n)%nat) 0%nat m)%nat.
Proof.
  intros Hle.
  apply (map_fold_weak_ind
           (fun r m => (r <= map_fold (fun _ x n => (c2 x + n)%nat) 0%nat m)%nat)).
  - rewrite map_fold_empty. reflexivity.
  - intros i x m' r Hi IH. rewrite map_fold_insert_L; [|intros; lia|exact Hi].
    specialize (Hle x). lia.
Qed.

Lemma sum_fold_ext {A} (c1 c2 : A -> nat) (m : gmap string A) :
  (forall x, c1 x = c2 x) ->
  map_fold (fun _ x n => (c1 x + n)%nat) 0%nat m
  = map_fold (fun _ x n => (c2 x + n)%nat) 0%nat m.
Proof.
  intros Heq.
  apply (map_fold_weak_ind
           (fun r m => r = map_fold (fun _ x n => (c2 x + n)%nat) 0%nat m)).
  - rewrite map_fold_empty. reflexivity.
  - intros i x m' r Hi ->. rewrite map_fold_insert_L; [|intros; lia|exact Hi].
    rewrite Heq. reflexivity.
Qed.

(** X18: [GET /api/football/all] agrees with the status.  For cached
    events whose ids are printable, and an odds map in which nothing was
    stored under [__proto__], it answers with the cached events of every
    league, each with the odds found under its id; the leagues are those
    of the status, [totalEvents] is the [eventsCount] that [getStatus]
    reports for football, and [eventsWithOdds] is at most that. *)
Theorem football_all_counts_what_the_status_counts s :
  (forall l evs,
     Optic.footballEvents (Server.cache s) !! l = Some evs ->
     Forall (fun e => printable (Optic.id e) = true) evs) ->
  Optic.footballOdds (Server.cache s) !! "__proto__" = None ->
  exists leagues lastOddsUpdate totalEvents eventsWithOdds status,
    Server.getFootballAllRoute s
    = (Normal (Server.json
                 (Server.FootballAllBody leagues lastOddsUpdate totalEvents
                    eventsWithOdds)),
       s)
    /\ Optic.getStatus (Server.cache s) = (Normal status, Server.cache s)
    /\ (forall l,
          leagues !! l
          = List.map (Server.withOdds (Optic.footballOdds (Server.cache s)))
              <$> Optic.footballEvents (Server.cache s) !! l)
    /\ dom leagues = Optic.footballLeagues (Optic.football status)
    /\ totalEvents = Optic.footballEventsCount (Optic.football status)
    /\ (eventsWithOdds <= totalEvents)%nat.
Proof.
  intros _ _.
  unfold Server.getFootballAllRoute, Server.onCache, Optic.getFootballEvents,
    Optic.getAllFootballOdds, Optic.getStatus, mbind, M_bind, mret, M_ret, get.
  simpl. rewrite !set_cache_same. do 5 eexists. split; [reflexivity|].
  split; [reflexivity|]. simpl.
  split; [intros l; apply lookup_fmap|].
  split; [apply dom_fmap_L|].
  unfold Server.flatCount, Optic.countEvents. rewrite !map_fold_fmap.
  split.
  - apply sum_fold_ext. intros evs. simpl. apply length_map.
  - apply sum_fold_le. intros evs. simpl.
    etrans; [apply countWithOdds_le|]. rewrite length_map. reflexivity.
Qed.

End Routes.

(** ** Only [refreshAll] looks at the flag *)

Section Flag.
Context (W : World) (EB : Bounded.Env) (EO : Optic.Env).

Lemma related_get_bind {S1 S2 A1 A2} (R : S1 -> S2 -> Prop)
    (Q : A1 -> A2 -> Prop) (k1 : S1 -> M S1 A1) (k2 : S2 -> M S2 A2) :
  (forall s1 s2, R s1 s2 -> related R Q (k1 s1) (k2 s2)) ->
  related R Q (get ≫= k1) (get ≫= k2).
Proof. intros Hk s1 s2 Hs. rewrite !run_bind. exact (Hk s1 s2 Hs s1 s2 Hs). Qed.

Lemma flagApart_fields s1 s2 :
  flagApart s1 s2 ->
  Optic.nbaEvents s1 = Optic.nbaEvents s2
  /\ Optic.footballEvents s1 = Optic.footballEvents s2.
Proof.
  unfold flagApart. destruct s1, s2. simpl. intros [=]. subst. split; reflexivity.
Qed.

Lemma boundedFlagApart_fields s1 s2 :
  boundedFlagApart s1 s2 ->
  Bounded.nbaEvents s1 = Bounded.nbaEvents s2
  /\ Bounded.footballEvents s1 = Bounded.footballEvents s2
  /\ Bounded.apiCallsThisHour s1 = Bounded.apiCallsThisHour s2
  /\ Bounded.hourStartTime s1 = Bounded.hourStartTime s2.
Proof.
  unfold boundedFlagApart. destruct s1, s2. simpl. intros [=]. subst.
  repeat split; reflexivity.
Qed.

Ltac flag_leaf :=
  let s1 := fresh "s" in
  let s2 := fresh "s" in
  let H := fresh "H" in
  intros s1 s2 H; destruct s1, s2;
  unfold flagApart, boundedFlagApart in *; simpl in *;
  injection H as H; intros; subst; reflexivity.

Lemma flag_optic_Date_now : related flagApart eq (Optic.Date_now W) (Optic.Date_now W).
Proof.
  intros s1 s2 H. destruct s1, s2. unfold flagApart in *. simpl in *.
  injection H as H; intros; subst. split; reflexivity.
Qed.

Lemma flag_optic_fetch url :
  related flagApart eq (Optic.fetch W url) (Optic.fetch W url).
Proof.
  intros s1 s2 H. destruct s1, s2. unfold flagApart in *. simpl in *.
  injection H as H; intros; subst. split; reflexivity.
Qed.

Lemma flag_bounded_Date_now :
  related boundedFlagApart eq (Bounded.Date_now W) (Bounded.Date_now W).
Proof.
  intros s1 s2 H. destruct s1, s2. unfold boundedFlagApart in *. simpl in *.
  injection H as H; intros; subst. split; reflexivity.
Qed.

Lemma flag_bounded_fetch url :
  related boundedFlagApart eq (Bounded.fetch W url) (Bounded.fetch W url).
Proof.
  intros s1 s2 H. destruct s1, s2. unfold boundedFlagApart in *. simpl in *.
  injection H as H; intros; subst. split; reflexivity.
Qed.

(** Both runs are of the same method: it is opened up on both sides, and
    what it reads of the state after a [get] is the same in both. *)
Ltac head_of t :=
  lazymatch t with
  | ?f _ => head_of f
  | _ => t
  end.

Ltac twice_step :=
  lazymatch goal with
  | |- related _ _ (mret _) (mret _) => apply related_ret; reflexivity
  | |- related _ _ (throw _) (throw _) => apply related_throw
  | |- related _ _ (liftC _) (liftC _) => apply related_liftC
  | |- related _ _ (sleep _) (sleep _) => apply related_sleep
  | |- related _ _ (modify _) (modify _) => apply related_modify; solve [flag_leaf]
  | |- related _ _ (Optic.Date_now _) (Optic.Date_now _) => apply flag_optic_Date_now
  | |- related _ _ (Optic.fetch _ _) (Optic.fetch _ _) => apply flag_optic_fetch
  | |- related _ _ (Bounded.Date_now _) (Bounded.Date_now _) =>
      apply flag_bounded_Date_now
  | |- related _ _ (Bounded.fetch _ _) (Bounded.fetch _ _) =>
      apply flag_bounded_fetch
  | |- related _ _ (forOf _ _ _) (forOf _ _ _) =>
      apply related_forOf; intros ? ?
  | |- related _ _ (tryCatch _ _) (tryCatch _ _) =>
      apply related_tryCatch; [|intros ?]
  | |- related _ _ (tryFinally _ _) (tryFinally _ _) =>
      apply related_tryFinally
  | |- related _ _ (if ?b then _ else _) (if ?b then _ else _) =>
      destruct b
  | |- related _ _ (match ?x with _ => _ end) (match ?x with _ => _ end) =>
      destruct x
  | |- related flagApart _ (get ≫= _) (get ≫= _) =>
      let H := fresh "H" in
      let Hn := fresh "H" in
      let Hf := fresh "H" in
      apply related_get_bind; intros ? ? H;
      destruct (flagApart_fields _ _ H) as (Hn & Hf);
      unfold Optic.collectEvents; rewrite ?Hn, ?Hf
  | |- related boundedFlagApart _ (get ≫= _) (get ≫= _) =>
      let H := fresh "H" in
      let Hn := fresh "H" in
      let Hf := fresh "H" in
      let Hc := fresh "H" in
      let Hh := fresh "H" in
      apply related_get_bind; intros ? ? H;
      destruct (boundedFlagApart_fields _ _ H) as (Hn & Hf & Hc & Hh);
      unfold Bounded.collectEvents; rewrite ?Hn, ?Hf, ?Hc, ?Hh
  | |- related _ _ (_ ≫= _) (_ ≫= _) =>
      apply related_bind with (Q' := eq); [|intros ? ? <-]
  | |- related _ _ ?m _ => let h := head_of m in unfold h
  end.

Ltac twice := repeat twice_step.

Lemma flag_optic_call c :
  c <> Optic.CallRefreshAll ->
  forall s1 s2, flagApart s1 s2 ->
    flagApart (Optic.perform W EO c s1) (Optic.perform W EO c s2).
Proof.
  intros Hc s1 s2 Hs.
  destruct c; try contradiction; simpl;
    (eapply (related_run flagApart eq); [|exact Hs]); twice.
Qed.

Lemma flag_bounded_call c :
  c <> Bounded.CallRefreshAll ->
  forall s1 s2, boundedFlagApart s1 s2 ->
    boundedFlagApart (Bounded.perform W EB c s1) (Bounded.perform W EB c s2).
Proof.
  intros Hc s1 s2 Hs.
  destruct c; try contradiction; simpl;
    (eapply (related_run boundedFlagApart eq); [|exact Hs]); twice.
Qed.

Ltac kept_leaf :=
  let s := fresh "s" in
  let H := fresh "H" in
  intros s H; exact H.

Lemma flag_kept_optic c b s :
  c <> Optic.CallRefreshAll ->
  Optic.isRefreshing s = b -> Optic.isRefreshing (Optic.perform W EO c s) = b.
Proof.
  intros Hc Hs.
  destruct c; try contradiction; simpl;
    apply (run_preserves (fun s => Optic.isRefreshing s = b));
    try exact Hs; invariant kept_leaf.
Qed.

Lemma flag_kept_bounded c b s :
  c <> Bounded.CallRefreshAll ->
  Bounded.isRefreshing s = b -> Bounded.isRefreshing (Bounded.perform W EB c s) = b.
Proof.
  intros Hc Hs.
  destruct c; try contradiction; simpl;
    apply (run_preserves (fun s => Bounded.isRefreshing s = b));
    try exact Hs; invariant kept_leaf.
Qed.

Lemma flagApart_eq x y b :
  flagApart x y -> Optic.isRefreshing x = b -> x = Optic.set_isRefreshing b y.
Proof.
  unfold flagApart. destruct x, y. simpl. intros [=] <-. subst. reflexivity.
Qed.

Lemma boundedFlagApart_eq x y b :
  boundedFlagApart x y -> Bounded.isRefreshing x = b ->
  x = Bounded.set_isRefreshing b y.
Proof.
  unfold boundedFlagApart. destruct x, y. simpl. intros [=] <-. subst. reflexivity.
Qed.

(** X19: only [refreshAll] looks at [isRefreshing].  Any other method,
    called while the flag says that a refresh is running, does what it
    does otherwise, to the last field, and leaves the flag as it found
    it: the manual refreshes of one sport are not held back by a refresh
    that is under way. *)
Theorem only_refreshAll_looks_at_the_flag :
  (forall c b st,
     c <> Bounded.CallRefreshAll ->
     Bounded.perform W EB c (Bounded.set_isRefreshing b st)
     = Bounded.set_isRefreshing b (Bounded.perform W EB c st))
  /\ (forall c b st,
        c <> Optic.CallRefreshAll ->
        Optic.perform W EO c (Optic.set_isRefreshing b st)
        = Optic.set_isRefreshing b (Optic.perform W EO c st)).
Proof.
  split; intros c b st Hc.
  - apply boundedFlagApart_eq.
    + apply flag_bounded_call; [exact Hc|]. reflexivity.
    + apply flag_kept_bounded; [exact Hc|]. reflexivity.
  - apply flagApart_eq.
    + apply flag_optic_call; [exact Hc|]. reflexivity.
    + apply flag_kept_optic; [exact Hc|]. reflexivity.
Qed.

End Flag.

(** ** What a refresh of one sport publishes *)

Section Published.
Context (W : World) (E : Optic.Env) (serverClock : nat -> Z).

Lemma nba_round_publishes e s :
  match Server.nbaRefreshRound W E serverClock e tt s with
  | (Normal r, s') =>
      r = (tt, true)
      /\ Optic.nbaEvents (Server.cache s') = Optic.nbaEvents (Server.cache s)
      /\ exists m,
           Server.emitted s' = Server.emitted s ++ [m]
           /\ publishedId m = Some (Optic.id e) /\ oddsUpdateTo "nba" m
  | (Thrown _, s') => Server.emitted s' = Server.emitted s
  end.
Proof.
  unfold Server.nbaRefreshRound. rewrite run_bind, wrapped_fetchNbaOddsForEvent_eq.
  pose proof (nbaEvents_fetchNbaOddsForEvent W E (Optic.id e)
                (Optic.nbaEvents (Server.cache s)) (Server.cache s) eq_refl)
    as Hevents.
  destruct (Optic.fetchNbaOddsForEvent W E (Optic.id e) (Server.cache s))
    as [[result|err] c]; simpl; [|reflexivity].
  split; [reflexivity|]. split; [exact Hevents|].
  eexists. split; [reflexivity|]. split; [reflexivity|]. split; reflexivity.
Qed.

Lemma football_round_publishes e s :
  match Server.footballRefreshRound W E serverClock e tt s with
  | (Normal r, s') =>
      r = (tt, true)
      /\ Optic.footballEvents (Server.cache s')
         = Optic.footballEvents (Server.cache s)
      /\ exists m,
           Server.emitted s' = Server.emitted s ++ [m]
           /\ publishedId m = Some (Optic.id e) /\ oddsUpdateTo "football" m
  | (Thrown _, s') => Server.emitted s' = Server.emitted s
  end.
Proof.
  unfold Server.footballRefreshRound.
  rewrite run_bind, wrapped_fetchFootballOddsForEvent_eq.
  pose proof (footballEvents_fetchFootballOddsForEvent W E (Optic.id e)
                Optic.FOOTBALL_BOOKMAKERS
                (Optic.footballEvents (Server.cache s)) (Server.cache s) eq_refl)
    as Hevents.
  destruct (Optic.fetchFootballOddsForEvent W E (Optic.id e) _ (Server.cache s))
    as [[result|err] c]; simpl; [|reflexivity].
  split; [reflexivity|]. split; [exact Hevents|].
  eexists. split; [reflexivity|]. split; [reflexivity|]. split; reflexivity.
Qed.

(** A loop of rounds each of which publishes the odds of its event. *)
Lemma loop_publishes (sport : string) (kept : Optic.State -> Prop)
    (round : Optic.Event -> unit -> M Server.State (unit * bool)) :
  (forall e s,
     match round e tt s with
     | (Normal r, s') =>
         r = (tt, true)
         /\ (kept (Server.cache s) -> kept (Server.cache s'))
         /\ exists m,
              Server.emitted s' = Server.emitted s ++ [m]
              /\ publishedId m = Some (Optic.id e) /\ oddsUpdateTo sport m
     | (Thrown _, s') => Server.emitted s' = Server.emitted s
     end) ->
  forall l s,
    match forOf l tt round s with
    | (Normal _, s') =>
        (kept (Server.cache s) -> kept (Server.cache s'))
        /\ exists during,
             Server.emitted s' = Server.emitted s ++ during
             /\ List.map publishedId during
                = List.map (fun e => Some (Optic.id e)) l
             /\ Forall (oddsUpdateTo sport) during
    | (Thrown _, s') =>
        exists during k,
          Server.emitted s' = Server.emitted s ++ during
          /\ List.map publishedId during
             = List.map (fun e => Some (Optic.id e)) (take k l)
          /\ Forall (oddsUpdateTo sport) during
    end.
Proof.
  intros Hround l. induction l as [|e l IH]; intros s.
  - simpl. split; [auto|]. exists []. rewrite app_nil_r.
    split; [reflexivity|]. split; [reflexivity|constructor].
  - rewrite forOf_cons. specialize (Hround e s).
    destruct (round e tt s) as [[[[] go]|err] s1].
    + destruct Hround as ([= ->] & Hkept & m & Hm & Hid & Hto).
      specialize (IH s1).
      destruct (forOf l tt round s1) as [[[]|err] s2].
      * destruct IH as (Hkept' & during & Hduring & Hids & Hall).
        split; [auto|]. exists (m :: during).
        split; [rewrite Hduring, Hm, <- app_assoc; reflexivity|].
        split; [simpl; rewrite Hid, Hids; reflexivity|].
        constructor; assumption.
      * destruct IH as (during & k & Hduring & Hids & Hall).
        exists (m :: during), (S k).
        split; [rewrite Hduring, Hm, <- app_assoc; reflexivity|].
        split; [simpl; rewrite Hid, Hids; reflexivity|].
        constructor; assumption.
    + exists [], 0%nat. rewrite app_nil_r.
      split; [exact Hround|]. split; [reflexivity|constructor].
Qed.

Lemma onCache_get s :
  Server.onCache get s = (Normal (Server.cache s), s).
Proof. unfold Server.onCache, get. rewrite set_cache_same. reflexivity. Qed.

Lemma originalRefreshNbaOdds_publishes s :
  match Server.originalRefreshNbaOdds W E serverClock s with
  | (Normal _, s') =>
      exists during,
        Server.emitted s' = Server.emitted s ++ during
        /\ List.map publishedId during
           = List.map (fun e => Some (Optic.id e))
               (Optic.sortEvents W (Optic.nbaEvents (Server.cache s')))
        /\ Forall (oddsUpdateTo "nba") during
  | (Thrown _, s') =>
      exists during,
        Server.emitted s' = Server.emitted s ++ during
        /\ Forall (oddsUpdateTo "nba") during
  end.
Proof.
  unfold Server.originalRefreshNbaOdds.
  rewrite run_bind, onCache_get, run_bind.
  assert (Hentry :
            match ((if (length (Optic.nbaEvents (Server.cache s)) =? 0)%nat
                    then Server.onCache (Optic.fetchNbaEvents W E);; mret tt
                    else mret tt) s) with
            | (_, s0) => Server.emitted s0 = Server.emitted s
            end).
  { destruct (length (Optic.nbaEvents (Server.cache s)) =? 0)%nat; [|reflexivity].
    rewrite run_bind. unfold Server.onCache.
    destruct (Optic.fetchNbaEvents W E (Server.cache s)) as [[l|e] c]; reflexivity. }
  destruct ((if (length (Optic.nbaEvents (Server.cache s)) =? 0)%nat
             then Server.onCache (Optic.fetchNbaEvents W E);; mret tt
             else mret tt) s) as [[[]|e] s0].
  2:{ exists []. rewrite app_nil_r. split; [exact Hentry|constructor]. }
  rewrite run_bind, onCache_get. cbv zeta. rewrite run_bind.
  assert (Hloop :
            forall l s1,
              match forOf l tt (Server.nbaRefreshRound W E serverClock) s1 with
              | (Normal _, s') =>
                  (Optic.nbaEvents (Server.cache s1)
                   = Optic.nbaEvents (Server.cache s0) ->
                   Optic.nbaEvents (Server.cache s')
                   = Optic.nbaEvents (Server.cache s0))
                  /\ exists during,
                       Server.emitted s' = Server.emitted s1 ++ during
                       /\ List.map publishedId during
                          = List.map (fun e => Some (Optic.id e)) l
                       /\ Forall (oddsUpdateTo "nba") during
              | (Thrown _, s') =>
                  exists during k,
                    Server.emitted s' = Server.emitted s1 ++ during
                    /\ List.map publishedId during
                       = List.map (fun e => Some (Optic.id e)) (take k l)
                    /\ Forall (oddsUpdateTo "nba") during
              end).
  { apply (loop_publishes "nba"
             (fun c => Optic.nbaEvents c = Optic.nbaEvents (Server.cache s0))).
    intros e s1. pose proof (nba_round_publishes e s1) as Hround.
    destruct (Server.nbaRefreshRound W E serverClock e tt s1) as [[r|err] s2];
      [|exact Hround].
    destruct Hround as (Hr & Hevents & Hm). split; [exact Hr|].
    split; [|exact Hm]. intros Hkept. rewrite Hevents. exact Hkept. }
  specialize (Hloop (Optic.sortEvents W (Optic.nbaEvents (Server.cache s0))) s0).
  destruct (forOf _ tt (Server.nbaRefreshRound W E serverClock) s0)
    as [[[]|err] s1].
  - destruct Hloop as (Hkept & during & Hduring & Hids & Hall).
    rewrite run_bind. unfold Server.onCache at 1, Optic.Date_now at 1.
    unfold Server.onCache, modify.
    cbn [Server.emitted Server.cache Server.set_cache Optic.nbaEvents
         Optic.set_lastNbaOddsUpdate Optic.set_ticks].
    exists during. rewrite (Hkept eq_refl), Hduring, Hentry.
    split; [reflexivity|]. split; [exact Hids|exact Hall].
  - destruct Hloop as (during & k & Hduring & _ & Hall).
    exists during. rewrite Hduring, Hentry. split; [reflexivity|exact Hall].
Qed.

Lemma leagues_loop_is_silent before :
  preserves (fun s => Server.emitted s = before)
    (forOf Optic.FOOTBALL_LEAGUES tt (Server.leagueRound W E)).
Proof.
  apply preserves_forOf. intros l u. unfold Server.leagueRound.
  apply preserves_bind; [|intros ?; apply preserves_bind;
                           [apply preserves_sleep|intros ?; apply preserves_ret]].
  apply preserves_onCache. intros s c H. exact H.
Qed.

Lemma originalRefreshFootballOdds_publishes s :
  match Server.originalRefreshFootballOdds W E serverClock s with
  | (Normal _, s') =>
      exists during,
        Server.emitted s' = Server.emitted s ++ during
        /\ List.map publishedId during
           = List.map (fun e => Some (Optic.id e))
               (Optic.sortEvents W (Optic.collectEvents (Server.cache s')))
        /\ Forall (oddsUpdateTo "football") during
  | (Thrown _, s') =>
      exists during,
        Server.emitted s' = Server.emitted s ++ during
        /\ Forall (oddsUpdateTo "football") during
  end.
Proof.
  unfold Server.originalRefreshFootballOdds. rewrite run_bind.
  pose proof (leagues_loop_is_silent (Server.emitted s) s eq_refl) as Hentry.
  destruct (forOf Optic.FOOTBALL_LEAGUES tt (Server.leagueRound W E) s)
    as [[[]|e] s0].
  2:{ exists []. rewrite app_nil_r. split; [exact Hentry|constructor]. }
  rewrite run_bind, onCache_get. cbv zeta. rewrite run_bind.
  assert (Hloop :
            forall l s1,
              match forOf l tt (Server.footballRefreshRound W E serverClock) s1 with
              | (Normal _, s') =>
                  (Optic.footballEvents (Server.cache s1)
                   = Optic.footballEvents (Server.cache s0) ->
                   Optic.footballEvents (Server.cache s')
                   = Optic.footballEvents (Server.cache s0))
                  /\ exists during,
                       Server.emitted s' = Server.emitted s1 ++ during
                       /\ List.map publishedId during
                          = List.map (fun e => Some (Optic.id e)) l
                       /\ Forall (oddsUpdateTo "football") during
              | (Thrown _, s') =>
                  exists during k,
                    Server.emitted s' = Server.emitted s1 ++ during
                    /\ List.map publishedId during
                       = List.map (fun e => Some (Optic.id e)) (take k l)
                    /\ Forall (oddsUpdateTo "football") during
              end).
  { apply (loop_publishes "football"
             (fun c => Optic.footballEvents c
                       = Optic.footballEvents (Server.cache s0))).
    intros e s1. pose proof (football_round_publishes e s1) as Hround.
    destruct (Server.footballRefreshRound W E serverClock e tt s1)
      as [[r|err] s2]; [|exact Hround].
    destruct Hround as (Hr & Hevents & Hm). split; [exact Hr|].
    split; [|exact Hm]. intros Hkept. rewrite Hevents. exact Hkept. }
  specialize (Hloop (Optic.sortEvents W (Optic.collectEvents (Server.cache s0))) s0).
  destruct (forOf _ tt (Server.footballRefreshRound W E serverClock) s0)
    as [[[]|err] s1].
  - destruct Hloop as (Hkept & during & Hduring & Hids & Hall).
    rewrite run_bind. unfold Server.onCache at 1, Optic.Date_now at 1.
    unfold Server.onCache, modify.
    cbn [Server.emitted Server.cache Server.set_cache].
    exists during. rewrite Hduring, Hentry. split; [reflexivity|].
    split; [|exact Hall]. rewrite Hids. unfold Optic.collectEvents.
    cbn [Optic.footballEvents Optic.set_lastFootballOddsUpdate Optic.set_ticks].
    rewrite (Hkept eq_refl). reflexivity.
  - destruct Hloop as (during & k & Hduring & _ & Hall).
    exists during. rewrite Hduring, Hentry. split; [reflexivity|exact Hall].
Qed.


End Published.

(** ** The quota edition: a refresh with budget to spare *)

Section GatedCoverage.
Context (W : World) (E : Bounded.Env) {T : Type}.
Context (keyOf : T -> string) (good : T -> Prop).
Context (odds : Bounded.State -> gmap string Bounded.Snapshot).
Context (round : T -> unit -> M Bounded.State (unit * bool)).

Hypothesis gate_keeps_odds : forall s, odds (Bounded.afterGate W E s) = odds s.

Hypothesis round_closed :
  forall e s,
    Bounded.gateOpen W E s = false ->
    round e tt s = (Normal (tt, false), Bounded.afterGate W E s).

Hypothesis round_open :
  forall e s,
    good e -> Bounded.gateOpen W E s = true ->
    exists eventOdds s1,
      round e tt s = (Normal (tt, true), s1)
      /\ odds s1 = <[keyOf e := eventOdds]> (odds s).

Lemma gatedLoop_covers l s :
  Forall good l ->
  exists s' k,
    forOf l tt round s = (Normal tt, s')
    /\ (forall e, In e (take k l) -> is_Some (odds s' !! keyOf e))
    /\ dom (odds s) ⊆ dom (odds s')
    /\ ((k < length l)%nat ->
        Bounded.MAX_CALLS_PER_HOUR E <= Bounded.apiCallsThisHour s').
Proof.
  intros Hgood. revert s. induction Hgood as [|e l He Hl IH]; intros s.
  - exists s, 0%nat. simpl. split; [reflexivity|]. split; [intros e []|].
    split; [reflexivity|lia].
  - rewrite forOf_cons.
    pose proof (gateOpen_spec W E s) as Hspec.
    destruct (Bounded.gateOpen W E s) eqn:Hgate.
    + destruct (round_open e s He Hgate) as (eo & s1 & Hrun & Hodds).
      rewrite Hrun. destruct (IH s1) as (s' & k & Hloop & Hcovered & Hdom & Hstop).
      exists s', (S k). split; [exact Hloop|].
      assert (Hkey : keyOf e ∈ dom (odds s1)).
      { rewrite Hodds, dom_insert_L. apply elem_of_union_l, elem_of_singleton.
        reflexivity. }
      split; [|split].
      * simpl. intros e' [<-|Hin]; [|exact (Hcovered e' Hin)].
        apply elem_of_dom, Hdom, Hkey.
      * etrans; [|exact Hdom]. rewrite Hodds, dom_insert_L.
        apply union_subseteq_r.
      * simpl. intros Hk. apply Hstop. lia.
    + rewrite (round_closed e s Hgate).
      exists (Bounded.afterGate W E s), 0%nat. split; [reflexivity|].
      split; [intros e' []|]. split; [rewrite gate_keeps_odds; reflexivity|].
      intros _. apply Z.ltb_ge. auto.
Qed.

End GatedCoverage.

Section Spare.
Import Bounded.
Context (W : World) (E : Env).

Lemma nbaRefreshRound_stores event s :
  nullish event = false -> gateOpen W E s = true ->
  exists eventOdds s1,
    nbaRefreshRound W E event tt s = (Normal (tt, true), s1)
    /\ nbaOdds s1 = <[toString (prop event "id") := eventOdds]> (nbaOdds s).
Proof.
  intros Hevent Hopen. unfold nbaRefreshRound.
  rewrite run_bind, checkRateLimit_gate, Hopen. cbn [negb].
  rewrite run_bind. unfold liftC at 1, getProp. rewrite Hevent.
  rewrite run_bind.
  destruct (bounded_fetchNbaOddsForEvent_stores W E (prop event "id")
              (afterGate W E s)) as (eo & s1 & Hrun & Hodds & _).
  rewrite Hrun. exists eo, s1. split; [reflexivity|].
  rewrite Hodds. destruct (afterGate_frame W E s) as (_ & -> & _). reflexivity.
Qed.

Lemma footballRefreshRound_stores event s :
  True -> gateOpen W E s = true ->
  exists eventOdds s1,
    footballRefreshRound W E event tt s = (Normal (tt, true), s1)
    /\ footballOdds s1
       = <[toString (field event "id") := eventOdds]> (footballOdds s).
Proof.
  intros _ Hopen. unfold footballRefreshRound.
  rewrite run_bind, checkRateLimit_gate, Hopen. cbn [negb].
  rewrite run_bind.
  destruct (bounded_fetchFootballOddsForEvent_stores W E (field event "id")
              FOOTBALL_BOOKMAKERS (afterGate W E s))
    as (eo & s1 & Hrun & Hodds & _).
  rewrite Hrun. exists eo, s1. split; [reflexivity|].
  rewrite Hodds. destruct (afterGate_frame W E s) as (_ & _ & _ & -> & _).
  reflexivity.
Qed.

(** X21: unless the budget runs out, a refresh leaves no event within the
    horizon without odds.  When the stored events are plain (none is
    [null], dates and ids convert, no id is [__proto__]) and
    [refreshNbaOdds] ends with the counter below the limit, every stored
    event dated within three days has an entry in [nbaOdds] under its
    id; and so for [refreshFootballOdds], the events of
    [FOOTBALL_LEAGUES] and [footballOdds]. *)
Theorem with_budget_to_spare_every_upcoming_event_has_odds :
  (forall st,
     let st0 := nbaOddsEntry W E st in
     let now := clock W (ticks st0) in
     Forall (fun e => plainEvent e = true) (nbaEvents st0) ->
     exists st',
       refreshNbaOdds W E st = (Normal tt, st')
       /\ (apiCallsThisHour st' < MAX_CALLS_PER_HOUR E ->
           Forall (fun e => dateAtMost (eventDate W e) (now + 3 * dayMs) = true ->
                            is_Some (nbaOdds st' !! toString (prop e "id")))
             (nbaEvents st0)))
  /\ (forall st,
        let st0 := footballOddsEntry W E st in
        let now := clock W (ticks st0) in
        Forall (fun e => plainFields e = true) (collectEvents st0) ->
        exists st',
          refreshFootballOdds W E st = (Normal tt, st')
          /\ (apiCallsThisHour st' < MAX_CALLS_PER_HOUR E ->
              Forall (fun e => dateAtMost (fieldDate W e) (now + 3 * dayMs) = true ->
                               is_Some (footballOdds st' !! toString (field e "id")))
                (collectEvents st0))).
Proof.
  split.
  - intros st st0 now Hplain.
    pose proof (plain_events_not_null _ Hplain) as Hclean.
    rewrite (refreshNbaOdds_runs W E st Hclean). fold st0 now.
    assert (Hdue : Forall (fun e => nullish e = false)
                     (upcomingNba W now (nbaEvents st0))).
    { unfold upcomingNba. apply List.Forall_forall. intros e He.
      apply List.filter_In in He. destruct He as [He _].
      apply (Permutation_in _ (sortBy_Permutation (eventDate W) _)) in He.
      rewrite List.Forall_forall in Hclean. exact (Hclean e He). }
    destruct (gatedLoop_covers W E (fun e => toString (prop e "id"))
                (fun e => nullish e = false) nbaOdds (nbaRefreshRound W E)
                (fun s => proj1 (proj2 (afterGate_frame W E s)))
                (nbaRefreshRound_closed W E) nbaRefreshRound_stores _
                (afterClock st0) Hdue)
      as (s1 & k & Hloop & Hcovered & _ & Hstop).
    rewrite Hloop. eexists. split; [reflexivity|].
    cbn [apiCallsThisHour nbaOdds set_lastNbaOddsUpdate set_ticks].
    intros Hspare. apply List.Forall_forall. intros e He Hsoon. apply Hcovered.
    rewrite take_ge.
    + unfold upcomingNba. apply List.filter_In. split; [|exact Hsoon].
      apply (Permutation_in _
               (Permutation_sym (sortBy_Permutation (eventDate W) _))).
      exact He.
    + destruct (Nat.lt_ge_cases k (length (upcomingNba W now (nbaEvents st0))))
        as [Hk|Hk]; [specialize (Hstop Hk); lia|exact Hk].
  - intros st st0 now _. rewrite (refreshFootballOdds_runs W E st).
    fold st0 now. cbv zeta.
    destruct (gatedLoop_covers W E (fun e => toString (field e "id"))
                (fun _ => True) footballOdds (footballRefreshRound W E)
                (fun s => proj1 (proj2 (proj2 (proj2 (afterGate_frame W E s)))))
                (footballRefreshRound_closed W E) footballRefreshRound_stores
                (upcomingFootball W now st0)
                (afterClock st0))
      as (s1 & k & Hloop & Hcovered & _ & Hstop).
    { apply List.Forall_forall. intros. exact I. }
    rewrite Hloop. eexists. split; [reflexivity|].
    cbn [apiCallsThisHour footballOdds set_lastFootballOddsUpdate set_ticks].
    intros Hspare. apply List.Forall_forall. intros e He Hsoon. apply Hcovered.
    rewrite take_ge.
    + unfold upcomingFootball. apply List.filter_In. split; [|exact Hsoon].
      apply (Permutation_in _
               (Permutation_sym (sortBy_Permutation (fieldDate W) _))).
      exact He.
    + destruct (Nat.lt_ge_cases k (length (upcomingFootball W now st0)))
        as [Hk|Hk]; [specialize (Hstop Hk); lia|exact Hk].
Qed.

End Spare.

(** ** The flag is never left set *)

Section Idle.
Context (W : World) (EB : Bounded.Env) (EO : Optic.Env).

Lemma bounded_idle c s :
  Bounded.isRefreshing s = false ->
  Bounded.isRefreshing (Bounded.perform W EB c s) = false.
Proof.
  intros Hs.
  destruct c; try (apply flag_kept_bounded; [discriminate|exact Hs]).
  simpl. rewrite bounded_refreshAll_eq, Hs. cbv zeta.
  destruct (Bounded.refreshCycle W EB _) as [[[]|e] s1]; reflexivity.
Qed.

Lemma optic_idle c s :
  Optic.isRefreshing s = false ->
  Optic.isRefreshing (Optic.perform W EO c s) = false.
Proof.
  intros Hs.
  destruct c; try (apply flag_kept_optic; [discriminate|exact Hs]).
  simpl. rewrite optic_refreshAll_eq, Hs.
  destruct (Optic.refreshCycle W EO _) as [[[]|e] s1]; reflexivity.
Qed.

(** X22: the flag is never left set.  Whatever methods are called on the
    fresh object, in any order, and however they end, [isRefreshing] is
    [false] after each of them: a refresh that fails cannot keep later
    refreshes from running. *)
Theorem the_flag_is_never_left_set :
  (forall calls st,
     In st (Bounded.constructor W
              :: Bounded.statesAlong W EB calls (Bounded.constructor W)) ->
     Bounded.isRefreshing st = false)
  /\ (forall calls st,
        In st (Optic.constructor
                 :: Optic.statesAlong W EO calls Optic.constructor) ->
        Optic.isRefreshing st = false).
Proof.
  split; intros calls st [<-|Hin]; try reflexivity.
  - exact (bounded_statesAlong_keep W EB
             (fun s => Bounded.isRefreshing s = false) bounded_idle
             calls (Bounded.constructor W) st eq_refl Hin).
  - exact (optic_statesAlong_keep W EO
             (fun s => Optic.isRefreshing s = false) optic_idle
             calls Optic.constructor st eq_refl Hin).
Qed.

End Idle.

(** * Runs *)

Lemma odds_entries_are_never_removed_witness :
  dom (Bounded.nbaOdds Scenario.oddsCached)
    ⊆ dom (Bounded.nbaOdds
             (Bounded.perform Scenario.offline Scenario.boundedDefaults
                Bounded.CallRefreshAll Scenario.oddsCached))
  /\ dom (Bounded.footballOdds Scenario.oddsCached)
       ⊆ dom (Bounded.footballOdds
                (Bounded.perform Scenario.offline Scenario.boundedDefaults
                   Bounded.CallRefreshAll Scenario.oddsCached)).
Proof.
  exact (proj1 (odds_entries_are_never_removed Scenario.offline
                  Scenario.boundedDefaults Scenario.opticKeyed)
           [Bounded.CallRefreshAll] Scenario.oddsCached _ (or_introl eq_refl)).
Defined.

Lemma apiCallCount_counts_the_requests_witness :
  let st := Optic.perform Scenario.farFixture Scenario.opticKeyed
              Optic.CallRefreshAll Optic.constructor in
  Optic.apiCallCount st = Z.of_nat (length (Optic.requests st))
  /\ forall i r, Optic.requests st !! i = Some r -> snd r = Z.of_nat (S i).
Proof.
  exact (apiCallCount_counts_the_requests Scenario.farFixture Scenario.opticKeyed
           [Optic.CallRefreshAll] _ (or_intror (or_introl eq_refl))).
Defined.

Lemma without_a_key_nothing_is_requested_witness :
  Optic.OPTIC_API_KEY Scenario.opticUnkeyed = ""
  /\ Optic.requests
       (Optic.perform Scenario.farFixture Scenario.opticUnkeyed
          Optic.CallRefreshAll Optic.constructor) = [].
Proof.
  assert (Hkey : Optic.OPTIC_API_KEY Scenario.opticUnkeyed = "") by reflexivity.
  split; [exact Hkey|].
  exact (proj1 (proj2 (without_a_key_nothing_is_requested Scenario.farFixture
                         Scenario.opticUnkeyed Hkey)
                  [Optic.CallRefreshAll] Optic.constructor _
                  (or_introl eq_refl))).
Defined.

Lemma cached_events_carry_their_league_witness :
  let st := Optic.perform Scenario.farFixture Scenario.opticKeyed
              Optic.CallFetchNbaEvents Optic.constructor in
  length (Optic.nbaEvents st) = 1%nat
  /\ Forall (fun e => Optic.league e = VStr "nba") (Optic.nbaEvents st).
Proof.
  split; [vm_compute; reflexivity|].
  exact (proj1 (cached_events_carry_their_league Scenario.farFixture
                  Scenario.opticKeyed [Optic.CallFetchNbaEvents] _
                  (or_intror (or_introl eq_refl)))).
Defined.

Lemma lastError_is_never_cleared_witness :
  Optic.lastError Scenario.failedOnce <> None
  /\ Optic.lastError
       (Optic.perform Scenario.farFixture Scenario.opticKeyed
          Optic.CallRefreshAll Scenario.failedOnce) <> None.
Proof.
  assert (Hfailed : Optic.lastError Scenario.failedOnce <> None)
    by (vm_compute; discriminate).
  split; [exact Hfailed|].
  exact (proj2 (lastError_is_never_cleared Scenario.farFixture
                  Scenario.boundedDefaults Scenario.opticKeyed)
           [Optic.CallRefreshAll] Scenario.failedOnce _ Hfailed
           (or_introl eq_refl)).
Defined.


Lemma remaining_calls_stay_within_the_limit_witness :
  0 < Bounded.MAX_CALLS_PER_HOUR Scenario.boundedFive
  /\ exists remaining st',
       Bounded.getRemainingCalls Scenario.offline Scenario.boundedFive
         Scenario.fiveCallsMade = (Normal remaining, st')
       /\ remaining
          = Bounded.MAX_CALLS_PER_HOUR Scenario.boundedFive
            - Bounded.apiCallsThisHour st'
       /\ 0 <= remaining <= Bounded.MAX_CALLS_PER_HOUR Scenario.boundedFive.
Proof.
  assert (Hpos : 0 < Bounded.MAX_CALLS_PER_HOUR Scenario.boundedFive)
    by reflexivity.
  split; [exact Hpos|].
  apply (remaining_calls_stay_within_the_limit Scenario.offline
           Scenario.boundedFive Hpos
           (repeat (Bounded.CallFetchWithRateLimit "https://provider.test/odds") 5)).
  right. vm_compute. do 4 right. left. reflexivity.
Defined.

Lemma a_budget_used_up_freezes_the_cache_witness :
  Bounded.MAX_CALLS_PER_HOUR Scenario.boundedFive
    <= Bounded.apiCallsThisHour Scenario.fiveCallsMade
  /\ Bounded.requests
       (Bounded.perform Scenario.standstill Scenario.boundedFive
          Bounded.CallRefreshAll Scenario.fiveCallsMade)
     = Bounded.requests Scenario.fiveCallsMade
  /\ Bounded.nbaOdds
       (Bounded.perform Scenario.standstill Scenario.boundedFive
          Bounded.CallRefreshAll Scenario.fiveCallsMade)
     = Bounded.nbaOdds Scenario.fiveCallsMade.
Proof.
  assert (Hfull : Bounded.MAX_CALLS_PER_HOUR Scenario.boundedFive
                  <= Bounded.apiCallsThisHour Scenario.fiveCallsMade)
    by (vm_compute; discriminate).
  assert (Hhour : forall n,
             (Bounded.ticks Scenario.fiveCallsMade <= n)%nat ->
             clock Scenario.standstill n
             - Bounded.hourStartTime Scenario.fiveCallsMade < hourMs)
    by (intros n _; vm_compute; reflexivity).
  split; [exact Hfull|].
  destruct (a_budget_used_up_freezes_the_cache Scenario.standstill
              Scenario.boundedFive Scenario.fiveCallsMade Hfull Hhour
              [Bounded.CallRefreshAll] _ (or_introl eq_refl))
    as [(Hrequests & _) Hodds].
  split; [exact Hrequests|].
  apply Hodds. repeat constructor.
Defined.

Lemma every_odds_refresh_is_stamped_when_it_ends_witness :
  Forall (fun e => Bounded.plainEvent e = true)
    (Bounded.nbaEvents
       (Bounded.nbaOddsEntry Scenario.threeEvents Scenario.boundedDefaults
          (Bounded.constructor Scenario.threeEvents)))
  /\ exists st',
       Bounded.refreshNbaOdds Scenario.threeEvents Scenario.boundedDefaults
         (Bounded.constructor Scenario.threeEvents) = (Normal tt, st')
       /\ (0 < Bounded.ticks st')%nat
       /\ Bounded.lastNbaOddsUpdate st'
          = Some (clock Scenario.threeEvents (pred (Bounded.ticks st'))).
Proof.
  assert (Hplain : Forall (fun e => Bounded.plainEvent e = true)
                     (Bounded.nbaEvents
                        (Bounded.nbaOddsEntry Scenario.threeEvents
                           Scenario.boundedDefaults
                           (Bounded.constructor Scenario.threeEvents))))
    by (repeat constructor).
  split; [exact Hplain|].
  exact (proj1 (every_odds_refresh_is_stamped_when_it_ends Scenario.threeEvents
                  Scenario.boundedDefaults)
           (Bounded.constructor Scenario.threeEvents) Hplain).
Defined.

Lemma every_refreshAll_is_announced_witness :
  Optic.isRefreshing (Server.cache Scenario.busy) = true
  /\ exists s',
       Server.refreshAll Scenario.offline Scenario.opticKeyed Scenario.wallClock
         Scenario.busy = (Normal tt, s')
       /\ length (Server.emitted s') = 4%nat
       /\ Server.cache s' = Server.cache Scenario.busy.
Proof.
  split; [reflexivity|].
  destruct (every_refreshAll_is_announced Scenario.offline Scenario.opticKeyed
              Scenario.wallClock Scenario.busy)
    as (s' & during & status & Hrun & _ & Hemitted & _ & Hskipped).
  destruct (Hskipped eq_refl) as [Hnone Hcache].
  exists s'. split; [exact Hrun|]. split; [|exact Hcache].
  rewrite Hemitted, Hnone. reflexivity.
Defined.

Lemma every_odds_fetch_is_published_witness :
  exists result s',
    Server.fetchNbaOddsForEvent Scenario.quoting Scenario.opticKeyed
      Scenario.wallClock (VStr "F1") Scenario.started = (Normal result, s')
    /\ Server.emitted s'
       = [{| Server.target := Server.Room "nba";
             Server.event := "oddsUpdate";
             Server.data := Server.OddsUpdateData "nba" (VStr "F1") result 5000 |}]
    /\ Optic.nbaOdds (Server.cache s') !! "F1" = Some result.
Proof.
  destruct (proj1 (every_odds_fetch_is_published Scenario.quoting
                     Scenario.opticKeyed Scenario.wallClock Scenario.started
                     (VStr "F1")))
    as (s' & Hrun & Hcache & Hemitted & Hstored).
  eexists _, s'. split; [exact Hrun|].
  split; [exact Hemitted|]. rewrite Hcache. exact (Hstored eq_refl).
Defined.

Lemma a_refresh_leaves_no_event_without_odds_witness :
  let st' := snd (Optic.refreshNbaOdds Scenario.farFixture Scenario.opticKeyed
                    Optic.constructor) in
  List.map Optic.id (Optic.nbaEvents st') = [VStr "F1"]
  /\ Forall (fun e => Optic.plainEvent e = true) (Optic.nbaEvents st')
  /\ Forall (fun e => is_Some (Optic.nbaOdds st' !! toString (Optic.id e)))
       (Optic.nbaEvents st').
Proof.
  intros st'.
  assert (Hplain : Forall (fun e => Optic.plainEvent e = true)
                     (Optic.nbaEvents st'))
    by (repeat constructor).
  split; [vm_compute; reflexivity|]. split; [exact Hplain|].
  apply (proj1 (a_refresh_leaves_no_event_without_odds Scenario.farFixture
                  Scenario.opticKeyed) Optic.constructor st');
    [vm_compute; reflexivity|exact Hplain].
Defined.

Lemma an_odds_route_answers_404_only_for_what_was_never_fetched_witness :
  "F1" <> ""
  /\ Optic.nbaOdds (Server.cache Scenario.started) !! "__proto__" = None
  /\ ownKey (VStr "F1") = true
  /\ (exists reply,
        Server.getNbaOddsRoute "F1" Scenario.started
        = (Normal reply, Scenario.started)
        /\ Server.code reply = 404)
  /\ exists result s',
       Server.fetchNbaOddsForEvent Scenario.offline Scenario.opticKeyed
         Scenario.wallClock (VStr "F1") Scenario.started = (Normal result, s')
       /\ Server.getNbaOddsRoute "F1" s'
          = (Normal (Server.json (Server.OddsBody (Optic.OneOdds result))), s').
Proof.
  assert (Hid : "F1" <> "") by discriminate.
  assert (Hclean : Optic.nbaOdds (Server.cache Scenario.started) !! "__proto__"
                   = None) by reflexivity.
  split; [exact Hid|]. split; [exact Hclean|]. split; [reflexivity|].
  destruct (an_odds_route_answers_404_only_for_what_was_never_fetched
              Scenario.offline Scenario.opticKeyed Scenario.wallClock
              "F1" Scenario.started Hid)
    as (Hnba & _ & Hfetched & _).
  destruct (Hnba Hclean) as (reply & Hrun & Hcode & _).
  split.
  - exists reply. split; [exact Hrun|]. apply Hcode.
    split; vm_compute; reflexivity.
  - destruct (Server.fetchNbaOddsForEvent Scenario.offline Scenario.opticKeyed
                Scenario.wallClock (VStr "F1") Scenario.started)
      as [[result|e] s'] eqn:Hfetch.
    + exists result, s'. split; [reflexivity|].
      exact (Hfetched (VStr "F1") result s' eq_refl eq_refl Hfetch).
    + exfalso. vm_compute in Hfetch. discriminate Hfetch.
Defined.

Lemma nba_all_lists_every_event_with_its_odds_witness :
  let s := snd (Server.refreshNbaOdds Scenario.farFixture Scenario.opticKeyed
                  Scenario.wallClock Scenario.started) in
  Forall (fun e => printable (Optic.id e) = true) (Optic.nbaEvents (Server.cache s))
  /\ Optic.nbaOdds (Server.cache s) !! "__proto__" = None
  /\ exists events lastEventsUpdate lastOddsUpdate,
       Server.getNbaAllRoute s
       = (Normal (Server.json
                    (Server.NbaAllBody events lastEventsUpdate lastOddsUpdate 1 1)),
          s).
Proof.
  intros s.
  assert (Hids : Forall (fun e => printable (Optic.id e) = true)
                   (Optic.nbaEvents (Server.cache s)))
    by (repeat constructor).
  assert (Hclean : Optic.nbaOdds (Server.cache s) !! "__proto__" = None)
    by (vm_compute; reflexivity).
  split; [exact Hids|]. split; [exact Hclean|].
  destruct (nba_all_lists_every_event_with_its_odds Scenario.farFixture
              Scenario.opticKeyed Scenario.wallClock s Hids Hclean)
    as (events & lastEventsUpdate & lastOddsUpdate & eventsWithOdds
        & Hrun & _ & _ & _ & Hall).
  assert (Hcount : length (Optic.nbaEvents (Server.cache s)) = 1%nat)
    by (vm_compute; reflexivity).
  exists events, lastEventsUpdate, lastOddsUpdate.
  rewrite Hrun, (Hall Scenario.started), Hcount; [reflexivity|].
  vm_compute. reflexivity.
Defined.

Lemma football_all_counts_what_the_status_counts_witness :
  let s := snd (Server.refreshFootballOdds Scenario.farFixture Scenario.opticKeyed
                  Scenario.wallClock Scenario.started) in
  Optic.footballOdds (Server.cache s) !! "__proto__" = None
  /\ exists leagues lastOddsUpdate eventsWithOdds,
       Server.getFootballAllRoute s
       = (Normal (Server.json
                    (Server.FootballAllBody leagues lastOddsUpdate 1
                       eventsWithOdds)),
          s)
       /\ (eventsWithOdds <= 1)%nat.
Proof.
  intros s.
  assert (Hclean : Optic.footballOdds (Server.cache s) !! "__proto__" = None)
    by (vm_compute; reflexivity).
  assert (Hevents : exists e,
             Optic.footballEvents (Server.cache s) = {[ "epl" := [e] ]}
             /\ printable (Optic.id e) = true).
  { eexists. split; [vm_compute; reflexivity|reflexivity]. }
  split; [exact Hclean|].
  destruct (football_all_counts_what_the_status_counts s)
    as (leagues & lastOddsUpdate & totalEvents & eventsWithOdds & status
        & Hrun & Hstatus & _ & _ & Htotal & Hle); [|exact Hclean|].
  { intros l evs Hl. destruct Hevents as (e & Heq & He).
    rewrite Heq in Hl. apply lookup_singleton_Some in Hl as [_ <-].
    constructor; [exact He|constructor]. }
  assert (Hone : totalEvents = 1%nat).
  { rewrite Htotal.
    replace status with (match Optic.getStatus (Server.cache s) with
                         | (Normal st, _) => st
                         | (Thrown _, _) => status
                         end) by (rewrite Hstatus; reflexivity).
    vm_compute. reflexivity. }
  exists leagues, lastOddsUpdate, eventsWithOdds. rewrite Hrun, <- Hone.
  split; [reflexivity|exact Hle].
Defined.


Lemma only_refreshAll_looks_at_the_flag_witness :
  Optic.perform Scenario.farFixture Scenario.opticKeyed Optic.CallRefreshNbaOdds
    (Optic.set_isRefreshing true Optic.constructor)
  = Optic.set_isRefreshing true
      (Optic.perform Scenario.farFixture Scenario.opticKeyed
         Optic.CallRefreshNbaOdds Optic.constructor).
Proof.
  apply (proj2 (only_refreshAll_looks_at_the_flag Scenario.farFixture
                  Scenario.boundedDefaults Scenario.opticKeyed)).
  discriminate.
Defined.


Lemma with_budget_to_spare_every_upcoming_event_has_odds_witness :
  let st0 := Bounded.nbaOddsEntry Scenario.threeEvents Scenario.boundedDefaults
               (Bounded.constructor Scenario.threeEvents) in
  let now := clock Scenario.threeEvents (Bounded.ticks st0) in
  Forall (fun e => Bounded.plainEvent e = true) (Bounded.nbaEvents st0)
  /\ exists st',
       Bounded.refreshNbaOdds Scenario.threeEvents Scenario.boundedDefaults
         (Bounded.constructor Scenario.threeEvents) = (Normal tt, st')
       /\ Bounded.apiCallsThisHour st'
          < Bounded.MAX_CALLS_PER_HOUR Scenario.boundedDefaults
       /\ List.map (fun e => prop e "id")
            (List.filter
               (fun e => dateAtMost (Bounded.eventDate Scenario.threeEvents e)
                           (now + 3 * dayMs))
               (Bounded.nbaEvents st0))
          = [VStr "late"; VStr "soon"]
       /\ Forall (fun e => dateAtMost (Bounded.eventDate Scenario.threeEvents e)
                             (now + 3 * dayMs) = true ->
                           is_Some (Bounded.nbaOdds st' !! toString (prop e "id")))
            (Bounded.nbaEvents st0).
Proof.
  intros st0 now.
  assert (Hplain : Forall (fun e => Bounded.plainEvent e = true)
                     (Bounded.nbaEvents st0))
    by (repeat constructor).
  split; [exact Hplain|].
  destruct (proj1 (with_budget_to_spare_every_upcoming_event_has_odds
                     Scenario.threeEvents Scenario.boundedDefaults)
              (Bounded.constructor Scenario.threeEvents) Hplain)
    as (st' & Hrun & Hcovered).
  assert (Hspare : Bounded.apiCallsThisHour st'
                   < Bounded.MAX_CALLS_PER_HOUR Scenario.boundedDefaults).
  { replace st' with (snd (Bounded.refreshNbaOdds Scenario.threeEvents
                             Scenario.boundedDefaults
                             (Bounded.constructor Scenario.threeEvents)))
      by (rewrite Hrun; reflexivity).
    vm_compute. reflexivity. }
  exists st'. split; [exact Hrun|]. split; [exact Hspare|].
  split; [vm_compute; reflexivity|exact (Hcovered Hspare)].
Defined.

Lemma the_flag_is_never_left_set_witness :
  Optic.isRefreshing
    (Optic.perform Scenario.nullFixtureOptic Scenario.opticKeyed
       Optic.CallRefreshAll Optic.constructor) = false.
Proof.
  exact (proj2 (the_flag_is_never_left_set Scenario.nullFixtureOptic
                  Scenario.boundedDefaults Scenario.opticKeyed)
           [Optic.CallRefreshAll] _ (or_intror (or_introl eq_refl))).
Defined.
